(** * ddafa: Feldkamp-Davis-Kress cone-beam reconstruction

    A shallow embedding of the scheduler, the region-of-interest helper,
    the weighting and filter kernels and the back-projection kernel of the
    ddafa reconstruction program, with the properties its specification
    states about them.

    Conventions.
    - Unsigned machine integers ([std::uint32_t], [std::size_t]) are [Z]
      values reduced with [wrap32] / [wrap64] wherever the C++ code can
      overflow.
    - [std::map] members of the scheduler are association lists in
      insertion order; the accessors return the same defaults as the
      [catch (std::out_of_range)] branches of the source.
    - Where a property is about the formula a kernel evaluates, single
      precision arithmetic is idealised as exact arithmetic on [R].  Where
      it is about NaN and signed zeros (the bilinear interpolation of the
      back-projection), [float] is IEEE 754 binary32 through the Standard
      Library's [SpecFloat].
    - A kernel launch runs the thread body once per thread of the grid;
      every thread touches cells of its own only, so the threads are run
      one after the other.
    - The recursive lambda [calcVolumeSizePerDev] does not terminate for a
      device that reports no memory; it is embedded with a fuel argument.
      In the scheduler [None] stands for a run that yields no plan: out of
      fuel, or stopped by an integer division by zero. *)

From Stdlib Require Import ZArith List Bool Lia.
From Stdlib Require Import Reals Lra Zfloor.
From Stdlib Require Import Floats.SpecFloat.
Import ListNotations.

Local Open Scope Z_scope.

(** * Part I: the embedding *)

(** ** Machine integers *)

Module Machine.

Definition wrap32 (x : Z) : Z := x mod 2 ^ 32.
Definition wrap64 (x : Z) : Z := x mod 2 ^ 64.

Definition is_u32 (x : Z) : Prop := 0 <= x < 2 ^ 32.
Definition is_u64 (x : Z) : Prop := 0 <= x < 2 ^ 64.

(** [0, 1, ..., n-1] as machine integers: the index set of a counting
    [for] loop. *)
Definition range (n : Z) : list Z := map Z.of_nat (seq 0 (Z.to_nat n)).

Definition sumZ (l : list Z) : Z := fold_right Z.add 0 l.

End Machine.
Import Machine.

(** ** Finite maps in insertion order ([std::map] with few keys) *)

Module Assoc.
Section Assoc.
Context {K V : Type}.
Variable eqb : K -> K -> bool.

Fixpoint lookup (m : list (K * V)) (k : K) : option V :=
  match m with
  | [] => None
  | (k', v) :: m' => if eqb k' k then Some v else lookup m' k
  end.

(** [std::map::emplace]: an existing key keeps its value. *)
Definition emplace (m : list (K * V)) (k : K) (v : V) : list (K * V) :=
  match lookup m k with
  | Some _ => m
  | None => m ++ [(k, v)]
  end.

(** [m[k] = v]: inserts or overwrites. *)
Fixpoint assign (m : list (K * V)) (k : K) (v : V) : list (K * V) :=
  match m with
  | [] => [(k, v)]
  | (k', v') :: m' =>
      if eqb k' k then (k', v) :: m' else (k', v') :: assign m' k v
  end.

End Assoc.
End Assoc.

(** ** The scheduler (FeldkampScheduler.h), integer part *)

Module Scheduler.

(** [sizeof(T)] for the only instantiation, [FeldkampScheduler<float>]. *)
Definition sizeof_T : Z := 4.

(** [calculate_volume_bytes] *)
Definition calculate_volume_bytes (dim_x dim_y dim_z : Z) : Z :=
  wrap64 (wrap64 (wrap64 (dim_x * dim_y) * dim_z) * sizeof_T).

(** The recursive lambda of [calculate_volumes_per_device]:
    "divide size by 2 until it fits in memory".  The result is the final
    chunk size together with the updated [*volume_count]. *)
Fixpoint calcVolumeSizePerDev (fuel : nat) (volume_size volume_count dev_mem : Z)
  : option (Z * Z) :=
  match fuel with
  | O => None
  | S fuel' =>
      if dev_mem <=? volume_size
      then calcVolumeSizePerDev fuel' (volume_size / 2)
             (wrap32 (volume_count * 2)) dev_mem
      else Some (volume_size, volume_count)
  end.

(** Enough fuel for any 64-bit chunk size: 64 halvings reach zero. *)
Definition enough : nat := 65.

(** [std::map<int, std::uint32_t>] *)
Definition dev_map := list (Z * Z).

(** [std::map<int, std::map<std::uint32_t, std::size_t>>], keyed by the
    pair (device, chunk index). *)
Definition offset_map := list ((Z * Z) * Z).

Definition pair_eqb (a b : Z * Z) : bool :=
  (fst a =? fst b) && (snd a =? snd b).

(** State of the scheduler after [calculate_volumes_per_device]. *)
Record chunk_state := {
  volume_bytes_ : Z;          (* already divided by the device count *)
  volume_count_ : Z;
  volumes_per_device_ : dev_map
}.

(** One iteration of the [for] loop over the devices; [total_global_mem]
    is [properties.totalGlobalMem] of device [i]. *)
Definition device_step (fuel : nat) (st : chunk_state) (i total_global_mem : Z)
  : option chunk_state :=
  match calcVolumeSizePerDev fuel (volume_bytes_ st) 1 total_global_mem with
  | None => None
  | Some (_, vol_count_dev) =>
      Some {| volume_bytes_ := volume_bytes_ st;
              volume_count_ := wrap32 (volume_count_ st + vol_count_dev);
              volumes_per_device_ :=
                Assoc.emplace Z.eqb (volumes_per_device_ st) i vol_count_dev |}
  end.

Fixpoint device_loop (fuel : nat) (st : chunk_state) (i : Z) (mems : list Z)
  : option chunk_state :=
  match mems with
  | [] => Some st
  | mem :: rest =>
      match device_step fuel st i mem with
      | None => None
      | Some st' => device_loop fuel st' (i + 1) rest
      end
  end.

(** [calculate_volumes_per_device]; [mems] lists [totalGlobalMem] of the
    devices [0 .. devices_-1].  [volume_bytes_ /= devices_] divides by zero
    when there is no device. *)
Definition calculate_volumes_per_device (fuel : nat) (volume_bytes : Z)
    (mems : list Z) : option chunk_state :=
  let devices := Z.of_nat (length mems) in
  if devices =? 0 then None
  else
    device_loop fuel
      {| volume_bytes_ := volume_bytes / devices;
         volume_count_ := 0;
         volumes_per_device_ := [] |}
      0 mems.

(** [get_volume_num]: 0 for an unknown device. *)
Definition get_volume_num (m : dev_map) (device : Z) : Z :=
  match Assoc.lookup Z.eqb m device with
  | Some v => v
  | None => 0
  end.

(** The inner loop of [calculate_subvolume_offsets]:
    [offset_per_volume_[i][c] = i * vol_count_dev * vol_offset + c * vol_offset].
    [i * vol_count_dev] is a 32-bit product, the rest is [std::size_t]. *)
Definition chunk_offset (i vol_count_dev vol_offset c : Z) : Z :=
  wrap64 (wrap64 (wrap32 (i * vol_count_dev) * vol_offset)
          + wrap64 (c * vol_offset)).

Definition offsets_of_device (dim_z volume_count : Z) (vpd : dev_map)
    (acc : option offset_map) (i : Z) : option offset_map :=
  match acc with
  | None => None
  | Some offs =>
      match Assoc.lookup Z.eqb vpd i with
      | None => Some offs                    (* count(i) == 0: continue *)
      | Some vol_count_dev =>
          if volume_count =? 0 then None     (* integer division by zero *)
          else
            let vol_offset := dim_z / volume_count in
            Some (fold_left
                    (fun o c =>
                       Assoc.assign pair_eqb o (i, c)
                         (chunk_offset i vol_count_dev vol_offset c))
                    (range vol_count_dev) offs)
      end
  end.

(** [calculate_subvolume_offsets] *)
Definition calculate_subvolume_offsets (devices dim_z volume_count : Z)
    (vpd : dev_map) : option offset_map :=
  fold_left (offsets_of_device dim_z volume_count vpd) (range devices) (Some []).

(** [get_volume_offset]: 0 for an unknown device or chunk. *)
Definition get_volume_offset (offs : offset_map) (device index : Z) : Z :=
  match Assoc.lookup pair_eqb offs (device, index) with
  | Some v => v
  | None => 0
  end.

(** The integer part of the plan the constructor leaves behind. *)
Record plan := {
  dim_z_ : Z;
  devices_ : Z;
  chunks_ : chunk_state;
  offset_per_volume_ : offset_map
}.

(** The constructor, up to [calculate_subvolume_offsets]. *)
Definition schedule (fuel : nat) (dim_x dim_y dim_z : Z) (mems : list Z)
  : option plan :=
  let devices := Z.of_nat (length mems) in
  match calculate_volumes_per_device fuel
          (calculate_volume_bytes dim_x dim_y dim_z) mems with
  | None => None
  | Some st =>
      match calculate_subvolume_offsets devices dim_z (volume_count_ st)
              (volumes_per_device_ st) with
      | None => None
      | Some offs =>
          Some {| dim_z_ := dim_z; devices_ := devices;
                  chunks_ := st; offset_per_volume_ := offs |}
      end
  end.

End Scheduler.

(** ** Sub-volume allocation (Feldkamp::create_volumes) *)

Module Feldkamp.
Import Scheduler.

(** The depths of the sub-volumes [create_volumes] allocates on [device]. *)
Definition create_volumes (p : plan) (device : Z) : list Z :=
  let vol_dev_size := dim_z_ p / devices_ p in
  let vol_on_device := get_volume_num (volumes_per_device_ (chunks_ p)) device in
  map (fun _ => vol_dev_size / vol_on_device) (range vol_on_device).

(** The sub-volumes of one device as (z-offset, local z-extent): the offset
    the scheduler hands out for the chunk ([get_volume_offset]) and the
    depth [create_volumes] allocates for it. *)
Definition device_sub_volumes (p : plan) (device : Z) : list (Z * Z) :=
  combine
    (map (get_volume_offset (offset_per_volume_ p) device)
       (range (get_volume_num (volumes_per_device_ (chunks_ p)) device)))
    (create_volumes p device).

(** All sub-volumes in plan order: device 0 first. *)
Definition sub_volumes (p : plan) : list (Z * Z) :=
  flat_map (device_sub_volumes p) (range (devices_ p)).

(** Slice [z] lies in the band of sub-volume [sv]. *)
Definition in_band (sv : Z * Z) (z : Z) : Prop :=
  fst sv <= z < fst sv + snd sv.

End Feldkamp.

(** ** Region of interest (geometry.cpp: apply_roi) *)

Module Roi.

(** [volume_geometry]; the voxel sizes are [float]s that [apply_roi] only
    carries along, so their type is left open here. *)
Record volume_geometry {F : Type} := {
  dim_x : Z;
  dim_y : Z;
  dim_z : Z;
  l_vx_x : F;
  l_vx_y : F;
  l_vx_z : F
}.
Arguments volume_geometry : clear implicits.

(** What [apply_roi] writes to the log. *)
Inductive roi_log :=
| Applied              (* info: "Applied region of interest." *)
| ExceedsOldDimensions (* warning: "New volume dimensions exceed old ..." *)
| InvalidCoordinates.  (* warning: "Invalid ROI coordinates. ..." *)

Definition check_coords (low high : Z) : bool := low <? high.
Definition check_dims (updated old : Z) : bool := updated <=? old.

(** [auto dim = high - low; if(low == 0) ++dim;] on [std::uint32_t]. *)
Definition updated_dim (low high : Z) : Z :=
  let dim := wrap32 (high - low) in
  if low =? 0 then wrap32 (dim + 1) else dim.

Definition apply_roi {F} (vol_geo : volume_geometry F) (x1 x2 y1 y2 z1 z2 : Z)
  : volume_geometry F * roi_log :=
  let roi_geo := vol_geo in
  if check_coords x1 x2 && check_coords y1 y2 && check_coords z1 z2 then
    let dim_x' := updated_dim x1 x2 in
    let dim_y' := updated_dim y1 y2 in
    let dim_z' := updated_dim z1 z2 in
    if check_dims dim_x' (dim_x vol_geo) && check_dims dim_y' (dim_y vol_geo)
       && check_dims dim_z' (dim_z vol_geo)
    then ({| dim_x := dim_x'; dim_y := dim_y'; dim_z := dim_z';
             l_vx_x := l_vx_x roi_geo; l_vx_y := l_vx_y roi_geo;
             l_vx_z := l_vx_z roi_geo |}, Applied)
    else (roi_geo, ExceedsOldDimensions)
  else (roi_geo, InvalidCoordinates).

End Roi.

(** ** Arrays in memory *)

Module Mem.

(** [a[k] = v] inside the array. *)
Fixpoint update {A} (a : list A) (k : nat) (v : A) : list A :=
  match a, k with
  | [], _ => []
  | _ :: a', O => v :: a'
  | x :: a', S k' => x :: update a' k' v
  end.

(** An array together with the writes that went past its end, as
    (index, value) in program order: C++ gives those no meaning. *)
Record checked (A : Type) := {
  cells : list A;
  past_end : list (Z * A)
}.
Arguments cells {A}.
Arguments past_end {A}.

Definition store {A} (m : checked A) (k : Z) (v : A) : checked A :=
  if (0 <=? k) && (k <? Z.of_nat (length (cells m)))
  then {| cells := update (cells m) (Z.to_nat k) v; past_end := past_end m |}
  else {| cells := cells m; past_end := past_end m ++ [(k, v)] |}.

End Mem.

(** ** The ramp filter (CUDAFilter.cu) *)

Module Filter.

Definition to_int32 (x : Z) : Z := (x + 2 ^ 31) mod 2 ^ 32 - 2 ^ 31.

(** The number [2 * 2 ^ ceil(log2 det_pixels_column)] the constructor's
    expression [2 * pow(2, ceil(log2(float(det_pixels_column))))] stands
    for, computed exactly; with no column [log2] is minus infinity and the
    length is 0.  [FilterLength.filter_length_] is the constructor's own
    [float] computation; the two differ where [std::log2] rounds to the
    integer below. *)
Definition filter_length (det_pixels_column : Z) : Z :=
  if det_pixels_column <=? 0 then 0
  else 2 * 2 ^ Z.log2_up det_pixels_column.

(** The loop of [filterProcessor] that fills [j_host_buffer]:
    [for(k = 0; k <= filter_length_; ++k, ++j) j_host_buffer[k] = j;]
    [steps] is the number of iterations still to run. *)
Fixpoint fill_loop (steps : nat) (k j : Z) (m : Mem.checked Z) : Mem.checked Z :=
  match steps with
  | O => m
  | S steps' => fill_loop steps' (k + 1) (to_int32 (j + 1)) (Mem.store m k j)
  end.

(** First value of [j]: [-((filter_length_signed - 2) / 2)], the division
    truncating as in C++. *)
Definition j_start (filter_length_ : Z) : Z :=
  to_int32 (- (Z.quot (to_int32 filter_length_ - 2) 2)).

(** [j_host_buffer] after the loop; [garbage] is the content of the
    uninitialised array of [filter_length_] elements. *)
Definition fill_j_host_buffer (filter_length_ : Z) (garbage : Z -> Z)
  : Mem.checked Z :=
  fill_loop (Z.to_nat (filter_length_ + 1)) 0 (j_start filter_length_)
    {| Mem.cells := map garbage (range filter_length_); Mem.past_end := [] |}.

(** The value [createFilter] stores for the index [j[x]]. *)
Definition r_of_j (tau : R) (jx : Z) : R :=
  if jx =? 0 then (1 / 8 * (1 / tau ^ 2))%R
  else if Z.rem jx 2 =? 0 then 0%R
  else (- 1 / (2 * IZR jx ^ 2 * PI ^ 2 * tau ^ 2))%R.

(** One thread of the kernel [createFilter]. *)
Definition createFilter (j : list Z) (size : Z) (tau : R) (r : list R) (x : Z)
  : list R :=
  if x <? size then
    match nth_error j (Z.to_nat x) with
    | Some jx => Mem.update r (Z.to_nat x) (r_of_j tau jx)
    | None => r
    end
  else r.

(** What one run of [filterProcessor] leaves behind: the device buffer
    [rs_[device]], and the stores of the host loop that fell outside
    [j_host_buffer].  What such a store overwrites on the stack is not
    modelled; the table and the loop variables are taken as the loop left
    them. *)
Record filter_run := {
  rs_ : list R;
  stray_stores : list (Z * Z)
}.

(** [filterProcessor]: the first [filter_length_] entries of the host table
    are copied to the device and [createFilter] runs on a grid of [grid]
    threads; [r_garbage] is the content of the fresh device buffer. *)
Definition filterProcessor (filter_length_ : Z) (tau : R) (grid : Z)
    (j_garbage : Z -> Z) (r_garbage : Z -> R) : filter_run :=
  let table := fill_j_host_buffer filter_length_ j_garbage in
  let j_host_buffer := Mem.cells table in
  let j_dev_buffer := firstn (Z.to_nat filter_length_) j_host_buffer in
  {| rs_ := fold_left (createFilter j_dev_buffer filter_length_ tau) (range grid)
              (map r_garbage (range filter_length_));
     stray_stores := Mem.past_end table |}.

(** The filter value stored for index [j]: entry [j + (L - 2) / 2]. *)
Definition r_at (filter_length_ : Z) (r : list R) (j : Z) : R :=
  nth (Z.to_nat (j + (filter_length_ - 2) / 2)) r 0%R.

End Filter.

(** ** Conversions between integers and idealised [float]s *)

Module Ideal.
Local Open Scope R_scope.

(** [static_cast] of a [float] to an unsigned integer type truncates
    towards zero; C++ leaves a value outside the target type undefined, the
    reduction modulo [2 ^ 64] or [2 ^ 32] stands for it. *)
Definition truncate (x : R) : Z :=
  if Rle_dec 0 x then Zfloor x else Zceil x.

Definition to_size_t (x : R) : Z := wrap64 (truncate x).
Definition to_uint32 (x : R) : Z := wrap32 (truncate x).

(** [std::floor] and [std::ceil], with a [float] result. *)
Definition floor (x : R) : R := IZR (Zfloor x).
Definition ceil (x : R) : R := IZR (Zceil x).

(** The CUDA intrinsics of the weighting kernels. *)
Definition rsqrtf (x : R) : R := / sqrt x.
Definition powf2 (x : R) : R := x ^ 2.

End Ideal.

(** ** Volume geometry (geometry.cpp: make_volume_geometry) *)

Module Geometry.
Import Ideal Roi.
Local Open Scope R_scope.

(** The fields of [detector_geometry] the code under study reads. *)
Record detector_geometry := {
  n_row : Z;
  n_col : Z;
  l_px_row : R;
  l_px_col : R;
  delta_s : R;
  delta_t : R;
  d_so : R;
  d_od : R
}.

(** [make_volume_geometry] with the [float] operations taken as exact:
    the formulae the code evaluates.  The rounded quotient the code casts
    can fall just below the integer the formula gives, so a dimension of
    the program can be one less than here; [GeometryFloat] has the
    function in binary32. *)
Definition make_volume_geometry (det_geo : detector_geometry) : volume_geometry R :=
  let n_row := IZR (n_row det_geo) in
  let l_px_row := l_px_row det_geo in
  let delta_s := Rabs (delta_s det_geo * l_px_row) in
  let n_col := IZR (n_col det_geo) in
  let l_px_col := l_px_col det_geo in
  let delta_t := Rabs (delta_t det_geo * l_px_col) in
  let d_so := Rabs (d_so det_geo) in
  let d_sd := Rabs (d_od det_geo) + d_so in
  let alpha := atan ((n_row * l_px_row / 2 + delta_s) / d_sd) in
  let r := d_so * sin alpha in
  let l_vx_x := r / ((n_row * l_px_row / 2 + delta_s) / l_px_row) in
  let l_vx_y := l_vx_x in
  let dim_x := to_uint32 (2 * r / l_vx_x) in
  let dim_y := dim_x in
  let l_vx_z := l_vx_x in
  let dim_z :=
    to_uint32 ((n_col * l_px_col / 2 + delta_t) * (d_so / d_sd) * (2 / l_vx_z)) in
  {| dim_x := dim_x; dim_y := dim_y; dim_z := dim_z;
     l_vx_x := l_vx_x; l_vx_y := l_vx_y; l_vx_z := l_vx_z |}.

(** Scenario S1 of the specification. *)
Definition s1_geometry : detector_geometry :=
  {| n_row := 32; n_col := 32; l_px_row := 1; l_px_col := 1;
     delta_s := 0; delta_t := 0; d_so := 100; d_od := 100 |}.

End Geometry.

(** ** The scheduler (FeldkampScheduler.h), geometric part *)

Module SchedulerGeometry.
Import Ideal.
Local Open Scope R_scope.

(** The fields of [common::Geometry] the scheduler reads. *)
Record Geometry := {
  det_pixels_row : Z;
  det_pixels_column : Z;
  det_pixel_size_horiz : R;
  det_pixel_size_vert : R;
  det_offset_horiz : R;
  det_offset_vert : R;
  dist_src : R;
  dist_det : R
}.

Record VolumeGeometry := {
  dim_x : Z;
  dim_y : Z;
  dim_z : Z;
  voxel_size_x : R;
  voxel_size_y : R;
  voxel_size_z : R
}.

(** [dist_sd_], set by the constructor. *)
Definition dist_sd_ (geo : Geometry) : R :=
  Rabs (dist_det geo) + Rabs (dist_src geo).

(** [calculate_volume_geo] with the [float] operations taken as exact,
    under the same reservation as [Geometry.make_volume_geometry];
    [SchedulerFloat] has the function in binary32. *)
Definition calculate_volume_geo (geo : Geometry) : VolumeGeometry :=
  let N_h := IZR (det_pixels_row geo) in
  let d_h := det_pixel_size_horiz geo in
  let delta_h := det_offset_horiz geo * d_h in
  let alpha := atan ((N_h * d_h / 2 + Rabs delta_h) / dist_sd_ geo) in
  let r := Rabs (dist_src geo) * sin alpha in
  let voxel_size_x := r / ((N_h * d_h / 2 + Rabs delta_h) / d_h) in
  let voxel_size_y := voxel_size_x in
  let dim_x := to_size_t (2 * r / voxel_size_x) in
  let dim_y := dim_x in
  let voxel_size_z := voxel_size_x in
  let N_v := IZR (det_pixels_column geo) in
  let d_v := det_pixel_size_vert geo in
  let delta_v := det_offset_vert geo * d_v in
  let dim_z :=
    to_size_t ((N_v * d_v / 2 + Rabs delta_v)
               * (Rabs (dist_src geo) / dist_sd_ geo) * (2 / voxel_size_z)) in
  {| dim_x := dim_x; dim_y := dim_y; dim_z := dim_z;
     voxel_size_x := voxel_size_x; voxel_size_y := voxel_size_y;
     voxel_size_z := voxel_size_z |}.

(** [calculate_volume_height_mm] *)
Definition calculate_volume_height_mm (vol_geo : VolumeGeometry) : R :=
  IZR (dim_z vol_geo) * voxel_size_z vol_geo.

(** The body of the loop of [calculate_subprojection_borders] for
    sub-volume [n]: the pair pushed onto [subproj_dims_].  The [float]
    operations are taken as exact; in particular the clamp value
    [static_cast<float>(N_v) - 1.f] is [N_v - 1], which is what the code
    computes for [N_v <= 2 ^ 24] only. *)
Definition subprojection_border (geo : Geometry) (vol_geo : VolumeGeometry)
    (volume_height_ : R) (volume_count_ : Z) (n : Z) : Z * Z :=
  let delta_v := det_offset_vert geo * det_pixel_size_vert geo in
  let d_v := det_pixel_size_vert geo in
  let N_v := IZR (det_pixels_column geo) in
  let N := IZR volume_count_ in
  let d_src := dist_src geo in
  let r_max := IZR (dim_x vol_geo) * voxel_size_x vol_geo / 2 in
  let top := - (volume_height_ / 2) + IZR n / N * volume_height_ in
  let bottom :=
    - (volume_height_ / 2) + IZR (wrap32 (n + 1)) / N * volume_height_ in
  let top_proj_virt :=
    top * dist_sd_ geo
    / (Rabs d_src + (if Rlt_dec top 0 then - r_max else r_max)) in
  let bottom_proj_virt :=
    bottom * dist_sd_ geo
    / (Rabs d_src + (if Rlt_dec bottom 0 then r_max else - r_max)) in
  let top_proj_real := 0 - N_v * d_v / 2 - delta_v + d_v / 2 in
  let bottom_proj_real := top_proj_real + N_v * d_v - d_v in
  let top_proj :=
    if Rgt_dec top_proj_virt bottom_proj_real then bottom_proj_real
    else if Rlt_dec top_proj_virt top_proj_real then top_proj_real
    else top_proj_virt in
  let bottom_proj :=
    if Rlt_dec bottom_proj_virt top_proj_real then top_proj_real
    else if Rgt_dec bottom_proj_virt bottom_proj_real then bottom_proj_real
    else bottom_proj_virt in
  let start_row := floor ((top_proj + N_v * d_v / 2 + delta_v) / d_v - 1 / 2) in
  let bottom_row := ceil ((bottom_proj + N_v * d_v / 2 + delta_v) / d_v - 1 / 2) in
  let start_row := if Rlt_dec start_row 0 then 0 else start_row in
  let bottom_row := if Rge_dec bottom_row N_v then N_v - 1 else bottom_row in
  (to_uint32 start_row, to_uint32 bottom_row).

(** [calculate_subprojection_borders]: [subproj_dims_] after the loop. *)
Definition calculate_subprojection_borders (geo : Geometry)
    (vol_geo : VolumeGeometry) (volume_height_ : R) (volume_count_ : Z)
  : list (Z * Z) :=
  map (subprojection_border geo vol_geo volume_height_ volume_count_)
    (range volume_count_).

(** The constructor's sequence for the detector rows: geometry, height,
    borders; [volume_count_] comes from the integer part of the plan. *)
Definition subprojections (geo : Geometry) (volume_count_ : Z) : list (Z * Z) :=
  let vol_geo := calculate_volume_geo geo in
  calculate_subprojection_borders geo vol_geo
    (calculate_volume_height_mm vol_geo) volume_count_.

End SchedulerGeometry.

(** ** Kernel launches *)

Module Launch.

Section Memory.
Context {K V : Type}.
Variable eqb : K -> K -> bool.

(** Device memory addressed by [K]; [write] is one store. *)
Definition write (mem : K -> V) (k : K) (v : V) : K -> V :=
  fun k' => if eqb k k' then v else mem k'.

End Memory.

(** A launch: the thread body runs once for every thread of the grid. *)
Definition run {T M : Type} (thread : M -> T -> M) (grid : list T) (mem : M) : M :=
  fold_left thread grid mem.

Definition eqb2 (a b : Z * Z) : bool := (fst a =? fst b) && (snd a =? snd b).

Definition eqb3 (a b : Z * Z * Z) : bool := eqb2 (fst a) (fst b) && (snd a =? snd b).

(** The threads of a two- and of a three-dimensional grid as (x, y) and
    ((x, y), z). *)
Definition grid2 (gx gy : Z) : list (Z * Z) := list_prod (range gx) (range gy).

Definition grid3 (gx gy gz : Z) : list (Z * Z * Z) :=
  list_prod (grid2 gx gy) (range gz).

End Launch.

(** ** The weighting stage (weighting_stage.cu) *)

Module Weighting.
Import Ideal Geometry.
Local Open Scope R_scope.

(** A pitched 2-D buffer of [float], addressed by (row, column). *)
Definition image := Z * Z -> R.

(** The fields of [projection] the stage reads. *)
Record projection := {
  ptr : image;
  width : Z;
  height : Z;
  valid : bool
}.

(** [output_type{}], the end-of-stream marker. *)
Definition sentinel : projection :=
  {| ptr := fun _ => 0; width := 0; height := 0; valid := false |}.

(** One thread [(s, t)] of [weighting_kernel]; input and output are the
    same buffer. *)
Definition weighting_kernel (n_row n_col : Z) (h_min v_min d_sd l_px_row l_px_col : R)
    (buffer : image) (thread : Z * Z) : image :=
  let s := fst thread in
  let t := snd thread in
  if (s <? n_row)%Z && (t <? n_col)%Z then
    let val := buffer (t, s) in
    let h_s := l_px_row / 2 + IZR s * l_px_row + h_min in
    let v_t := l_px_col / 2 + IZR t * l_px_col + v_min in
    let w_st := d_sd * rsqrtf (powf2 d_sd + powf2 h_s + powf2 v_t) in
    Launch.write Launch.eqb2 buffer (t, s) (val * w_st)
  else buffer.

(** The state [assign_task] sets up. *)
Record stage := {
  det_geo_ : detector_geometry;
  h_min_ : R;
  v_min_ : R;
  d_sd_ : R
}.

Definition assign_task (det_geo : detector_geometry) : stage :=
  let n_row_f := IZR (n_row det_geo) in
  let n_col_f := IZR (n_col det_geo) in
  {| det_geo_ := det_geo;
     h_min_ := delta_s det_geo * l_px_row det_geo - n_row_f * l_px_row det_geo / 2;
     v_min_ := delta_t det_geo * l_px_col det_geo - n_col_f * l_px_col det_geo / 2;
     d_sd_ := Rabs (d_so det_geo) + Rabs (d_od det_geo) |}.

(** [weight]: the kernel launched on a grid that covers the projection;
    [round_up] is the rounding of the launch helper to whole blocks. *)
Definition weight (round_up : Z -> Z) (st : stage) (p : projection) : projection :=
  {| ptr := Launch.run
              (weighting_kernel (width p) (height p) (h_min_ st) (v_min_ st)
                 (d_sd_ st) (l_px_row (det_geo_ st)) (l_px_col (det_geo_ st)))
              (Launch.grid2 (round_up (width p)) (round_up (height p)))
              (ptr p);
     width := width p; height := height p; valid := valid p |}.

(** [run]: what the stage hands to [output_] for the projections [input_]
    returns; with the input exhausted [input_] blocks and nothing more is
    emitted. *)
Fixpoint run (round_up : Z -> Z) (st : stage) (input : list projection)
  : list projection :=
  match input with
  | [] => []
  | p :: rest =>
      if valid p then weight round_up st p :: run round_up st rest
      else [sentinel]
  end.

(** The weight the specification gives for pixel [(s, t)]. *)
Definition cosine_weight (det_geo : detector_geometry) (s t : Z) : R :=
  let h_min := delta_s det_geo * l_px_row det_geo
               - IZR (n_row det_geo) * l_px_row det_geo / 2 in
  let v_min := delta_t det_geo * l_px_col det_geo
               - IZR (n_col det_geo) * l_px_col det_geo / 2 in
  let d_sd := Rabs (d_so det_geo) + Rabs (d_od det_geo) in
  let h_s := l_px_row det_geo / 2 + IZR s * l_px_row det_geo + h_min in
  let v_t := l_px_col det_geo / 2 + IZR t * l_px_col det_geo + v_min in
  d_sd / sqrt (d_sd ^ 2 + h_s ^ 2 + v_t ^ 2).

End Weighting.

(** ** The first weighting implementation (CUDAWeighting.cu) *)

Module CUDAWeighting.
Import Ideal SchedulerGeometry.
Local Open Scope R_scope.

(** The constructor's [h_min_], [v_min_] and [d_dist_]. *)
Definition h_min_ (geo : Geometry) : R :=
  - (det_offset_horiz geo * det_pixel_size_horiz geo)
  - IZR (det_pixels_row geo) * det_pixel_size_horiz geo / 2.

Definition v_min_ (geo : Geometry) : R :=
  - (det_offset_vert geo * det_pixel_size_vert geo)
  - IZR (det_pixels_column geo) * det_pixel_size_vert geo / 2.

Definition d_dist_ (geo : Geometry) : R := dist_det geo + dist_src geo.

(** One thread [(j, i)] of the kernel [weight]. *)
Definition weight (width height : Z) (h_min v_min d_dist : R)
    (pixel_size_horiz pixel_size_vert : R) (img : Z * Z -> R) (thread : Z * Z)
  : Z * Z -> R :=
  let j := fst thread in
  let i := snd thread in
  if (j <? width)%Z && (i <? height)%Z then
    let h_j := pixel_size_horiz / 2 + IZR j * pixel_size_horiz + h_min in
    let v_i := pixel_size_vert / 2 + IZR i * pixel_size_vert + v_min in
    let w_ij := d_dist * rsqrtf (powf2 d_dist + powf2 h_j + powf2 v_i) in
    Launch.write Launch.eqb2 img (i, j) (img (i, j) * w_ij)
  else img.

End CUDAWeighting.

(** ** IEEE 754 binary32 *)

Module Float32.

Definition prec : Z := 24.
Definition emax : Z := 128.

Definition float := spec_float.

Definition fadd : float -> float -> float := SFadd prec emax.
Definition fsub : float -> float -> float := SFsub prec emax.
Definition fmul : float -> float -> float := SFmul prec emax.
Definition fdiv : float -> float -> float := SFdiv prec emax.
Definition fopp : float -> float := SFopp.
Definition fltb : float -> float -> bool := SFltb.
Definition fleb : float -> float -> bool := SFleb.

(** The [float] nearest to [m * 2 ^ e]. *)
Definition dyadic (m e : Z) : float := binary_normalize prec emax m e false.

(** Conversion of an integer to [float]. *)
Definition of_Z (z : Z) : float := dyadic z 0.

Definition zero : float := S754_zero false.
Definition half : float := dyadic 1 (-1).
Definition one : float := of_Z 1.
Definition two : float := of_Z 2.

(** [floorf]: the greatest integral value not above [x]; zeros, infinities
    and NaN are returned as they are. *)
Definition floorf (x : float) : float :=
  match x with
  | S754_finite s m e =>
      if 0 <=? e then x
      else
        let q := Z.shiftr (Zpos m) (- e) in
        let exact := Z.shiftl q (- e) =? Zpos m in
        if s then binary_normalize prec emax (- (if exact then q else q + 1)) 0 true
        else binary_normalize prec emax q 0 false
  | _ => x
  end.

(** [ceilf] *)
Definition ceilf (x : float) : float := fopp (floorf (fopp x)).

(** [static_cast<unsigned int>] of a [float]: truncation.  C++ gives no
    meaning to the cast of a negative, too large or NaN value; the device
    saturates, which is what is written here. *)
Definition as_unsigned (x : float) : Z :=
  match x with
  | S754_finite false m e =>
      Z.min (2 ^ 32 - 1)
        (if 0 <=? e then Zpos m * 2 ^ e else Z.shiftr (Zpos m) (- e))
  | S754_infinity false => 2 ^ 32 - 1
  | _ => 0
  end.

Definition is_nan (x : float) : bool :=
  match x with S754_nan => true | _ => false end.

Definition is_zero (x : float) : bool :=
  match x with S754_zero _ => true | _ => false end.

End Float32.

(** ** Back-projection (Feldkamp.cu) *)

Module Backprojection.
Import Float32.

(** A pitched 2-D projection, addressed by (row, column). *)
Definition projection := Z -> Z -> float.

Definition vol_centered_coordinate (coord dim : Z) (size : float) : float :=
  let size2 := fdiv size two in
  fadd (fadd (fopp (fmul (of_Z dim) size2)) size2) (fmul (of_Z coord) size).

Definition proj_real_coordinate (coord : float) (dim : Z) (size offset : float)
  : float :=
  let size2 := fdiv size two in
  let min := fsub (fopp (fmul (of_Z dim) size2)) offset in
  fdiv (fsub (fsub coord size2) min) size.

(** [interpolate]; the row pointers are formed for every corner but read
    only under the bounds checks. *)
Definition interpolate (h v : float) (proj : projection) (proj_width proj_height : Z)
    (pixel_size_x pixel_size_y offset_x offset_y : float) : float :=
  let h_real := proj_real_coordinate h proj_width pixel_size_x offset_x in
  let v_real := proj_real_coordinate v proj_height pixel_size_y offset_y in
  let h_j0 := floorf h_real in
  let h_j1 := ceilf h_real in
  let v_i0 := floorf v_real in
  let v_i1 := ceilf v_real in
  let w_h0 := fdiv (fsub h_real h_j0) (fsub h_j1 h_j0) in
  let w_v0 := fdiv (fsub v_real v_i0) (fsub v_i1 v_i0) in
  let h_j0_ui := as_unsigned h_j0 in
  let h_j1_ui := as_unsigned h_j1 in
  let v_i0_ui := as_unsigned v_i0 in
  let v_i1_ui := as_unsigned v_i1 in
  let upper_row := proj v_i0_ui in
  let lower_row := proj v_i1_ui in
  let w_h1 := fsub one w_h0 in
  let w_v1 := fsub one w_v0 in
  let h_j0_valid := fleb zero h_j0 && fltb h_j0 (of_Z proj_width) in
  let h_j1_valid := fleb zero h_j1 && fltb h_j1 (of_Z proj_width) in
  let v_i0_valid := fleb zero v_i0 && fltb v_i0 (of_Z proj_height) in
  let v_i1_valid := fleb zero v_i1 && fltb v_i1 (of_Z proj_height) in
  let tl := if h_j0_valid && v_i0_valid then upper_row h_j0_ui else zero in
  let bl := if h_j0_valid && v_i1_valid then lower_row h_j0_ui else zero in
  let tr := if h_j1_valid && v_i0_valid then upper_row h_j1_ui else zero in
  let br := if h_j1_valid && v_i1_valid then lower_row h_j1_ui else zero in
  fadd (fadd (fadd (fmul (fmul w_h1 w_v1) tl) (fmul (fmul w_h1 w_v0) bl))
          (fmul (fmul w_h0 w_v1) tr))
    (fmul (fmul w_h0 w_v0) br).

(** The bilinear footprint of a sample: is any of its four corner pixels
    inside the detector? *)
Definition footprint_inside (h v : float) (proj_width proj_height : Z)
    (pixel_size_x pixel_size_y offset_x offset_y : float) : bool :=
  let h_real := proj_real_coordinate h proj_width pixel_size_x offset_x in
  let v_real := proj_real_coordinate v proj_height pixel_size_y offset_y in
  let inside x dim := fleb zero x && fltb x (of_Z dim) in
  (inside (floorf h_real) proj_width || inside (ceilf h_real) proj_width)
  && (inside (floorf v_real) proj_height || inside (ceilf v_real) proj_height).

Section Kernel.
(** The device function [powf]. *)
Variable powf : float -> float -> float.

(** The geometry arguments of the kernel [backproject]. *)
Record launch_geometry := {
  vol_w : Z; vol_h : Z; vol_d : Z;
  voxel_size_x : float; voxel_size_y : float; voxel_size_z : float;
  proj_w : Z; proj_h : Z;
  pixel_size_x : float; pixel_size_y : float;
  pixel_offset_x : float; pixel_offset_y : float;
  angle_sin : float; angle_cos : float;
  dist_src : float; dist_sd : float
}.

(** What thread [(k, l, m)] adds to its voxel: the new value of [row[k]]. *)
Definition backproject_voxel (g : launch_geometry) (proj : projection)
    (row_k : float) (k l m : Z) : float :=
  let x_k := vol_centered_coordinate k (vol_w g) (voxel_size_x g) in
  let y_l := vol_centered_coordinate l (vol_h g) (voxel_size_y g) in
  let z_m := vol_centered_coordinate m (vol_d g) (voxel_size_z g) in
  let s := fadd (fmul x_k (angle_cos g)) (fmul y_l (angle_sin g)) in
  let t := fadd (fmul (fopp x_k) (angle_sin g)) (fmul y_l (angle_cos g)) in
  let z := z_m in
  let factor := fdiv (dist_sd g) (fsub s (dist_src g)) in
  let h := fmul t factor in
  let v := fmul z factor in
  let det := interpolate h v proj (proj_w g) (proj_h g)
               (pixel_size_x g) (pixel_size_y g)
               (pixel_offset_x g) (pixel_offset_y g) in
  let u := fdiv (dist_src g) (fsub s (dist_src g)) in
  fadd row_k (fmul (fmul half det) (powf u two)).

(** A sub-volume on the device, its voxels addressed by ((k, l), m).  An
    index outside the sub-volume is no cell of the allocation: in pitched
    memory it is the address of another voxel or lies outside; module
    [Pitched] has the addresses. *)
Definition volume := Z * Z * Z -> float.

(** One thread of the kernel [backproject]. *)
Definition backproject (g : launch_geometry) (proj : projection)
    (vol : volume) (thread : Z * Z * Z) : volume :=
  let k := fst (fst thread) in
  let l := snd (fst thread) in
  let m := snd thread in
  if (k <? vol_w g) && (l <? vol_h g) && (m <? vol_d g) then
    Launch.write Launch.eqb3 vol thread
      (backproject_voxel g proj (vol thread) k l m)
  else vol.

(** One thread of [init_volume]. *)
Definition init_volume (width height depth : Z) (vol : volume)
    (thread : Z * Z * Z) : volume :=
  let x := fst (fst thread) in
  let y := snd (fst thread) in
  let z := snd thread in
  if (x <? width) && (y <? height) && (z <? depth) then
    Launch.write Launch.eqb3 vol thread zero
  else vol.

(** A sub-volume created by [create_volumes] and hit by one projection in
    [processor]; [garbage] is the content of the fresh allocation and
    [round_up] the rounding of the launch helper to whole blocks. *)
Definition backproject_one (round_up : Z -> Z) (g : launch_geometry)
    (garbage : volume) (proj : projection) : volume :=
  let grid := Launch.grid3 (round_up (vol_w g)) (round_up (vol_h g))
                (round_up (vol_d g)) in
  let v0 := Launch.run (init_volume (vol_w g) (vol_h g) (vol_d g)) grid garbage in
  Launch.run (backproject g proj) grid v0.

End Kernel.

End Backprojection.

(** ** CUDAWeighting::processor (CUDAWeighting.cu) *)

Module CUDAWeightingStage.
Import Ideal SchedulerGeometry.
Local Open Scope R_scope.

(** The fields of [ddrf::Image] the stage reads. *)
Record Image := {
  data : Z * Z -> R;
  width : Z;
  height : Z;
  device : Z;
  valid : bool
}.

(** [processor]: the image is copied for [device] and the kernel [weight]
    runs on it; [round_up] is the rounding of the launch helper. *)
Definition processor (round_up : Z -> Z) (geo : Geometry) (img : Image) (dev : Z)
  : Image :=
  {| data := Launch.run
               (CUDAWeighting.weight (width img) (height img)
                  (CUDAWeighting.h_min_ geo) (CUDAWeighting.v_min_ geo)
                  (CUDAWeighting.d_dist_ geo)
                  (det_pixel_size_horiz geo) (det_pixel_size_vert geo))
               (Launch.grid2 (round_up (width img)) (round_up (height img)))
               (data img);
     width := width img; height := height img; device := dev;
     valid := valid img |}.

End CUDAWeightingStage.

(** ** The kernels around the FFT (CUDAFilter.cu) *)

Module FilterKernels.
Import Ideal.
Local Open Scope R_scope.

Definition image := Z * Z -> R.

(** [cufftComplex]: the pair (x, y). *)
Definition complex := (R * R)%type.

(** One thread of [convertProjection]: copy and zero-pad to
    [filter_length] columns. *)
Definition convertProjection (input : image) (width height filter_length : Z)
    (output : image) (thread : Z * Z) : image :=
  let x := fst thread in
  let y := snd thread in
  if (x <? filter_length)%Z && (y <? height)%Z then
    Launch.write Launch.eqb2 output (y, x)
      (if (x <? width)%Z then input (y, x) else 0)
  else output.

(** One thread of [convertFiltered]: crop and divide by [filter_length]. *)
Definition convertFiltered (input : image) (width height filter_length : Z)
    (output : image) (thread : Z * Z) : image :=
  let x := fst thread in
  let y := snd thread in
  if (x <? width)%Z && (y <? height)%Z then
    Launch.write Launch.eqb2 output (y, x) (input (y, x) / IZR filter_length)
  else output.

(** One thread of [createK]. *)
Definition createK (filter_length : Z) (tau : R) (data : Z -> complex) (x : Z)
  : Z -> complex :=
  if (x <? filter_length)%Z then
    let result := tau * Rabs (sqrt (powf2 (fst (data x)) + powf2 (snd (data x)))) in
    Launch.write Z.eqb data x (result, result)
  else data.

(** One thread of [applyFilter]. *)
Definition applyFilter (filter : Z -> complex) (filter_length data_height : Z)
    (data : Z * Z -> complex) (thread : Z * Z) : Z * Z -> complex :=
  let x := fst thread in
  let y := snd thread in
  if (x <? filter_length)%Z && (y <? data_height)%Z then
    let a1 := fst (data (y, x)) in
    let b1 := snd (data (y, x)) in
    let k1 := fst (filter x) in
    let k2 := snd (filter x) in
    Launch.write Launch.eqb2 data (y, x) (a1 * k1, b1 * k2)
  else data.

(** The launches of [processor], the cuFFT calls between them left out.
    [converted] is the fresh buffer of [filter_length_] columns. *)
Definition pad (round_up : Z -> Z) (filter_length_ width height : Z)
    (img converted : image) : image :=
  Launch.run (convertProjection img width height filter_length_)
    (Launch.grid2 (round_up filter_length_) (round_up height)) converted.

Definition crop (round_up : Z -> Z) (filter_length_ width height : Z)
    (converted img : image) : image :=
  Launch.run (convertFiltered converted width height filter_length_)
    (Launch.grid2 (round_up filter_length_) (round_up height)) img.

Definition make_K (round_up : Z -> Z) (transformed_filter_length : Z) (tau : R)
    (filter : Z -> complex) : Z -> complex :=
  Launch.run (createK transformed_filter_length tau)
    (range (round_up transformed_filter_length)) filter.

Definition multiply (round_up : Z -> Z) (transformed_filter_length height : Z)
    (filter : Z -> complex) (transformed : Z * Z -> complex) : Z * Z -> complex :=
  Launch.run (applyFilter filter transformed_filter_length height)
    (Launch.grid2 (round_up transformed_filter_length) (round_up height))
    transformed.

End FilterKernels.

(** ** Values a voxel cannot recover from *)

Module FloatClass.
Import Float32.

(** NaN or an infinity. *)
Definition non_finite (x : float) : bool :=
  match x with S754_nan | S754_infinity _ => true | _ => false end.

End FloatClass.

(** ** Feldkamp::merge_volumes (Feldkamp.cu) *)

Module Merge.
Import Scheduler Feldkamp.

Section Slices.
(** One z-slice of a volume: [dim_x * dim_y] values. *)
Context {A : Type}.

(** A sub-volume on a device: its depth and its slices. *)
Record sub_volume := { depth : Z; slices : Z -> A }.

(** [volume_map_[device]] after [create_volumes]: one sub-volume of the
    allocated depth per chunk; [content device c] is what the
    back-projection has left in chunk [c]. *)
Definition volume_map_ (p : plan) (content : Z -> Z -> Z -> A) (device : Z)
  : list sub_volume :=
  map (fun cd => {| depth := snd cd; slices := content device (fst cd) |})
    (combine (range (get_volume_num (volumes_per_device_ (chunks_ p)) device))
       (create_volumes p device)).

(** [cudaMemcpy3D] of [v.depth()] whole slices to the host volume, from
    slice [first_row] on. *)
Definition copy_slices (output : Z -> A) (first_row : Z) (v : sub_volume)
  : Z -> A :=
  fun z =>
    if (first_row <=? z) && (z <? first_row + depth v)
    then slices v (z - first_row) else output z.

(** The body of the loop over the devices; [subvol_counter] is set to zero
    and never changed. *)
Definition merge_device (p : plan) (content : Z -> Z -> Z -> A)
    (output : Z -> A) (i : Z) : Z -> A :=
  let vol_dev_size := dim_z_ p / devices_ p in
  let offset := wrap64 (i * vol_dev_size) in
  let vol_on_device := get_volume_num (volumes_per_device_ (chunks_ p)) i in
  let subvol_counter := 0 in
  fold_left
    (fun out v =>
       let subvol_dev_size := vol_dev_size / vol_on_device in
       let first_row := wrap64 (offset + wrap64 (subvol_counter * subvol_dev_size)) in
       copy_slices out first_row v)
    (volume_map_ p content i) output.

(** [merge_volumes]; [garbage] is the content of the fresh host volume. *)
Definition merge_volumes (p : plan) (content : Z -> Z -> Z -> A)
    (garbage : Z -> A) : Z -> A :=
  fold_left (merge_device p content) (range (devices_ p)) garbage.

End Slices.

End Merge.

(** ** Distribution of the sub-projections (FeldkampScheduler.h) *)

Module Distribution.
Import Scheduler.

(** [std::map<int, std::vector<std::pair<std::uint32_t, std::uint32_t>>>] *)
Definition subproj_map := list (Z * list (Z * Z)).

(** [std::vector(begin + pos, begin + pos + count)] *)
Definition slice {A} (l : list A) (pos count : Z) : list A :=
  firstn (Z.to_nat count) (skipn (Z.to_nat pos) l).

(** One iteration of the loop of [distribute_subprojections]; the state is
    the position of [subprojs_begin] in [subproj_dims_] and [subprojs_].
    An iterator range that leaves [subproj_dims_] has no defined result. *)
Definition distribute_step (vpd : dev_map) (subproj_dims_ : list (Z * Z))
    (st : option (Z * subproj_map)) (i : Z) : option (Z * subproj_map) :=
  match st with
  | None => None
  | Some (subprojs_begin, subprojs_) =>
      let subprojs_count := get_volume_num vpd i in
      if subprojs_begin + subprojs_count <=? Z.of_nat (length subproj_dims_)
      then Some (subprojs_begin + subprojs_count,
                 Assoc.emplace Z.eqb subprojs_ i
                   (slice subproj_dims_ subprojs_begin subprojs_count))
      else None
  end.

(** [distribute_subprojections] *)
Definition distribute_subprojections (devices : Z) (vpd : dev_map)
    (subproj_dims_ : list (Z * Z)) : option subproj_map :=
  option_map snd
    (fold_left (distribute_step vpd subproj_dims_) (range devices) (Some (0, []))).

(** [get_subproj_num] *)
Definition get_subproj_num (vpd : dev_map) (device : Z) : Z :=
  get_volume_num vpd device.

(** [get_subproj_dims]: (0, 0) for an unknown device or index; [index] is a
    [std::size_t]. *)
Definition get_subproj_dims (subprojs_ : subproj_map) (device index : Z) : Z * Z :=
  match Assoc.lookup Z.eqb subprojs_ device with
  | Some vec => nth (Z.to_nat index) vec (0, 0)
  | None => (0, 0)
  end.

(** The inner loop of [calculate_subprojection_offsets]:
    [offset_per_subproj_[i][c] = vec[c].first]; [vec[c]] past the end of
    [vec] has no defined result. *)
Definition subproj_offset_step (i : Z) (vec : list (Z * Z))
    (acc : option offset_map) (c : Z) : option offset_map :=
  match acc with
  | None => None
  | Some offs =>
      match nth_error vec (Z.to_nat c) with
      | Some pr => Some (Assoc.assign pair_eqb offs (i, c) (fst pr))
      | None => None
      end
  end.

Definition subproj_offsets_of_device (vpd : dev_map) (subprojs_ : subproj_map)
    (acc : option offset_map) (i : Z) : option offset_map :=
  match acc with
  | None => None
  | Some offs =>
      let subprojs_count := get_volume_num vpd i in
      match Assoc.lookup Z.eqb subprojs_ i with
      | None => Some offs                    (* count(i) == 0: continue *)
      | Some vec =>
          fold_left (subproj_offset_step i vec) (range subprojs_count) (Some offs)
      end
  end.

(** [calculate_subprojection_offsets] *)
Definition calculate_subprojection_offsets (devices : Z) (vpd : dev_map)
    (subprojs_ : subproj_map) : option offset_map :=
  fold_left (subproj_offsets_of_device vpd subprojs_) (range devices) (Some []).

(** [get_subproj_offset]: 0 for an unknown device or index. *)
Definition get_subproj_offset (offset_per_subproj_ : offset_map)
    (device index : Z) : Z :=
  match Assoc.lookup pair_eqb offset_per_subproj_ (device, index) with
  | Some v => v
  | None => 0
  end.

End Distribution.

(** ** The sub-volume in pitched device memory (Feldkamp.cu) *)

Module Pitched.
Import Float32 Backprojection.

(** The allocation of one sub-volume as 4-byte cells, addressed by their
    byte offset from the base pointer. *)
Definition memory := Z -> float.

(** The address both kernels form for thread [(x, y, z)]:
    [slice_pitch = pitch * height], [slice = vol + z * slice_pitch],
    [row = slice + y * pitch], then [row[x]].  The products are
    [std::size_t] products. *)
Definition offset (pitch height : Z) (thread : Z * Z * Z) : Z :=
  let x := fst (fst thread) in
  let y := snd (fst thread) in
  let z := snd thread in
  let slice_pitch := wrap64 (pitch * height) in
  wrap64 (z * slice_pitch) + wrap64 (y * pitch) + 4 * x.

(** One thread of [init_volume]. *)
Definition init_volume (width height depth pitch : Z) (vol : memory)
    (thread : Z * Z * Z) : memory :=
  let x := fst (fst thread) in
  let y := snd (fst thread) in
  let z := snd thread in
  if (x <? width) && (y <? height) && (z <? depth) then
    Launch.write Z.eqb vol (offset pitch height thread) zero
  else vol.

Section Kernel.
Variable powf : float -> float -> float.

(** One thread of [backproject]: [row[k] += 0.5f * det * powf(u, 2.f)]. *)
Definition backproject (g : launch_geometry) (vol_pitch : Z) (proj : projection)
    (vol : memory) (thread : Z * Z * Z) : memory :=
  let k := fst (fst thread) in
  let l := snd (fst thread) in
  let m := snd thread in
  if (k <? vol_w g) && (l <? vol_h g) && (m <? vol_d g) then
    let a := offset vol_pitch (vol_h g) thread in
    Launch.write Z.eqb vol a (backproject_voxel powf g proj (vol a) k l m)
  else vol.

(** A sub-volume created by [create_volumes] and hit by one projection in
    [processor], in pitched memory. *)
Definition backproject_one (round_up : Z -> Z) (g : launch_geometry)
    (vol_pitch : Z) (garbage : memory) (proj : projection) : memory :=
  let grid := Launch.grid3 (round_up (vol_w g)) (round_up (vol_h g))
                (round_up (vol_d g)) in
  let v0 := Launch.run (init_volume (vol_w g) (vol_h g) (vol_d g) vol_pitch)
              grid garbage in
  Launch.run (backproject g vol_pitch proj) grid v0.

End Kernel.

End Pitched.

(** ** The filter length as the constructor computes it (CUDAFilter.cu) *)

Module FilterLength.
Import Float32.

(** The integer an integral [float] stands for: what [std::pow(2, c)]
    receives from [std::ceil]. *)
Definition integral_value (c : float) : option Z :=
  match c with
  | S754_zero _ => Some 0
  | S754_finite s m e =>
      let sign := if s then -1 else 1 in
      if 0 <=? e then Some (sign * (Zpos m * 2 ^ e))
      else
        let q := Z.shiftr (Zpos m) (- e) in
        if Z.shiftl q (- e) =? Zpos m then Some (sign * q) else None
  | _ => None
  end.

Section Library.
(** [std::log2] on [float], a function of the C library. *)
Variable log2f : float -> float.

(** [filter_length_]:
    [static_cast<std::size_t>(2 * std::pow(2, std::ceil(std::log2(float(n)))))].
    The logarithm and its ceiling are [float]s; the power and the product
    are [double]s and exact for every exponent whose result a
    [std::size_t] holds.  With no column [log2] is minus infinity and the
    power 0.  The cast of NaN, of an infinity or of a value from
    [2 ^ 64] on has no defined result; 0 and the reduction modulo
    [2 ^ 64] stand for it. *)
Definition filter_length_ (det_pixels_column : Z) : Z :=
  match ceilf (log2f (of_Z det_pixels_column)) with
  | S754_infinity true => 0
  | c =>
      match integral_value c with
      | Some k =>
          if k <? -1 then 0 else if k =? -1 then 1 else wrap64 (2 * 2 ^ k)
      | None => 0
      end
  end.

End Library.

End FilterLength.

(** ** The scheduler's volume geometry in binary32 (FeldkampScheduler.h) *)

Module SchedulerFloat.
Import Float32.

(** The fields of [common::Geometry] the scheduler and [Feldkamp] read. *)
Record Geometry := {
  det_pixels_row : Z;
  det_pixels_column : Z;
  det_pixel_size_horiz : float;
  det_pixel_size_vert : float;
  det_offset_horiz : float;
  det_offset_vert : float;
  dist_src : float;
  dist_det : float
}.

Record VolumeGeometry := {
  dim_x : Z;
  dim_y : Z;
  dim_z : Z;
  voxel_size_x : float;
  voxel_size_y : float;
  voxel_size_z : float
}.

(** [std::abs] on [float] *)
Definition fabs : float -> float := SFabs.

(** [static_cast<std::size_t>] of a [float]: truncation.  The cast of a
    negative, too large or NaN value has no defined result; 0 and the
    reduction modulo [2 ^ 64] stand for it. *)
Definition to_size_t (x : float) : Z :=
  match x with
  | S754_finite false m e =>
      wrap64 (if 0 <=? e then Zpos m * 2 ^ e else Z.shiftr (Zpos m) (- e))
  | _ => 0
  end.

Section Library.
(** [std::atan] and [std::sin] on [float], functions of the C library. *)
Variables atanf sinf : float -> float.

(** [dist_sd_], set by the constructor. *)
Definition dist_sd_ (geo : Geometry) : float :=
  fadd (fabs (dist_det geo)) (fabs (dist_src geo)).

(** [calculate_volume_geo], operation by operation. *)
Definition calculate_volume_geo (geo : Geometry) : VolumeGeometry :=
  let N_h := of_Z (det_pixels_row geo) in
  let d_h := det_pixel_size_horiz geo in
  let delta_h := fmul (det_offset_horiz geo) d_h in
  let alpha :=
    atanf (fdiv (fadd (fdiv (fmul N_h d_h) two) (fabs delta_h)) (dist_sd_ geo)) in
  let r := fmul (fabs (dist_src geo)) (sinf alpha) in
  let voxel_size_x :=
    fdiv r (fdiv (fadd (fdiv (fmul N_h d_h) two) (fabs delta_h)) d_h) in
  let voxel_size_y := voxel_size_x in
  let dim_x := to_size_t (fdiv (fmul two r) voxel_size_x) in
  let dim_y := dim_x in
  let voxel_size_z := voxel_size_x in
  let N_v := of_Z (det_pixels_column geo) in
  let d_v := det_pixel_size_vert geo in
  let delta_v := fmul (det_offset_vert geo) d_v in
  let dim_z :=
    to_size_t
      (fmul (fmul (fadd (fdiv (fmul N_v d_v) two) (fabs delta_v))
               (fdiv (fabs (dist_src geo)) (dist_sd_ geo)))
         (fdiv two voxel_size_z)) in
  {| dim_x := dim_x; dim_y := dim_y; dim_z := dim_z;
     voxel_size_x := voxel_size_x; voxel_size_y := voxel_size_y;
     voxel_size_z := voxel_size_z |}.

End Library.

(** Scenario S1 of the specification. *)
Definition s1_geometry : Geometry :=
  {| det_pixels_row := 32; det_pixels_column := 32;
     det_pixel_size_horiz := one; det_pixel_size_vert := one;
     det_offset_horiz := zero; det_offset_vert := zero;
     dist_src := of_Z 100; dist_det := of_Z 100 |}.

(** The arguments [Feldkamp::processor] passes to [backproject] for a
    sub-volume of [depth] slices and a projection of [img_width] x
    [img_height] pixels taken at the angle with the table entries
    [angle_sin] and [angle_cos]; [Feldkamp] keeps
    [dist_sd_ = dist_det + dist_src] of its own. *)
Definition launch_geometry_of (geo : Geometry) (vol_geo : VolumeGeometry)
    (depth img_width img_height : Z) (angle_sin angle_cos : float)
  : Backprojection.launch_geometry :=
  {| Backprojection.vol_w := dim_x vol_geo;
     Backprojection.vol_h := dim_y vol_geo;
     Backprojection.vol_d := depth;
     Backprojection.voxel_size_x := voxel_size_x vol_geo;
     Backprojection.voxel_size_y := voxel_size_y vol_geo;
     Backprojection.voxel_size_z := voxel_size_z vol_geo;
     Backprojection.proj_w := img_width;
     Backprojection.proj_h := img_height;
     Backprojection.pixel_size_x := det_pixel_size_horiz geo;
     Backprojection.pixel_size_y := det_pixel_size_vert geo;
     Backprojection.pixel_offset_x := det_offset_horiz geo;
     Backprojection.pixel_offset_y := det_offset_vert geo;
     Backprojection.angle_sin := angle_sin;
     Backprojection.angle_cos := angle_cos;
     Backprojection.dist_src := dist_src geo;
     Backprojection.dist_sd := fadd (dist_det geo) (dist_src geo) |}.

End SchedulerFloat.

(** ** The volume geometry in binary32 (geometry.cpp: make_volume_geometry) *)

Module GeometryFloat.
Import Float32 Roi.

(** The fields of [detector_geometry] the code under study reads. *)
Record detector_geometry := {
  n_row : Z;
  n_col : Z;
  l_px_row : float;
  l_px_col : float;
  delta_s : float;
  delta_t : float;
  d_so : float;
  d_od : float
}.

(** [static_cast<std::uint32_t>] of a [float]: truncation; for a negative,
    too large or NaN value, which C++ gives no meaning, 0 and the
    reduction modulo [2 ^ 32]. *)
Definition to_uint32 (x : float) : Z :=
  match x with
  | S754_finite false m e =>
      wrap32 (if 0 <=? e then Zpos m * 2 ^ e else Z.shiftr (Zpos m) (- e))
  | _ => 0
  end.

Section Library.
(** [std::atan] and [std::sin] on [float], functions of the C library. *)
Variables atanf sinf : float -> float.

(** [make_volume_geometry], operation by operation. *)
Definition make_volume_geometry (det_geo : detector_geometry)
  : volume_geometry float :=
  let n_row := of_Z (n_row det_geo) in
  let l_px_row := l_px_row det_geo in
  let delta_s := SFabs (fmul (delta_s det_geo) l_px_row) in
  let n_col := of_Z (n_col det_geo) in
  let l_px_col := l_px_col det_geo in
  let delta_t := SFabs (fmul (delta_t det_geo) l_px_col) in
  let d_so := SFabs (d_so det_geo) in
  let d_sd := fadd (SFabs (d_od det_geo)) d_so in
  let alpha := atanf (fdiv (fadd (fdiv (fmul n_row l_px_row) two) delta_s) d_sd) in
  let r := fmul d_so (sinf alpha) in
  let l_vx_x := fdiv r (fdiv (fadd (fdiv (fmul n_row l_px_row) two) delta_s) l_px_row) in
  let l_vx_y := l_vx_x in
  let dim_x := to_uint32 (fdiv (fmul two r) l_vx_x) in
  let dim_y := dim_x in
  let l_vx_z := l_vx_x in
  let dim_z :=
    to_uint32
      (fmul (fmul (fadd (fdiv (fmul n_col l_px_col) two) delta_t) (fdiv d_so d_sd))
         (fdiv two l_vx_z)) in
  {| dim_x := dim_x; dim_y := dim_y; dim_z := dim_z;
     l_vx_x := l_vx_x; l_vx_y := l_vx_y; l_vx_z := l_vx_z |}.

End Library.

(** Scenario S1 of the specification. *)
Definition s1_geometry : detector_geometry :=
  {| n_row := 32; n_col := 32; l_px_row := one; l_px_col := one;
     delta_s := zero; delta_t := zero; d_so := of_Z 100; d_od := of_Z 100 |}.

End GeometryFloat.

(** ** Checking a volume against an all-zero projection *)

Module ZeroVolume.
Import Float32 FloatClass Backprojection.

(** Equality of two [float]s as data. *)
Definition float_eqb (x y : float) : bool :=
  match x, y with
  | S754_zero a, S754_zero b => Bool.eqb a b
  | S754_infinity a, S754_infinity b => Bool.eqb a b
  | S754_nan, S754_nan => true
  | S754_finite a m e, S754_finite b m' e' =>
      Bool.eqb a b && (Pos.eqb m m') && (e =? e')
  | _, _ => false
  end.

(** The rotated coordinates [s] and [t] of [backproject]. *)
Definition s_of (g : launch_geometry) (k l : Z) : float :=
  let x_k := vol_centered_coordinate k (vol_w g) (voxel_size_x g) in
  let y_l := vol_centered_coordinate l (vol_h g) (voxel_size_y g) in
  fadd (fmul x_k (angle_cos g)) (fmul y_l (angle_sin g)).

Definition t_of (g : launch_geometry) (k l : Z) : float :=
  let x_k := vol_centered_coordinate k (vol_w g) (voxel_size_x g) in
  let y_l := vol_centered_coordinate l (vol_h g) (voxel_size_y g) in
  fadd (fmul (fopp x_k) (angle_sin g)) (fmul y_l (angle_cos g)).

(** The two weights [interpolate] forms along one detector axis:
    [(w_0, w_1)]. *)
Definition axis_weights (coord : float) (dim : Z) (size offset : float)
  : float * float :=
  let real := proj_real_coordinate coord dim size offset in
  let j0 := floorf real in
  let j1 := ceilf real in
  let w0 := fdiv (fsub real j0) (fsub j1 j0) in
  (w0, fsub one w0).

(** [interpolate] with all four corner values [+0.0f]. *)
Definition weighted_zero (wh wv : float * float) : float :=
  fadd (fadd (fadd (fmul (fmul (snd wh) (snd wv)) zero)
                (fmul (fmul (snd wh) (fst wv)) zero))
          (fmul (fmul (fst wh) (snd wv)) zero))
    (fmul (fmul (fst wh) (fst wv)) zero).

Definition products_finite (wh wv : float * float) : bool :=
  negb (non_finite (fmul (snd wh) (snd wv)))
  && negb (non_finite (fmul (snd wh) (fst wv)))
  && negb (non_finite (fmul (fst wh) (snd wv)))
  && negb (non_finite (fmul (fst wh) (fst wv))).

(** The voxels [(k, _, _)]: [s] does not depend on [l], [u] lies in
    [-2, 2], and all products of weights are finite. *)
Definition plane_ok (g : launch_geometry) (k : Z) : bool :=
  let s_k := s_of g k 0 in
  let factor := fdiv (dist_sd g) (fsub s_k (dist_src g)) in
  let u := fdiv (dist_src g) (fsub s_k (dist_src g)) in
  let wh :=
    map (fun l => axis_weights (fmul (t_of g k l) factor) (proj_w g)
                    (pixel_size_x g) (pixel_offset_x g))
      (range (vol_h g)) in
  let wv :=
    map (fun m => axis_weights
                    (fmul (vol_centered_coordinate m (vol_d g) (voxel_size_z g))
                       factor)
                    (proj_h g) (pixel_size_y g) (pixel_offset_y g))
      (range (vol_d g)) in
  forallb (fun l => float_eqb (s_of g k l) s_k) (range (vol_h g))
  && (fleb (of_Z (-2)) u && fleb u two)
  && forallb (fun p => products_finite (fst p) (snd p)) (list_prod wh wv).

Definition volume_ok (g : launch_geometry) : bool :=
  forallb (plane_ok g) (range (vol_w g)).

(** Scenario S1 for the value [sin_alpha] the library delivers for
    [sin(atan(16 / 200))]: both computations of the geometry give
    32 x 32 x 32, and the volume passes the check. *)
Definition s1_ok (sin_alpha : float) : bool :=
  let vol_geo :=
    SchedulerFloat.calculate_volume_geo (fun x => x) (fun _ => sin_alpha)
      SchedulerFloat.s1_geometry in
  let paris :=
    GeometryFloat.make_volume_geometry (fun x => x) (fun _ => sin_alpha)
      GeometryFloat.s1_geometry in
  (Roi.dim_x paris =? 32) && (Roi.dim_y paris =? 32) && (Roi.dim_z paris =? 32)
  && (SchedulerFloat.dim_x vol_geo =? 32) && (SchedulerFloat.dim_y vol_geo =? 32)
  && (SchedulerFloat.dim_z vol_geo =? 32)
  && volume_ok
       (SchedulerFloat.launch_geometry_of SchedulerFloat.s1_geometry vol_geo
          (SchedulerFloat.dim_z vol_geo) 32 32 zero one).

End ZeroVolume.

(** * Part II: properties *)

(** ** Machine integers and loop ranges *)

(** Closes [b = true]-shaped side conditions that are conjunctions of
    integer comparisons. *)
Ltac bounds_hold :=
  symmetry; rewrite ?andb_true_iff, ?Z.leb_le, ?Z.ltb_lt, ?Nat.ltb_lt; lia.

Lemma wrap32_small x : is_u32 x -> wrap32 x = x.
Proof. unfold is_u32, wrap32. intros H. now apply Z.mod_small. Qed.

Lemma wrap64_small x : is_u64 x -> wrap64 x = x.
Proof. unfold is_u64, wrap64. intros H. now apply Z.mod_small. Qed.

Lemma wrap32_range x : is_u32 (wrap32 x).
Proof. unfold is_u32, wrap32. apply Z.mod_pos_bound. lia. Qed.

Lemma wrap64_range x : is_u64 (wrap64 x).
Proof. unfold is_u64, wrap64. apply Z.mod_pos_bound. lia. Qed.

Lemma wrap32_mul_idemp a b : wrap32 (wrap32 a * b) = wrap32 (a * b).
Proof. unfold wrap32. apply Z.mul_mod_idemp_l. lia. Qed.

Lemma range_length n : length (range n) = Z.to_nat n.
Proof. unfold range. now rewrite length_map, length_seq. Qed.

Lemma in_range n i : In i (range n) <-> 0 <= i < n.
Proof.
  unfold range. rewrite in_map_iff. split.
  - intros (k & <- & Hk). apply in_seq in Hk. lia.
  - intros H. exists (Z.to_nat i). split; [lia|]. apply in_seq. lia.
Qed.

Lemma range_succ n : 0 <= n -> range (n + 1) = range n ++ [n].
Proof.
  intros H. unfold range.
  replace (Z.to_nat (n + 1)) with (S (Z.to_nat n)) by lia.
  rewrite seq_S, map_app. simpl. now rewrite Z2Nat.id.
Qed.

Lemma range_nonpos n : n <= 0 -> range n = [].
Proof. intros H. unfold range. now replace (Z.to_nat n) with O by lia. Qed.

(** ** The halving loop *)

Section Halving.
Import Scheduler.

(** What a finished run of the halving loop has done: [k] halvings, each
    taken because the chunk still did not fit, and a final chunk that
    fits. *)
Lemma calcVolumeSizePerDev_inv fuel : forall vs cnt mem r,
  is_u32 cnt ->
  calcVolumeSizePerDev fuel vs cnt mem = Some r ->
  exists k, 0 <= k /\
    r = (vs / 2 ^ k, wrap32 (cnt * 2 ^ k)) /\
    vs / 2 ^ k < mem /\
    (forall j, 0 <= j < k -> mem <= vs / 2 ^ j).
Proof.
  induction fuel as [|fuel IH]; intros vs cnt mem r Hc H; simpl in H.
  - discriminate.
  - destruct (mem <=? vs) eqn:E.
    + apply IH in H; [|apply wrap32_range].
      destruct H as (k & Hk & -> & Hlt & Hge).
      exists (k + 1). split; [lia|].
      assert (Hdiv : forall j, 0 <= j -> vs / 2 / 2 ^ j = vs / 2 ^ (j + 1)).
      { intros j Hj. rewrite Z.pow_add_r by lia.
        rewrite Z.div_div by lia. f_equal. lia. }
      split; [|split].
      * rewrite Hdiv by lia. f_equal.
        rewrite wrap32_mul_idemp. f_equal. rewrite Z.pow_add_r by lia. lia.
      * now rewrite <- Hdiv.
      * intros j Hj. destruct (Z.eq_dec j 0) as [->|Hn].
        -- rewrite Z.pow_0_r, Z.div_1_r. now apply Z.leb_le.
        -- replace j with ((j - 1) + 1) by lia. rewrite <- Hdiv by lia.
           apply Hge. lia.
    + injection H as <-. exists 0. rewrite Z.pow_0_r, Z.div_1_r, Z.mul_1_r.
      split; [lia|]. split; [|split].
      * now rewrite wrap32_small.
      * now apply Z.leb_gt.
      * intros j Hj. lia.
Qed.

(** A device with memory stops the loop: [n + 1] units of fuel are enough
    for a chunk size below [2 ^ n]. *)
Lemma calcVolumeSizePerDev_total (n : nat) : forall vs cnt mem,
  0 < mem -> 0 <= vs < 2 ^ Z.of_nat n ->
  exists r, calcVolumeSizePerDev (S n) vs cnt mem = Some r.
Proof.
  induction n as [|n IH]; intros vs cnt mem Hm Hv.
  - simpl in *. replace vs with 0 by lia.
    destruct (mem <=? 0) eqn:E; [apply Z.leb_le in E; lia|]. eauto.
  - cbn [calcVolumeSizePerDev]. destruct (mem <=? vs) eqn:E; [|eauto].
    apply IH; [assumption|].
    rewrite Nat2Z.inj_succ, Z.pow_succ_r in Hv by lia.
    split; [apply Z.div_pos; lia|]. apply Z.div_lt_upper_bound; lia.
Qed.

(** More fuel does not change a result. *)
Lemma calcVolumeSizePerDev_fuel f : forall g vs cnt mem r,
  (f <= g)%nat ->
  calcVolumeSizePerDev f vs cnt mem = Some r ->
  calcVolumeSizePerDev g vs cnt mem = Some r.
Proof.
  induction f as [|f IH]; intros g vs cnt mem r Hle H; simpl in H.
  - discriminate.
  - destruct g as [|g]; [lia|]. simpl.
    destruct (mem <=? vs); [|assumption].
    apply IH; [lia|assumption].
Qed.

(** A device that reports no memory keeps the loop running for ever. *)
Lemma calcVolumeSizePerDev_no_memory fuel : forall vs cnt mem,
  mem <= 0 -> 0 <= vs -> calcVolumeSizePerDev fuel vs cnt mem = None.
Proof.
  induction fuel as [|fuel IH]; intros vs cnt mem Hm Hv; simpl.
  - reflexivity.
  - destruct (mem <=? vs) eqn:E; [|apply Z.leb_gt in E; lia].
    apply IH; [assumption|]. apply Z.div_pos; lia.
Qed.

(** The 32-bit chunk counter holds [2 ^ k] as long as [k < 32]. *)
Lemma halvings_bounded vs mem k :
  0 < mem -> 0 <= k -> vs < 2 ^ 31 * mem ->
  (forall j, 0 <= j < k -> mem <= vs / 2 ^ j) ->
  wrap32 (2 ^ k) = 2 ^ k.
Proof.
  intros Hm Hk Hv Hge. apply wrap32_small. unfold is_u32.
  split; [apply Z.pow_nonneg; lia|].
  destruct (Z.eq_dec k 0) as [->|Hn]; [simpl; lia|].
  assert (Hj : mem <= vs / 2 ^ (k - 1)) by (apply Hge; lia).
  assert (Hp : 0 < 2 ^ (k - 1)) by (apply Z.pow_pos_nonneg; lia).
  assert (Hq : mem * 2 ^ (k - 1) <= vs).
  { pose proof (Z.mul_div_le vs (2 ^ (k - 1)) Hp). nia. }
  assert (Hlt : 2 ^ (k - 1) < 2 ^ 31) by nia.
  apply Z.pow_lt_mono_r_iff in Hlt; [|lia|lia].
  replace k with ((k - 1) + 1) by lia. rewrite Z.pow_add_r by lia.
  assert (2 ^ (k - 1) <= 2 ^ 30) by (apply Z.pow_le_mono_r; lia).
  lia.
Qed.

End Halving.

(** ** Chunk counts per device *)

Section ChunkCounts.
Import Scheduler.

(** C7 (as amended).  For a device with memory the halving loop stops: from
    the initial chunk size [bytes_per_volume / n_devices] it performs some
    [k] halvings, every one of them taken while the chunk was at least the
    device memory, and ends with a chunk strictly below the device memory.
    The 32-bit chunk count is [2 ^ k] reduced modulo [2 ^ 32]; it is the power
    of two [2 ^ k] itself whenever the initial chunk is below
    [2 ^ 31 * dev_mem]. *)
Theorem halving_loop_terminates (fuel : nat) (bytes_per_volume n_devices dev_mem : Z) :
  is_u64 bytes_per_volume -> 0 < n_devices -> 0 < dev_mem ->
  (enough <= fuel)%nat ->
  let chunk := bytes_per_volume / n_devices in
  exists k, 0 <= k /\
    calcVolumeSizePerDev fuel chunk 1 dev_mem
      = Some (chunk / 2 ^ k, wrap32 (2 ^ k)) /\
    chunk / 2 ^ k < dev_mem /\
    (forall j, 0 <= j < k -> dev_mem <= chunk / 2 ^ j) /\
    (chunk < 2 ^ 31 * dev_mem -> wrap32 (2 ^ k) = 2 ^ k).
Proof.
  intros Hb Hn Hm Hf chunk.
  assert (Hc : 0 <= chunk < 2 ^ Z.of_nat 64).
  { unfold chunk, is_u64 in *. change (Z.of_nat 64) with 64.
    split; [apply Z.div_pos; lia|].
    apply Z.le_lt_trans with bytes_per_volume; [|lia].
    apply Z.div_le_upper_bound; [lia|]. nia. }
  destruct (calcVolumeSizePerDev_total 64 chunk 1 dev_mem Hm Hc) as [r Hr].
  apply calcVolumeSizePerDev_fuel with (g := fuel) in Hr; [|exact Hf].
  assert (H1 : is_u32 1) by (unfold is_u32; lia).
  destruct (calcVolumeSizePerDev_inv _ _ _ _ _ H1 Hr)
    as (k & Hk & -> & Hlt & Hge).
  exists k. rewrite Z.mul_1_l in Hr.
  split; [exact Hk|]. split; [exact Hr|]. split; [exact Hlt|].
  split; [exact Hge|].
  intros Hsmall. now apply (halvings_bounded chunk dev_mem k).
Qed.

Lemma halving_loop_terminates_witness :
  exists k, 0 <= k /\
    calcVolumeSizePerDev enough (16384 / 1) 1 4095
      = Some (16384 / 1 / 2 ^ k, wrap32 (2 ^ k)) /\
    16384 / 1 / 2 ^ k < 4095 /\
    (forall j, 0 <= j < k -> 4095 <= 16384 / 1 / 2 ^ j) /\
    (16384 / 1 < 2 ^ 31 * 4095 -> wrap32 (2 ^ k) = 2 ^ k).
Proof.
  apply (halving_loop_terminates enough 16384 1 4095).
  - unfold is_u64. lia.
  - lia.
  - lia.
  - apply le_n.
Defined.

(** C7 as stated fails: a 2^62-byte volume on one device with 1 GiB of memory
    needs 33 halvings, and the 32-bit chunk count, doubled 33 times, is 0,
    which is no power of two. *)
Lemma chunk_count_wraps_to_zero :
  calcVolumeSizePerDev enough (2 ^ 62 / 1) 1 (2 ^ 30) = Some (2 ^ 29, 0) /\
  ~ (exists k, 0 <= k /\ 0 = 2 ^ k).
Proof.
  split.
  - vm_compute. reflexivity.
  - intros (k & Hk & H). pose proof (Z.pow_pos_nonneg 2 k). lia.
Qed.

End ChunkCounts.

(** ** Association lists *)

Section AssocFacts.
Context {K V : Type}.
Variable eqb : K -> K -> bool.
Hypothesis eqb_spec : forall a b, eqb a b = true <-> a = b.

Lemma lookup_app (m1 m2 : list (K * V)) k :
  Assoc.lookup eqb (m1 ++ m2) k =
  match Assoc.lookup eqb m1 k with
  | Some v => Some v
  | None => Assoc.lookup eqb m2 k
  end.
Proof.
  induction m1 as [|[k' v'] m1 IH]; simpl; [reflexivity|].
  destruct (eqb k' k); [reflexivity|exact IH].
Qed.

Lemma lookup_assign (m : list (K * V)) k v k' :
  Assoc.lookup eqb (Assoc.assign eqb m k v) k' =
  if eqb k k' then Some v else Assoc.lookup eqb m k'.
Proof.
  induction m as [|[k0 v0] m IH]; simpl.
  - reflexivity.
  - destruct (eqb k0 k) eqn:E0; simpl.
    + apply eqb_spec in E0. subst k0. destruct (eqb k k'); reflexivity.
    + destruct (eqb k0 k') eqn:E1.
      * apply eqb_spec in E1. subst k0.
        destruct (eqb k k') eqn:E2; [|reflexivity].
        apply eqb_spec in E2. subst k'.
        assert (Hkk : eqb k k = true) by now apply eqb_spec.
        congruence.
      * exact IH.
Qed.

End AssocFacts.

Lemma pair_eqb_spec a b : Scheduler.pair_eqb a b = true <-> a = b.
Proof.
  unfold Scheduler.pair_eqb. destruct a as [a1 a2], b as [b1 b2]. simpl.
  rewrite andb_true_iff, !Z.eqb_eq. split.
  - intros [-> ->]. reflexivity.
  - intros H. injection H as -> ->. auto.
Qed.

(** ** The loop over the devices *)

Section DeviceLoop.
Import Scheduler.

(** The devices numbered from [i] on, paired with their chunk counts. *)
Lemma lookup_numbered (counts : list Z) : forall i d,
  Assoc.lookup Z.eqb (combine (map (Z.add i) (range (Z.of_nat (length counts)))) counts) d
  = if (i <=? d) && (d <? i + Z.of_nat (length counts))
    then nth_error counts (Z.to_nat (d - i)) else None.
Proof.
  induction counts as [|c counts IH]; intros i d.
  - simpl. destruct ((i <=? d) && (d <? i + 0)) eqn:E; [|reflexivity].
    apply andb_true_iff in E. rewrite Z.leb_le, Z.ltb_lt in E. lia.
  - unfold range. rewrite Nat2Z.id. simpl length. simpl seq. simpl map. simpl combine.
    simpl Assoc.lookup. rewrite Z.add_0_r.
    destruct (i =? d) eqn:E.
    + apply Z.eqb_eq in E. subst d.
      replace ((i <=? i) && (i <? i + Z.of_nat (S (length counts)))) with true
        by bounds_hold.
      now rewrite Z.sub_diag.
    + apply Z.eqb_neq in E.
      specialize (IH (i + 1) d). unfold range in IH. rewrite Nat2Z.id in IH.
      rewrite <- seq_shift, !map_map. rewrite !map_map in IH.
      rewrite (map_ext (fun x => i + Z.of_nat (S x)) (fun x => i + 1 + Z.of_nat x))
        by (intros; lia).
      rewrite IH.
      destruct (Z.leb_spec (i + 1) d), (Z.leb_spec i d),
        (Z.ltb_spec d (i + 1 + Z.of_nat (length counts))),
        (Z.ltb_spec d (i + Z.of_nat (S (length counts)))); simpl; try lia; try reflexivity.
      replace (Z.to_nat (d - i)) with (S (Z.to_nat (d - (i + 1)))) by lia.
      reflexivity.
Qed.

Lemma device_loop_inv fuel : forall mems st i st',
  device_loop fuel st i mems = Some st' ->
  is_u32 (volume_count_ st) ->
  (forall d, i <= d -> Assoc.lookup Z.eqb (volumes_per_device_ st) d = None) ->
  exists counts,
    Forall2 (fun mem cnt => exists sz,
               calcVolumeSizePerDev fuel (volume_bytes_ st) 1 mem = Some (sz, cnt))
      mems counts /\
    volume_bytes_ st' = volume_bytes_ st /\
    volumes_per_device_ st' =
      volumes_per_device_ st
      ++ combine (map (Z.add i) (range (Z.of_nat (length counts)))) counts /\
    volume_count_ st' = wrap32 (volume_count_ st + sumZ counts).
Proof.
  induction mems as [|mem mems IH]; intros st i st' H Hu Hfresh; simpl in H.
  - injection H as <-. exists []. simpl. rewrite app_nil_r, Z.add_0_r.
    split; [constructor|]. split; [reflexivity|]. split; [reflexivity|].
    symmetry. now apply wrap32_small.
  - unfold device_step in H.
    destruct (calcVolumeSizePerDev fuel (volume_bytes_ st) 1 mem)
      as [[sz cnt]|] eqn:Hcalc; [|discriminate].
    apply IH in H; simpl.
    + destruct H as (counts & HF & Hvb & Hvpd & Hvc). simpl in *.
      exists (cnt :: counts). split; [constructor; eauto|].
      split; [exact Hvb|]. split.
      * rewrite Hvpd. unfold Assoc.emplace. rewrite Hfresh by lia.
        rewrite <- app_assoc. f_equal. simpl length.
        unfold range. rewrite !Nat2Z.id. simpl. rewrite Z.add_0_r. f_equal.
        f_equal. rewrite <- seq_shift, !map_map. apply map_ext. intros; lia.
      * rewrite Hvc. unfold wrap32. simpl sumZ.
        rewrite Z.add_mod_idemp_l by lia. f_equal. lia.
    + apply wrap32_range.
    + intros d Hd. unfold Assoc.emplace. rewrite Hfresh by lia.
      rewrite (lookup_app Z.eqb). rewrite Hfresh by lia. simpl.
      destruct (i =? d) eqn:E; [apply Z.eqb_eq in E; lia|reflexivity].
Qed.

(** With memory on every device the loop over the devices comes to an
    end. *)
Lemma device_loop_total fuel : forall mems st i,
  (enough <= fuel)%nat -> is_u64 (volume_bytes_ st) ->
  Forall (fun mem => 0 < mem) mems ->
  exists st', device_loop fuel st i mems = Some st'.
Proof.
  induction mems as [|mem mems IH]; intros st i Hf Hvb Hmems; simpl.
  - eauto.
  - inversion Hmems as [|? ? Hmem Hrest]; subst.
    unfold device_step.
    destruct (calcVolumeSizePerDev_total 64 (volume_bytes_ st) 1 mem Hmem Hvb)
      as [[sz cnt] Hr].
    apply calcVolumeSizePerDev_fuel with (g := fuel) in Hr; [|exact Hf].
    rewrite Hr. apply IH; assumption.
Qed.

End DeviceLoop.

(** ** Sub-volume offsets *)

Section Offsets.
Import Scheduler.

Lemma calculate_volumes_per_device_inv fuel vb mems st :
  calculate_volumes_per_device fuel vb mems = Some st ->
  0 < Z.of_nat (length mems) /\
  exists counts,
    Forall2 (fun mem cnt => exists sz,
               calcVolumeSizePerDev fuel (vb / Z.of_nat (length mems)) 1 mem
               = Some (sz, cnt))
      mems counts /\
    volumes_per_device_ st = combine (range (Z.of_nat (length mems))) counts /\
    volume_count_ st = wrap32 (sumZ counts).
Proof.
  unfold calculate_volumes_per_device. cbv zeta. intros H.
  destruct (Z.of_nat (length mems) =? 0) eqn:E; [discriminate|].
  apply Z.eqb_neq in E. split; [lia|].
  apply device_loop_inv in H; simpl; [|unfold is_u32; lia|reflexivity].
  destruct H as (counts & HF & _ & Hvpd & Hvc). simpl in *.
  exists counts. split; [exact HF|]. split; [|exact Hvc].
  rewrite Hvpd. f_equal.
  rewrite (Forall2_length HF). rewrite map_ext with (g := fun x => x) by reflexivity.
  apply map_id.
Qed.

Lemma get_volume_num_numbered (counts : list Z) d :
  0 <= d < Z.of_nat (length counts) ->
  get_volume_num (combine (range (Z.of_nat (length counts))) counts) d
  = nth (Z.to_nat d) counts 0.
Proof.
  intros Hd. unfold get_volume_num.
  pose proof (lookup_numbered counts 0 d) as H.
  rewrite map_ext with (g := fun x => x) in H by reflexivity.
  rewrite map_id in H. rewrite H.
  replace ((0 <=? d) && (d <? 0 + Z.of_nat (length counts))) with true
    by bounds_hold.
  rewrite Z.sub_0_r.
  destruct (nth_error counts (Z.to_nat d)) eqn:E.
  - symmetry. now apply nth_error_nth.
  - apply nth_error_None in E. lia.
Qed.

(** The inner loop over the chunks of device [i] writes the keys [(i, c)]
    and nothing else. *)
Lemma chunk_loop_lookup i (f : Z -> Z) (l : list Z) : forall offs i' c',
  Assoc.lookup pair_eqb
    (fold_left (fun o c => Assoc.assign pair_eqb o (i, c) (f c)) l offs) (i', c')
  = if (i =? i') && existsb (Z.eqb c') l then Some (f c')
    else Assoc.lookup pair_eqb offs (i', c').
Proof.
  induction l as [|c l IH]; intros offs i' c'; simpl.
  - now rewrite andb_false_r.
  - rewrite IH, (lookup_assign pair_eqb pair_eqb_spec).
    unfold pair_eqb at 1. simpl.
    destruct (i =? i') eqn:Ei; simpl; [|reflexivity].
    destruct (existsb (Z.eqb c') l); [now rewrite orb_true_r|].
    rewrite orb_false_r, (Z.eqb_sym c' c).
    destruct (c =? c') eqn:Ec; [|reflexivity].
    apply Z.eqb_eq in Ec. now subst.
Qed.

Lemma existsb_range c n : existsb (Z.eqb c) (range n) = (0 <=? c) && (c <? n).
Proof.
  destruct (existsb (Z.eqb c) (range n)) eqn:E; symmetry.
  - apply existsb_exists in E. destruct E as (x & Hx & Hc).
    apply Z.eqb_eq in Hc. subst x. apply in_range in Hx.
    apply andb_true_iff. rewrite Z.leb_le, Z.ltb_lt. lia.
  - apply not_true_is_false. intros H. apply andb_true_iff in H.
    rewrite Z.leb_le, Z.ltb_lt in H.
    assert (Hex : existsb (Z.eqb c) (range n) = true).
    { apply existsb_exists. exists c. split; [now apply in_range|apply Z.eqb_refl]. }
    congruence.
Qed.

Lemma offsets_fold_none dim_z N vpd l :
  fold_left (offsets_of_device dim_z N vpd) l None = None.
Proof. induction l; simpl; auto. Qed.

(** The loop over the devices: every chunk of every listed device gets the
    offset computed by [chunk_offset]; other keys are left alone.  A listed
    device means a division by the chunk total, which is then not zero. *)
Lemma offsets_fold dim_z N vpd (l : list Z) : forall offs offs',
  fold_left (offsets_of_device dim_z N vpd) l (Some offs) = Some offs' ->
  forall i c,
    (In i l -> forall cnt, Assoc.lookup Z.eqb vpd i = Some cnt ->
       N <> 0 /\
       (0 <= c < cnt ->
        Assoc.lookup pair_eqb offs' (i, c) = Some (chunk_offset i cnt (dim_z / N) c))) /\
    (~ In i l -> Assoc.lookup pair_eqb offs' (i, c) = Assoc.lookup pair_eqb offs (i, c)).
Proof.
  induction l as [|a l IH]; intros offs offs' H i c; cbn [fold_left] in H.
  - injection H as <-. split; [intros []|reflexivity].
  - destruct (offsets_of_device dim_z N vpd (Some offs) a) as [offs1|] eqn:E1;
      [|now rewrite offsets_fold_none in H].
    destruct (IH _ _ H i c) as [IHin IHout].
    assert (Hstep : forall cnt, a = i -> Assoc.lookup Z.eqb vpd i = Some cnt ->
              N <> 0 /\
              (0 <= c < cnt ->
               Assoc.lookup pair_eqb offs1 (i, c)
               = Some (chunk_offset i cnt (dim_z / N) c))).
    { intros cnt -> Hcnt. unfold offsets_of_device in E1. rewrite Hcnt in E1.
      destruct (N =? 0) eqn:EN; [discriminate|]. apply Z.eqb_neq in EN.
      split; [exact EN|]. intros Hc. injection E1 as <-.
      rewrite chunk_loop_lookup, Z.eqb_refl, existsb_range. simpl.
      replace ((0 <=? c) && (c <? cnt)) with true; [reflexivity|].
      symmetry. apply andb_true_iff. rewrite Z.leb_le, Z.ltb_lt. lia. }
    split.
    + intros [Ha|Hin] cnt Hcnt.
      * destruct (in_dec Z.eq_dec i l) as [Hil|Hnil]; [now apply IHin|].
        rewrite (IHout Hnil). now apply Hstep.
      * now apply IHin.
    + intros Hnin. simpl in Hnin. rewrite IHout by tauto.
      unfold offsets_of_device in E1.
      destruct (Assoc.lookup Z.eqb vpd a); [|now injection E1 as <-].
      destruct (N =? 0); [discriminate|]. injection E1 as <-.
      rewrite chunk_loop_lookup.
      destruct (a =? i) eqn:E; [apply Z.eqb_eq in E; tauto|reflexivity].
Qed.

End Offsets.

(** ** Plans whose devices all hold the same number of chunks *)

Section UniformPlans.
Import Scheduler Feldkamp.

Lemma sumZ_constant (l : list Z) c :
  (forall k, (k < length l)%nat -> nth k l 0 = c) ->
  sumZ l = Z.of_nat (length l) * c.
Proof.
  induction l as [|x l IH]; intros H.
  - reflexivity.
  - simpl sumZ. rewrite IH by (intros k Hk; apply (H (S k)); simpl; lia).
    rewrite (H O ltac:(simpl; lia) : x = c). simpl length. lia.
Qed.

Lemma combine_map_same {A B C} (f : A -> B) (g : A -> C) (l : list A) :
  combine (map f l) (map g l) = map (fun x => (f x, g x)) l.
Proof. induction l; simpl; congruence. Qed.

Lemma range_add a b :
  0 <= a -> 0 <= b -> range (a + b) = range a ++ map (Z.add a) (range b).
Proof.
  intros Ha. revert b. apply natlike_ind.
  - rewrite Z.add_0_r. simpl. now rewrite app_nil_r.
  - intros b Hb IH. unfold Z.succ. rewrite Z.add_assoc.
    rewrite !range_succ by lia. rewrite IH, map_app, app_assoc. reflexivity.
Qed.

Lemma flat_map_ext_in {A B} (f g : A -> list B) (l : list A) :
  (forall a, In a l -> f a = g a) -> flat_map f l = flat_map g l.
Proof.
  induction l as [|x l IH]; intros H; simpl; [reflexivity|].
  rewrite H by (now left). rewrite IH; [reflexivity|].
  intros a Ha. apply H. now right.
Qed.

(** [D] consecutive blocks of [c] indices are the indices below [D * c]. *)
Lemma flat_map_blocks {A} (g : Z -> A) c D :
  0 <= c -> 0 <= D ->
  flat_map (fun i => map (fun c' => g (i * c + c')) (range c)) (range D)
  = map g (range (D * c)).
Proof.
  intros Hc. revert D. apply natlike_ind.
  - reflexivity.
  - intros D HD IH. unfold Z.succ. rewrite range_succ by lia.
    rewrite flat_map_app, IH. simpl. rewrite app_nil_r.
    replace ((D + 1) * c) with (D * c + c) by lia.
    rewrite range_add by nia. rewrite map_app, map_map. reflexivity.
Qed.

Lemma chunk_offset_exact i c e c' D dz :
  0 <= i < D -> 0 <= c' < c -> D * c < 2 ^ 32 -> 0 <= e -> D * c * e <= dz ->
  dz < 2 ^ 64 ->
  chunk_offset i c e c' = (i * c + c') * e.
Proof.
  intros Hi Hc HN He Hle Hdz. unfold chunk_offset.
  assert (H1 : 0 <= i * c) by nia.
  assert (H2 : i * c + c' < D * c) by nia.
  assert (H3 : (i * c + c') * e <= D * c * e) by nia.
  rewrite (wrap32_small (i * c)) by (unfold is_u32; lia).
  rewrite (wrap64_small (i * c * e)) by (unfold is_u64; nia).
  rewrite (wrap64_small (c' * e)) by (unfold is_u64; nia).
  rewrite wrap64_small by (unfold is_u64; nia). lia.
Qed.

(** With the same chunk count [c] on each of the [D] devices and a chunk
    total that fits 32 bits, sub-volume [n] of the plan starts at
    [n * (dim_z / N)] and is [dim_z / N] slices deep, [N = D * c]. *)
Lemma uniform_plan fuel dx dy dz mems p c :
  schedule fuel dx dy dz mems = Some p ->
  is_u64 dz ->
  (forall d, 0 <= d < devices_ p ->
     get_volume_num (volumes_per_device_ (chunks_ p)) d = c) ->
  devices_ p * c < 2 ^ 32 ->
  0 < devices_ p /\ 0 < c /\ dim_z_ p = dz /\
  volume_count_ (chunks_ p) = devices_ p * c /\
  sub_volumes p =
    map (fun n => (n * (dz / (devices_ p * c)), dz / (devices_ p * c)))
      (range (devices_ p * c)).
Proof.
  unfold schedule. cbv zeta. intros H Hdz Huni HN.
  destruct (calculate_volumes_per_device fuel (calculate_volume_bytes dx dy dz) mems)
    as [st|] eqn:Est; [|discriminate].
  destruct (calculate_subvolume_offsets (Z.of_nat (length mems)) dz
              (volume_count_ st) (volumes_per_device_ st)) as [offs|] eqn:Eoffs;
    [|discriminate].
  injection H as <-.
  cbn [devices_ chunks_ dim_z_ offset_per_volume_] in *.
  set (D := Z.of_nat (length mems)) in *.
  destruct (calculate_volumes_per_device_inv _ _ _ _ Est)
    as (HD & counts & HF & Hvpd & Hvc). fold D in HD, HF, Hvpd.
  assert (Hlen : Z.of_nat (length counts) = D)
    by (unfold D; now rewrite (Forall2_length HF)).
  (* every count is [c] *)
  assert (Hnth : forall k, (k < length counts)%nat -> nth k counts 0 = c).
  { intros k Hk. rewrite <- (Huni (Z.of_nat k)) by lia.
    rewrite Hvpd, <- Hlen, get_volume_num_numbered by lia. now rewrite Nat2Z.id. }
  assert (Hlook : forall i, 0 <= i < D ->
            Assoc.lookup Z.eqb (volumes_per_device_ st) i = Some c).
  { intros i Hi. rewrite Hvpd, <- Hlen.
    pose proof (lookup_numbered counts 0 i) as HL.
    rewrite map_ext with (g := fun x => x) in HL by reflexivity.
    rewrite map_id in HL. rewrite HL.
    replace ((0 <=? i) && (i <? 0 + Z.of_nat (length counts))) with true
      by bounds_hold.
    rewrite Z.sub_0_r.
    destruct (nth_error counts (Z.to_nat i)) eqn:E.
    - apply (nth_error_nth _ _ 0) in E. rewrite Hnth in E by lia. congruence.
    - apply nth_error_None in E. lia. }
  (* the counts are not negative *)
  assert (Hc0 : 0 <= c).
  { destruct counts as [|c0 counts]; [simpl in Hlen; lia|].
    inversion HF as [|mem ? mems' ? (sz & Hcalc) _]; subst.
    apply calcVolumeSizePerDev_inv in Hcalc; [|unfold is_u32; lia].
    destruct Hcalc as (k & _ & Heq & _). injection Heq as _ ->.
    rewrite <- (Hnth O) by (simpl; lia). simpl. apply wrap32_range. }
  assert (HvcN : volume_count_ st = D * c).
  { rewrite Hvc, (sumZ_constant counts c Hnth), Hlen.
    apply wrap32_small. unfold is_u32. nia. }
  unfold calculate_subvolume_offsets in Eoffs.
  pose proof (offsets_fold _ _ _ _ _ _ Eoffs) as Hoffs.
  assert (HN0 : D * c <> 0).
  { destruct (Hoffs 0 0) as [Hin _]. rewrite <- HvcN.
    assert (Hin0 : In 0 (range D)) by (apply in_range; lia).
    apply (Hin Hin0 c). apply Hlook. lia. }
  assert (Hcpos : 0 < c) by nia.
  split; [exact HD|]. split; [exact Hcpos|]. split; [reflexivity|].
  split; [exact HvcN|].
  unfold sub_volumes. cbn [devices_ chunks_ dim_z_ offset_per_volume_].
  rewrite <- (flat_map_blocks
                (fun n => (n * (dz / (D * c)), dz / (D * c))) c D) by lia.
  apply flat_map_ext_in. intros i Hi. apply in_range in Hi.
  unfold device_sub_volumes, create_volumes.
  cbn [devices_ chunks_ dim_z_ offset_per_volume_].
  rewrite (Huni i Hi), combine_map_same.
  apply map_ext_in. intros c' Hc'. apply in_range in Hc'.
  assert (Hdiv : dz / D / c = dz / (D * c)) by (rewrite Z.div_div by lia; reflexivity).
  rewrite Hdiv. f_equal.
  unfold get_volume_offset.
  destruct (Hoffs i c') as [Hin _].
  assert (Hini : In i (range D)) by (apply in_range; lia).
  destruct (Hin Hini c (Hlook i Hi)) as [_ Hval].
  rewrite Hval by lia. rewrite HvcN.
  unfold is_u64 in Hdz.
  apply chunk_offset_exact with (D := D) (dz := dz); try lia.
  - apply Z.div_pos; nia.
  - apply Z.mul_div_le. nia.
Qed.

End UniformPlans.

(** ** Partition of the volume into z-bands *)

Section Partition.
Import Scheduler Feldkamp.

Lemma range_nth n k d :
  (k < Z.to_nat n)%nat -> nth k (range n) d = Z.of_nat k.
Proof.
  intros H. unfold range.
  rewrite nth_indep with (d' := Z.of_nat 0)
    by (now rewrite length_map, length_seq).
  rewrite map_nth, seq_nth by assumption. reflexivity.
Qed.

Lemma nth_map_range {A} (g : Z -> A) N n d :
  0 <= n < N -> nth (Z.to_nat n) (map g (range N)) d = g n.
Proof.
  intros Hn.
  rewrite nth_indep with (d' := g 0)
    by (rewrite length_map, range_length; lia).
  rewrite map_nth, range_nth by lia. f_equal. lia.
Qed.

Lemma sumZ_bands (f : Z -> Z) e l : sumZ (map snd (map (fun n => (f n, e)) l))
                                    = Z.of_nat (length l) * e.
Proof. induction l as [|x l IH]; simpl sumZ; [reflexivity|]. simpl length. lia. Qed.

(** C1 (as amended).  In a plan whose devices all hold the same number [c]
    of chunks, whose chunk total [N] fits 32 bits and divides [dim_z],
    sub-volume [n] starts at [n * (dim_z / N)], the local z-extents sum to
    [dim_z], and the bands are pairwise disjoint and cover exactly
    [[0, dim_z)]. *)
Theorem uniform_plan_partitions_volume fuel dx dy dz mems p c :
  schedule fuel dx dy dz mems = Some p ->
  is_u64 dz ->
  (forall d, 0 <= d < devices_ p ->
     get_volume_num (volumes_per_device_ (chunks_ p)) d = c) ->
  devices_ p * c < 2 ^ 32 ->
  (devices_ p * c | dz) ->
  let N := volume_count_ (chunks_ p) in
  let band n := nth (Z.to_nat n) (sub_volumes p) (0, 0) in
  length (sub_volumes p) = Z.to_nat N /\
  (forall n, 0 <= n < N -> band n = (n * (dz / N), dz / N)) /\
  sumZ (map snd (sub_volumes p)) = dz /\
  (forall z, 0 <= z < dz -> exists n, 0 <= n < N /\ in_band (band n) z) /\
  (forall z n, 0 <= n < N -> in_band (band n) z -> 0 <= z < dz) /\
  (forall z n n', 0 <= n < N -> 0 <= n' < N ->
     in_band (band n) z -> in_band (band n') z -> n = n').
Proof.
  intros Hs Hdz Huni HN32 Hdvd N band.
  destruct (uniform_plan _ _ _ _ _ _ _ Hs Hdz Huni HN32)
    as (HD & Hc & _ & HvcN & Hsv).
  unfold band, N. rewrite HvcN, Hsv. clear band N.
  set (N := devices_ p * c) in *. set (e := dz / N).
  assert (HNpos : 0 < N) by (unfold N; nia).
  assert (HNe : N * e = dz).
  { destruct Hdvd as [q Hq]. unfold e. rewrite Hq, Z.div_mul by lia. lia. }
  assert (He0 : 0 <= e) by (unfold e, is_u64 in *; apply Z.div_pos; lia).
  assert (Hband : forall n, 0 <= n < N ->
            nth (Z.to_nat n) (map (fun n0 => (n0 * e, e)) (range N)) (0, 0)
            = (n * e, e)).
  { intros n Hn. now rewrite nth_map_range. }
  split; [now rewrite length_map, range_length|].
  split; [exact Hband|].
  split; [rewrite sumZ_bands, range_length; lia|].
  split; [|split].
  - intros z Hz.
    assert (Hepos : 0 < e) by nia.
    exists (z / e). assert (Hq : 0 <= z / e < N).
    { split; [apply Z.div_pos; lia|]. apply Z.div_lt_upper_bound; lia. }
    split; [exact Hq|]. rewrite Hband by exact Hq. unfold in_band. simpl.
    pose proof (Z.mul_div_le z e Hepos).
    pose proof (Z.mul_succ_div_gt z e Hepos). lia.
  - intros z n Hn. rewrite (Hband n Hn). unfold in_band. simpl. nia.
  - intros z n n' Hn Hn'. rewrite (Hband n Hn), (Hband n' Hn').
    unfold in_band. simpl. nia.
Qed.

Lemma uniform_plan_partitions_volume_witness :
  let p := {| dim_z_ := 8; devices_ := 2;
              chunks_ := {| volume_bytes_ := 256; volume_count_ := 2;
                            volumes_per_device_ := [(0, 1); (1, 1)] |};
              offset_per_volume_ := [((0, 0), 0); ((1, 0), 4)] |} in
  let band n := nth (Z.to_nat n) (sub_volumes p) (0, 0) in
  schedule enough 4 4 8 [1024; 1024] = Some p /\
  length (sub_volumes p) = Z.to_nat 2 /\
  (forall n, 0 <= n < 2 -> band n = (n * (8 / 2), 8 / 2)) /\
  sumZ (map snd (sub_volumes p)) = 8 /\
  (forall z, 0 <= z < 8 -> exists n, 0 <= n < 2 /\ in_band (band n) z) /\
  (forall z n, 0 <= n < 2 -> in_band (band n) z -> 0 <= z < 8) /\
  (forall z n n', 0 <= n < 2 -> 0 <= n' < 2 ->
     in_band (band n) z -> in_band (band n') z -> n = n').
Proof.
  intros p band. split; [vm_compute; reflexivity|].
  apply (uniform_plan_partitions_volume enough 4 4 8 [1024; 1024] p 1).
  - vm_compute. reflexivity.
  - unfold is_u64. lia.
  - intros d Hd. simpl in Hd.
    assert (Hcase : d = 0 \/ d = 1) by lia.
    destruct Hcase as [-> | ->]; reflexivity.
  - simpl. lia.
  - exists 4. reflexivity.
Defined.

(** C1 as stated fails: a 512 x 512 x 513 volume of [float] on one device
    with 512 MiB of memory needs two chunks, which get 256 slices each;
    slice 512 belongs to no sub-volume. *)
Lemma truncated_plan_loses_a_slice :
  exists p, schedule enough 512 512 513 [2 ^ 29] = Some p /\
    sub_volumes p = [(0, 256); (256, 256)] /\
    sumZ (map snd (sub_volumes p)) <> dim_z_ p /\
    ~ (exists sv, In sv (sub_volumes p) /\ in_band sv 512).
Proof.
  eexists. split; [vm_compute; reflexivity|].
  split; [vm_compute; reflexivity|].
  split; [vm_compute; discriminate|].
  intros (sv & Hin & Hb). vm_compute in Hin.
  destruct Hin as [<-|[<-|[]]]; unfold in_band in Hb; simpl in Hb; lia.
Qed.

(** Devices with different chunk counts: [calculate_subvolume_offsets]
    multiplies the device number by the chunk count of that device, not by
    the number of chunks that precede it, and [create_volumes] sizes the
    chunks per device.  A 512 x 512 x 512 volume on a device with 512 MiB
    and one with 256 MiB gets the chunk counts 1 and 2 and the bands
    [0,256), [340,468) and [510,638). *)
Lemma unequal_chunk_counts_misplace_bands :
  exists p, schedule enough 512 512 512 [2 ^ 29; 2 ^ 28] = Some p /\
    volumes_per_device_ (chunks_ p) = [(0, 1); (1, 2)] /\
    sub_volumes p = [(0, 256); (340, 128); (510, 128)].
Proof. eexists. repeat split; vm_compute; reflexivity. Qed.

End Partition.

(** ** Scenario S5: one device with a quarter of the volume minus one byte *)

Section QuarterMemory.
Import Scheduler Feldkamp.

Lemma quarter_memory_halvings fuel b :
  12 <= b -> (4 <= fuel)%nat ->
  calcVolumeSizePerDev fuel b 1 (b / 4 - 1) = Some (b / 8, 8).
Proof.
  intros Hb Hf.
  do 4 (destruct fuel as [|fuel]; [lia|]). clear Hf.
  assert (H1 : (b / 4 - 1 <=? b) = true)
    by (apply Z.leb_le; Z.div_mod_to_equations; lia).
  assert (H2 : (b / 4 - 1 <=? b / 2) = true)
    by (apply Z.leb_le; Z.div_mod_to_equations; lia).
  assert (H3 : (b / 4 - 1 <=? b / 2 / 2) = true)
    by (apply Z.leb_le; Z.div_mod_to_equations; lia).
  assert (H4 : (b / 4 - 1 <=? b / 2 / 2 / 2) = false)
    by (apply Z.leb_gt; Z.div_mod_to_equations; lia).
  cbn [calcVolumeSizePerDev]. rewrite H1, H2, H3, H4.
  f_equal. f_equal. Z.div_mod_to_equations; lia.
Qed.

(** C6 (as amended).  A single device whose memory is
    [bytes_per_volume / 4 - 1] cannot hold a quarter of the volume, so the
    halving goes one step further: the device gets 8 chunks, which are the
    8 contiguous z-bands [[n * (dim_z / 8), (n + 1) * (dim_z / 8))]. *)
Theorem quarter_memory_gives_eight_chunks fuel dx dy dz :
  12 <= calculate_volume_bytes dx dy dz ->
  is_u64 dz -> (enough <= fuel)%nat ->
  exists p,
    schedule fuel dx dy dz [wrap64 (calculate_volume_bytes dx dy dz / 4 - 1)]
      = Some p /\
    get_volume_num (volumes_per_device_ (chunks_ p)) 0 = 8 /\
    sub_volumes p = map (fun n => (n * (dz / 8), dz / 8)) (range 8).
Proof.
  intros Hb Hdz Hf.
  set (b := calculate_volume_bytes dx dy dz) in *.
  assert (Hb64 : is_u64 b) by apply wrap64_range.
  assert (Hmem : wrap64 (b / 4 - 1) = b / 4 - 1).
  { apply wrap64_small. unfold is_u64 in *. Z.div_mod_to_equations; lia. }
  assert (Hst : calculate_volumes_per_device fuel b [b / 4 - 1]
                = Some {| volume_bytes_ := b; volume_count_ := 8;
                          volumes_per_device_ := [(0, 8)] |}).
  { unfold calculate_volumes_per_device, device_loop, device_step.
    cbn [length Z.of_nat Pos.of_succ_nat Z.eqb volume_bytes_ volume_count_
         volumes_per_device_].
    rewrite Z.div_1_r.
    rewrite quarter_memory_halvings;
      [reflexivity | exact Hb | unfold enough in Hf; lia]. }
  assert (Hp : exists p, schedule fuel dx dy dz [wrap64 (b / 4 - 1)] = Some p /\
                 devices_ p = 1 /\
                 volumes_per_device_ (chunks_ p) = [(0, 8)]).
  { unfold schedule. fold b. rewrite Hmem, Hst. cbv zeta.
    cbn [volume_count_ volumes_per_device_ length Z.of_nat Pos.of_succ_nat].
    unfold calculate_subvolume_offsets. change (range 1) with [0].
    cbn [fold_left offsets_of_device Assoc.lookup Z.eqb].
    eexists. split; [reflexivity|]. split; reflexivity. }
  destruct Hp as (p & Hs & HD & Hvpd).
  exists p. split; [exact Hs|]. split; [now rewrite Hvpd|].
  assert (Huni : forall d, 0 <= d < devices_ p ->
            get_volume_num (volumes_per_device_ (chunks_ p)) d = 8).
  { intros d Hd. rewrite HD in Hd. replace d with 0 by lia. now rewrite Hvpd. }
  destruct (uniform_plan _ _ _ _ _ _ 8 Hs Hdz Huni ltac:(rewrite HD; lia))
    as (_ & _ & _ & _ & Hsv).
  rewrite Hsv, HD. reflexivity.
Qed.

Lemma quarter_memory_gives_eight_chunks_witness :
  exists p,
    schedule enough 16 16 16 [wrap64 (calculate_volume_bytes 16 16 16 / 4 - 1)]
      = Some p /\
    get_volume_num (volumes_per_device_ (chunks_ p)) 0 = 8 /\
    sub_volumes p = map (fun n => (n * (16 / 8), 16 / 8)) (range 8).
Proof.
  apply (quarter_memory_gives_eight_chunks enough 16 16 16).
  - vm_compute. discriminate.
  - unfold is_u64. lia.
  - apply le_n.
Defined.

(** C6 as stated fails: for a 16 x 16 x 16 volume of [float] (16384 bytes)
    and 4095 bytes of device memory the device gets 8 chunks, not 4. *)
Lemma quarter_memory_is_not_four_chunks :
  exists p,
    schedule enough 16 16 16 [wrap64 (calculate_volume_bytes 16 16 16 / 4 - 1)]
      = Some p /\
    get_volume_num (volumes_per_device_ (chunks_ p)) 0 <> 4 /\
    length (sub_volumes p) <> 4%nat.
Proof.
  eexists. split; [vm_compute; reflexivity|].
  split; vm_compute; discriminate.
Qed.

End QuarterMemory.

(** ** Region of interest *)

Section RoiFacts.
Import Roi.
Context {F : Type}.

(** The updated dimension of one axis as a number: [high - low] voxels,
    and one more when the region starts at 0. *)
Let extent (low high : Z) : Z := high - low + (if low =? 0 then 1 else 0).

(** The code computes it on [std::uint32_t]: the one extent that does not
    fit, [2 ^ 32] for the axis [0 .. 2^32-1], is counted as 0. *)
Lemma updated_dim_extent low high :
  is_u32 low -> is_u32 high -> low < high ->
  updated_dim low high
  = if extent low high =? 2 ^ 32 then 0 else extent low high.
Proof.
  unfold is_u32, updated_dim, extent, wrap32. intros Hl Hh Hlt.
  rewrite (Z.mod_small (high - low)) by lia.
  destruct (Z.eqb_spec low 0) as [->|Hne].
  - rewrite Z.sub_0_r.
    destruct (Z.eqb_spec (high + 1) (2 ^ 32)) as [E|E].
    + rewrite E. reflexivity.
    + apply Z.mod_small. lia.
  - rewrite Z.add_0_r.
    destruct (Z.eqb_spec (high - low) (2 ^ 32)) as [E|E]; [lia|reflexivity].
Qed.

(** C9 (as amended).  [apply_roi] is a total function on its 32-bit
    arguments.  With the updated dimension of an axis [high - low], plus
    one when [low = 0]: when an axis has [low >= high], or an updated
    dimension below [2 ^ 32] exceeds the old one, the result is the input
    geometry, field by field.  Otherwise the result carries the updated
    dimensions, none larger than the old one, and the voxel sizes of the
    input; the axis [0 .. 2^32-1], whose updated dimension [2 ^ 32] does
    not fit 32 bits, is counted as 0 and so never rejected. *)
Theorem apply_roi_never_fails (vol_geo : volume_geometry F) (x1 x2 y1 y2 z1 z2 : Z) :
  is_u32 (dim_x vol_geo) -> is_u32 (dim_y vol_geo) -> is_u32 (dim_z vol_geo) ->
  is_u32 x1 -> is_u32 x2 -> is_u32 y1 -> is_u32 y2 -> is_u32 z1 -> is_u32 z2 ->
  let updated low high := high - low + (if low =? 0 then 1 else 0) in
  let counted low high :=
    if updated low high =? 2 ^ 32 then 0 else updated low high in
  let roi_geo := fst (apply_roi vol_geo x1 x2 y1 y2 z1 z2) in
  let rejected :=
    x2 <= x1 \/ y2 <= y1 \/ z2 <= z1 \/
    dim_x vol_geo < updated x1 x2 < 2 ^ 32 \/
    dim_y vol_geo < updated y1 y2 < 2 ^ 32 \/
    dim_z vol_geo < updated z1 z2 < 2 ^ 32 in
  (rejected -> roi_geo = vol_geo) /\
  (~ rejected ->
     dim_x roi_geo = counted x1 x2 /\ dim_x roi_geo <= dim_x vol_geo /\
     dim_y roi_geo = counted y1 y2 /\ dim_y roi_geo <= dim_y vol_geo /\
     dim_z roi_geo = counted z1 z2 /\ dim_z roi_geo <= dim_z vol_geo /\
     l_vx_x roi_geo = l_vx_x vol_geo /\
     l_vx_y roi_geo = l_vx_y vol_geo /\
     l_vx_z roi_geo = l_vx_z vol_geo).
Proof.
  intros Hdx Hdy Hdz Hx1 Hx2 Hy1 Hy2 Hz1 Hz2 updated counted roi_geo rejected.
  unfold is_u32 in Hdx, Hdy, Hdz.
  unfold roi_geo, rejected, apply_roi, check_coords, check_dims.
  destruct (Z.ltb_spec x1 x2) as [Hx|Hx], (Z.ltb_spec y1 y2) as [Hy|Hy],
    (Z.ltb_spec z1 z2) as [Hz|Hz];
    cbn [andb fst]; try (split; [reflexivity | intros Hn; exfalso; apply Hn; lia]).
  rewrite (updated_dim_extent x1 x2 Hx1 Hx2 Hx),
    (updated_dim_extent y1 y2 Hy1 Hy2 Hy), (updated_dim_extent z1 z2 Hz1 Hz2 Hz).
  change (extent x1 x2) with (updated x1 x2).
  change (extent y1 y2) with (updated y1 y2).
  change (extent z1 z2) with (updated z1 z2).
  change (if updated x1 x2 =? 2 ^ 32 then 0 else updated x1 x2)
    with (counted x1 x2).
  change (if updated y1 y2 =? 2 ^ 32 then 0 else updated y1 y2)
    with (counted y1 y2).
  change (if updated z1 z2 =? 2 ^ 32 then 0 else updated z1 z2)
    with (counted z1 z2).
  assert (Hex : forall low high, is_u32 low -> is_u32 high -> low < high ->
            0 <= counted low high < 2 ^ 32 /\
            (counted low high = updated low high \/
             (counted low high = 0 /\ updated low high = 2 ^ 32)) /\
            updated low high <= 2 ^ 32).
  { intros low high Hl Hh Hlt. unfold counted, updated, is_u32 in *.
    destruct (Z.eqb_spec low 0) as [Hl0|Hne];
      match goal with
      | |- context [?a =? 2 ^ 32] => destruct (Z.eqb_spec a (2 ^ 32))
      end; lia. }
  pose proof (Hex x1 x2 Hx1 Hx2 Hx) as (Hcx & Hux & Hbx).
  pose proof (Hex y1 y2 Hy1 Hy2 Hy) as (Hcy & Huy & Hby).
  pose proof (Hex z1 z2 Hz1 Hz2 Hz) as (Hcz & Huz & Hbz).
  clearbody counted updated.
  destruct (Z.leb_spec (counted x1 x2) (dim_x vol_geo)),
           (Z.leb_spec (counted y1 y2) (dim_y vol_geo)),
           (Z.leb_spec (counted z1 z2) (dim_z vol_geo));
    cbn [andb fst]; try (split; [reflexivity | intros Hn; exfalso; apply Hn; lia]).
  split; [intros Hr; exfalso; lia|].
  intros _. cbn [dim_x dim_y dim_z l_vx_x l_vx_y l_vx_z].
  split; [reflexivity|]. split; [assumption|].
  split; [reflexivity|]. split; [assumption|].
  split; [reflexivity|]. split; [assumption|].
  split; [reflexivity|]. split; reflexivity.
Qed.

(** The log tells the three outcomes apart. *)
Lemma apply_roi_log (vol_geo : volume_geometry F) (x1 x2 y1 y2 z1 z2 : Z) :
  match snd (apply_roi vol_geo x1 x2 y1 y2 z1 z2) with
  | InvalidCoordinates => x2 <= x1 \/ y2 <= y1 \/ z2 <= z1
  | ExceedsOldDimensions =>
      dim_x vol_geo < updated_dim x1 x2 \/ dim_y vol_geo < updated_dim y1 y2 \/
      dim_z vol_geo < updated_dim z1 z2
  | Applied => x1 < x2 /\ y1 < y2 /\ z1 < z2
  end.
Proof.
  unfold apply_roi, check_coords, check_dims.
  destruct (Z.ltb_spec x1 x2), (Z.ltb_spec y1 y2), (Z.ltb_spec z1 z2);
    cbn [andb snd]; try lia.
  destruct (Z.leb_spec (updated_dim x1 x2) (dim_x vol_geo)),
           (Z.leb_spec (updated_dim y1 y2) (dim_y vol_geo)),
           (Z.leb_spec (updated_dim z1 z2) (dim_z vol_geo));
    cbn [andb snd]; lia.
Qed.

(** The 32-bit increment at [low = 0]: the region [0 .. 2^32-1] has the
    updated dimension 0, which no check rejects. *)
Lemma updated_dim_full_range : updated_dim 0 (2 ^ 32 - 1) = 0.
Proof. reflexivity. Qed.

End RoiFacts.

Lemma apply_roi_never_fails_witness :
  let vol_geo := {| Roi.dim_x := 100; Roi.dim_y := 100; Roi.dim_z := 100;
                    Roi.l_vx_x := 1; Roi.l_vx_y := 1; Roi.l_vx_z := 1 |} in
  let updated low high := high - low + (if low =? 0 then 1 else 0) in
  let counted low high :=
    if updated low high =? 2 ^ 32 then 0 else updated low high in
  let roi_geo := fst (Roi.apply_roi vol_geo 0 9 10 40 5 100) in
  let rejected :=
    9 <= 0 \/ 40 <= 10 \/ 100 <= 5 \/
    Roi.dim_x vol_geo < updated 0 9 < 2 ^ 32 \/
    Roi.dim_y vol_geo < updated 10 40 < 2 ^ 32 \/
    Roi.dim_z vol_geo < updated 5 100 < 2 ^ 32 in
  (rejected -> roi_geo = vol_geo) /\
  (~ rejected ->
     Roi.dim_x roi_geo = counted 0 9 /\ Roi.dim_x roi_geo <= Roi.dim_x vol_geo /\
     Roi.dim_y roi_geo = counted 10 40 /\ Roi.dim_y roi_geo <= Roi.dim_y vol_geo /\
     Roi.dim_z roi_geo = counted 5 100 /\ Roi.dim_z roi_geo <= Roi.dim_z vol_geo /\
     Roi.l_vx_x roi_geo = Roi.l_vx_x vol_geo /\
     Roi.l_vx_y roi_geo = Roi.l_vx_y vol_geo /\
     Roi.l_vx_z roi_geo = Roi.l_vx_z vol_geo).
Proof.
  intros vol_geo.
  apply (apply_roi_never_fails (F := Z) vol_geo 0 9 10 40 5 100);
    unfold is_u32; simpl; lia.
Defined.

(** C9 as stated fails: on a volume of 100 voxels per axis the region
    [x = 0 .. 2^32-1] has [2 ^ 32] voxels along x, more than the volume
    has, yet it is applied, with the x dimension 0. *)
Lemma roi_full_range_is_applied :
  let vol_geo := {| Roi.dim_x := 100; Roi.dim_y := 100; Roi.dim_z := 100;
                    Roi.l_vx_x := 1; Roi.l_vx_y := 1; Roi.l_vx_z := 1 |} in
  let roi_geo := fst (Roi.apply_roi vol_geo 0 (2 ^ 32 - 1) 0 9 0 9) in
  Roi.dim_x vol_geo < (2 ^ 32 - 1) - 0 + 1 /\
  roi_geo <> vol_geo /\
  (Roi.dim_x roi_geo, Roi.dim_y roi_geo, Roi.dim_z roi_geo) = (0, 10, 10).
Proof.
  cbv zeta. split; [simpl; lia|]. split; [|reflexivity].
  intros H. apply (f_equal Roi.dim_x) in H. vm_compute in H. discriminate H.
Qed.

(** ** Arrays *)

Section MemFacts.
Context {A : Type}.

Lemma update_length (a : list A) : forall k v, length (Mem.update a k v) = length a.
Proof. induction a as [|x a IH]; intros [|k] v; simpl; auto. Qed.

Lemma update_nth_error (a : list A) : forall k v i,
  nth_error (Mem.update a k v) i =
  if (i =? k)%nat && (k <? length a)%nat then Some v else nth_error a i.
Proof.
  induction a as [|x a IH]; intros k v i.
  - simpl. destruct i, k; simpl; try reflexivity; now rewrite andb_false_r.
  - destruct k as [|k], i as [|i]; simpl; try reflexivity.
    rewrite IH. reflexivity.
Qed.

End MemFacts.

(** ** The index table of the filter *)

Section IndexTable.
Import Filter.

Lemma to_int32_small x : - 2 ^ 31 <= x < 2 ^ 31 -> to_int32 x = x.
Proof. intros H. unfold to_int32. rewrite Z.mod_small; lia. Qed.

(** The loop can be cut after any number of iterations. *)
Lemma fill_loop_split (a : nat) : forall b k j m,
  - 2 ^ 31 <= j -> j + Z.of_nat a < 2 ^ 31 ->
  fill_loop (a + b) k j m
  = fill_loop b (k + Z.of_nat a) (j + Z.of_nat a) (fill_loop a k j m).
Proof.
  induction a as [|a IH]; intros b k j m Hlo Hhi.
  - simpl. now rewrite !Z.add_0_r.
  - cbn [Nat.add fill_loop]. rewrite to_int32_small by lia.
    rewrite IH by lia. f_equal; lia.
Qed.

(** Iterations that stay inside the array write consecutive values into
    consecutive cells and nothing else. *)
Lemma fill_loop_inside (steps : nat) : forall k j m,
  0 <= k -> k + Z.of_nat steps <= Z.of_nat (length (Mem.cells m)) ->
  - 2 ^ 31 <= j -> j + Z.of_nat steps < 2 ^ 31 ->
  let m' := fill_loop steps k j m in
  Mem.past_end m' = Mem.past_end m /\
  length (Mem.cells m') = length (Mem.cells m) /\
  forall i, nth_error (Mem.cells m') i =
            if (k <=? Z.of_nat i) && (Z.of_nat i <? k + Z.of_nat steps)
            then Some (j + (Z.of_nat i - k))
            else nth_error (Mem.cells m) i.
Proof.
  induction steps as [|steps IH]; intros k j m Hk Hlen Hlo Hhi; cbn zeta.
  - simpl. split; [reflexivity|]. split; [reflexivity|]. intros i.
    destruct (Z.leb_spec k (Z.of_nat i)), (Z.ltb_spec (Z.of_nat i) (k + 0));
      simpl; try reflexivity; lia.
  - cbn [fill_loop]. rewrite to_int32_small by lia.
    assert (Hin : (0 <=? k) && (k <? Z.of_nat (length (Mem.cells m))) = true).
    { apply andb_true_iff. rewrite Z.leb_le, Z.ltb_lt. lia. }
    assert (Hst : Mem.store m k j
                  = {| Mem.cells := Mem.update (Mem.cells m) (Z.to_nat k) j;
                       Mem.past_end := Mem.past_end m |}).
    { unfold Mem.store. now rewrite Hin. }
    rewrite Hst.
    specialize (IH (k + 1) (j + 1)
                  {| Mem.cells := Mem.update (Mem.cells m) (Z.to_nat k) j;
                     Mem.past_end := Mem.past_end m |}).
    cbn [Mem.cells Mem.past_end] in IH. rewrite update_length in IH.
    destruct IH as (Hp & Hl & Hn); try lia.
    split; [exact Hp|]. split; [exact Hl|]. intros i. rewrite Hn.
    rewrite update_nth_error.
    destruct (Z.leb_spec (k + 1) (Z.of_nat i)),
             (Z.ltb_spec (Z.of_nat i) (k + 1 + Z.of_nat steps)),
             (Z.leb_spec k (Z.of_nat i)),
             (Z.ltb_spec (Z.of_nat i) (k + Z.of_nat (S steps)));
      cbn [andb]; try lia;
      destruct (Nat.eqb_spec i (Z.to_nat k)),
               (Nat.ltb_spec (Z.to_nat k) (length (Mem.cells m)));
      cbn [andb]; try lia; try reflexivity; f_equal; lia.
Qed.

Lemma filter_length_even_bounded n_col :
  1 <= n_col <= 2 ^ 29 ->
  let L := filter_length n_col in
  L = 2 * 2 ^ Z.log2_up n_col /\ 2 <= L < 2 ^ 31 /\ L = 2 * (L / 2) /\
  j_start L = - ((L - 2) / 2).
Proof.
  intros Hn L. unfold L, filter_length.
  destruct (Z.leb_spec n_col 0) as [|_]; [lia|].
  set (e := Z.log2_up n_col).
  assert (He : 0 <= e <= 29).
  { split; [apply Z.log2_up_nonneg|].
    unfold e. rewrite <- (Z.log2_up_pow2 29) by lia. apply Z.log2_up_le_mono. lia. }
  assert (Hp : 1 <= 2 ^ e <= 2 ^ 29).
  { split; [pose proof (Z.pow_pos_nonneg 2 e); lia|].
    apply Z.pow_le_mono_r; lia. }
  split; [reflexivity|]. split; [lia|]. split.
  - rewrite Z.mul_comm, Z.div_mul by lia. lia.
  - unfold j_start. rewrite (to_int32_small (2 * 2 ^ e)) by lia.
    replace (2 * 2 ^ e - 2) with ((2 ^ e - 1) * 2) by lia.
    rewrite Z.quot_mul, Z.div_mul by lia. apply to_int32_small. lia.
Qed.

(** The table after the loop, for a table of [L >= 0] elements: every cell
    [k] holds [j_start L + k], and one value went past the end, at index
    [L]. *)
Lemma fill_j_host_buffer_result L garbage :
  0 <= L -> - 2 ^ 31 <= j_start L -> j_start L + L < 2 ^ 31 ->
  let m := fill_j_host_buffer L garbage in
  length (Mem.cells m) = Z.to_nat L /\
  (forall k, 0 <= k < L ->
     nth_error (Mem.cells m) (Z.to_nat k) = Some (j_start L + k)) /\
  Mem.past_end m = [(L, j_start L + L)].
Proof.
  intros HL Hlo Hhi. cbn zeta. unfold fill_j_host_buffer.
  replace (Z.to_nat (L + 1)) with (Z.to_nat L + 1)%nat by lia.
  set (m0 := {| Mem.cells := map garbage (range L); Mem.past_end := [] |}).
  assert (Hlen0 : length (Mem.cells m0) = Z.to_nat L)
    by (unfold m0; simpl; now rewrite length_map, range_length).
  rewrite fill_loop_split by lia.
  destruct (fill_loop_inside (Z.to_nat L) 0 (j_start L) m0) as (Hp & Hl & Hn);
    try lia.
  set (m1 := fill_loop (Z.to_nat L) 0 (j_start L) m0) in *.
  cbn [fill_loop]. unfold Mem.store.
  replace ((0 <=? 0 + Z.of_nat (Z.to_nat L))
           && (0 + Z.of_nat (Z.to_nat L) <? Z.of_nat (length (Mem.cells m1))))
    with false
    by (symmetry; apply andb_false_iff; right; apply Z.ltb_ge; lia).
  cbn [Mem.cells Mem.past_end].
  split; [lia|]. split.
  - intros k Hk. rewrite Hn.
    replace ((0 <=? Z.of_nat (Z.to_nat k))
             && (Z.of_nat (Z.to_nat k) <? 0 + Z.of_nat (Z.to_nat L))) with true
      by bounds_hold.
    f_equal. lia.
  - rewrite Hp. unfold m0. simpl. repeat f_equal; lia.
Qed.

(** The cells of the table for a detector of [n_col] columns. *)
Lemma j_table_cells n_col garbage :
  1 <= n_col <= 2 ^ 29 ->
  let L := filter_length n_col in
  let m := fill_j_host_buffer L garbage in
  length (Mem.cells m) = Z.to_nat L /\
  (forall k, 0 <= k < L ->
     nth_error (Mem.cells m) (Z.to_nat k) = Some (- ((L - 2) / 2) + k)).
Proof.
  intros Hn L m.
  destruct (filter_length_even_bounded n_col Hn) as (_ & HL & Heven & Hj).
  fold L in HL, Heven, Hj. clearbody L.
  destruct (fill_j_host_buffer_result L garbage) as (Hlen & Hcells & _);
    try (rewrite Hj; Z.div_mod_to_equations; lia); try lia.
  fold m in Hlen, Hcells. rewrite Hj in Hcells. split; assumption.
Qed.

(** C10: what the code does.  For a detector of [n_col] columns the table
    has [L = filter_length n_col] elements; the loop fills the cells
    [0 .. L-1] with [j = -(L-2)/2 + k], and its last iteration, [k = L],
    stores [L/2 + 1] one element past the end of the table. *)
Theorem j_table_loop_writes_past_end n_col garbage :
  1 <= n_col <= 2 ^ 29 ->
  let L := filter_length n_col in
  let m := fill_j_host_buffer L garbage in
  length (Mem.cells m) = Z.to_nat L /\
  (forall k, 0 <= k < L ->
     nth_error (Mem.cells m) (Z.to_nat k) = Some (- ((L - 2) / 2) + k)) /\
  Mem.past_end m = [(L, L / 2 + 1)].
Proof.
  intros Hn L m.
  destruct (filter_length_even_bounded n_col Hn) as (_ & HL & Heven & Hj).
  fold L in HL, Heven, Hj. clearbody L.
  destruct (fill_j_host_buffer_result L garbage) as (Hlen & Hcells & Hpast);
    try (rewrite Hj; Z.div_mod_to_equations; lia); try lia.
  fold m in Hlen, Hcells, Hpast. rewrite Hj in Hcells, Hpast.
  split; [exact Hlen|]. split; [exact Hcells|].
  rewrite Hpast. do 2 f_equal. Z.div_mod_to_equations; lia.
Qed.

Lemma j_table_loop_writes_past_end_witness :
  let m := fill_j_host_buffer (filter_length 4) (fun _ => 0) in
  length (Mem.cells m) = Z.to_nat (filter_length 4) /\
  (forall k, 0 <= k < filter_length 4 ->
     nth_error (Mem.cells m) (Z.to_nat k)
     = Some (- ((filter_length 4 - 2) / 2) + k)) /\
  Mem.past_end m = [(filter_length 4, filter_length 4 / 2 + 1)].
Proof.
  apply (j_table_loop_writes_past_end 4 (fun _ => 0)). lia.
Defined.

End IndexTable.

(** ** The spatial-domain filter *)

Section RampFilter.
Import Filter.

(** One thread writes its own cell, if that cell exists. *)
Lemma createFilter_thread (j : list Z) size tau r x i :
  0 <= x ->
  length (createFilter j size tau r x) = length r /\
  nth_error (createFilter j size tau r x) i =
    match nth_error j i with
    | Some jx =>
        if (Z.of_nat i =? x) && (Z.of_nat i <? size) && (i <? length r)%nat
        then Some (r_of_j tau jx) else nth_error r i
    | None => nth_error r i
    end.
Proof.
  intros Hx. unfold createFilter. split.
  - destruct (x <? size); [|reflexivity].
    destruct (nth_error j (Z.to_nat x)); [apply update_length|reflexivity].
  - destruct (Z.eqb_spec (Z.of_nat i) x) as [Heq|Hne].
    + subst x. rewrite Nat2Z.id.
      destruct (nth_error j i) as [jx|]; [|now destruct (Z.of_nat i <? size)].
      destruct (Z.of_nat i <? size); cbn [andb]; [|reflexivity].
      now rewrite update_nth_error, Nat.eqb_refl.
    + assert (Hother : forall v, nth_error (Mem.update r (Z.to_nat x) v) i
                                 = nth_error r i).
      { intros v. rewrite update_nth_error.
        destruct (Nat.eqb_spec i (Z.to_nat x)); [lia|reflexivity]. }
      cbn [andb].
      destruct (x <? size), (nth_error j (Z.to_nat x)), (nth_error j i);
        rewrite ?Hother; reflexivity.
Qed.

(** Running [createFilter] for the threads [l]: cell [i] holds the filter
    value of [j[i]] once thread [i] has run, whatever the order. *)
Lemma createFilter_fold (j : list Z) size tau (l : list Z) : forall r i,
  (forall x, In x l -> 0 <= x) ->
  length (fold_left (createFilter j size tau) l r) = length r /\
  nth_error (fold_left (createFilter j size tau) l r) i =
    match nth_error j i with
    | Some jx =>
        if existsb (Z.eqb (Z.of_nat i)) l && (Z.of_nat i <? size)
           && (i <? length r)%nat
        then Some (r_of_j tau jx) else nth_error r i
    | None => nth_error r i
    end.
Proof.
  induction l as [|x l IH]; intros r i Hpos.
  - simpl. split; [reflexivity|]. destruct (nth_error j i); reflexivity.
  - cbn [fold_left existsb].
    assert (Hx : 0 <= x) by (apply Hpos; now left).
    destruct (IH (createFilter j size tau r x) i) as [Hlen Hnth];
      [intros y Hy; apply Hpos; now right|].
    destruct (createFilter_thread j size tau r x i Hx) as [Hlen1 Hnth1].
    split; [congruence|]. rewrite Hnth, Hlen1, Hnth1.
    destruct (nth_error j i) as [jx|]; [|reflexivity].
    destruct (existsb (Z.eqb (Z.of_nat i)) l), (Z.of_nat i =? x),
      (Z.of_nat i <? size), (i <? length r)%nat; reflexivity.
Qed.

Lemma r_of_j_opp tau j : r_of_j tau (- j) = r_of_j tau j.
Proof.
  unfold r_of_j. rewrite Z.rem_opp_l by lia.
  destruct (Z.eqb_spec j 0) as [->|Hj]; [reflexivity|].
  destruct (Z.eqb_spec (- j) 0); [lia|].
  destruct (Z.eqb_spec (Z.rem j 2) 0) as [->|Hr]; [reflexivity|].
  destruct (Z.eqb_spec (- Z.rem j 2) 0); [lia|].
  rewrite opp_IZR. f_equal. ring.
Qed.

Lemma rem2_even j : (Z.rem j 2 =? 0) = Z.even j.
Proof.
  destruct (Z.even j) eqn:E.
  - apply Z.eqb_eq. apply Z.even_spec in E. destruct E as [q ->].
    rewrite Z.mul_comm. apply Z.rem_mul. lia.
  - apply Z.eqb_neq. intros H.
    assert (Hev : Z.even j = true).
    { apply Z.even_spec. exists (Z.quot j 2).
      pose proof (Z.quot_rem' j 2). lia. }
    congruence.
Qed.

(** What [filterProcessor] leaves in the device buffer, cell by cell, and
    the one store of its host loop that missed the table. *)
Lemma filterProcessor_cells n_col tau grid j_garbage r_garbage :
  1 <= n_col <= 2 ^ 29 ->
  filter_length n_col <= grid ->
  let L := filter_length n_col in
  let run := filterProcessor L tau grid j_garbage r_garbage in
  length (rs_ run) = Z.to_nat L /\
  (forall j, - ((L - 2) / 2) <= j <= L / 2 -> r_at L (rs_ run) j = r_of_j tau j) /\
  stray_stores run = [(L, L / 2 + 1)].
Proof.
  intros Hn Hgrid L run.
  destruct (filter_length_even_bounded n_col Hn) as (_ & HL & Heven & Hj).
  destruct (j_table_cells n_col j_garbage Hn) as (Hlen & Hcells).
  fold L in HL, Heven, Hj, Hgrid, Hlen, Hcells. clearbody L.
  unfold run, filterProcessor. cbn [rs_ stray_stores].
  set (jt := Mem.cells (fill_j_host_buffer L j_garbage)) in *.
  rewrite firstn_all2 by lia.
  set (r0 := map r_garbage (range L)).
  assert (Hr0 : length r0 = Z.to_nat L)
    by (unfold r0; now rewrite length_map, range_length).
  assert (Hpos : forall x, In x (range grid) -> 0 <= x)
    by (intros x Hx; apply in_range in Hx; lia).
  split; [|split].
  - destruct (createFilter_fold jt L tau (range grid) r0 O Hpos) as [Hl _].
    congruence.
  - intros j Hjr. unfold r_at.
    set (i := Z.to_nat (j + (L - 2) / 2)).
    assert (Hi : 0 <= j + (L - 2) / 2 < L) by (Z.div_mod_to_equations; lia).
    destruct (createFilter_fold jt L tau (range grid) r0 i Hpos) as [_ Hnth].
    pose proof (Hcells (j + (L - 2) / 2) Hi) as Hc. fold i in Hc.
    rewrite Hc, existsb_range in Hnth.
    replace ((0 <=? Z.of_nat i) && (Z.of_nat i <? grid) && (Z.of_nat i <? L)
             && (i <? length r0)%nat) with true in Hnth.
    + apply nth_error_nth with (d := 0%R) in Hnth. rewrite Hnth.
      f_equal. lia.
    + unfold i. bounds_hold.
  - destruct (fill_j_host_buffer_result L j_garbage) as (_ & _ & Hpast);
      try (rewrite Hj; Z.div_mod_to_equations; lia); try lia.
    rewrite Hpast, Hj. do 2 f_equal. Z.div_mod_to_equations; lia.
Qed.

(** Small integers survive the conversion to [float] and back. *)
Lemma exponent_read_back c :
  0 <= c <= 62 ->
  FilterLength.integral_value (Float32.of_Z c) = Some c /\
  Float32.of_Z c <> S754_infinity true.
Proof.
  intros Hc.
  assert (Hall : forallb
                   (fun c =>
                      match FilterLength.integral_value (Float32.of_Z c),
                            Float32.of_Z c with
                      | Some k, S754_zero _ | Some k, S754_finite _ _ _ => k =? c
                      | _, _ => false
                      end)
                   (range 63) = true) by (vm_compute; reflexivity).
  rewrite forallb_forall in Hall.
  specialize (Hall c ltac:(apply in_range; lia)).
  destruct (FilterLength.integral_value (Float32.of_Z c)) as [k|];
    destruct (Float32.of_Z c); try discriminate Hall;
    apply Z.eqb_eq in Hall; subst k; split; (reflexivity || discriminate).
Qed.

(** The constructor's length for the exponent the library delivers. *)
Lemma filter_length_of_exponent (log2f : Float32.float -> Float32.float) n c :
  0 <= c <= 62 ->
  Float32.ceilf (log2f (Float32.of_Z n)) = Float32.of_Z c ->
  FilterLength.filter_length_ log2f n = 2 * 2 ^ c.
Proof.
  intros Hc Hlog. unfold FilterLength.filter_length_. rewrite Hlog.
  destruct (exponent_read_back c Hc) as [Hiv Hinf].
  assert (Hsmall : wrap64 (2 * 2 ^ c) = 2 * 2 ^ c).
  { apply wrap64_small. unfold is_u64.
    assert (0 < 2 ^ c) by (apply Z.pow_pos_nonneg; lia).
    assert (2 ^ c <= 2 ^ 62) by (apply Z.pow_le_mono_r; lia).
    lia. }
  destruct (Float32.of_Z c) as [s|[|]| |s m e]; try congruence;
    rewrite Hiv;
    replace (c <? -1) with false by (symmetry; apply Z.ltb_ge; lia);
    replace (c =? -1) with false by (symmetry; apply Z.eqb_neq; lia);
    exact Hsmall.
Qed.

(** Where the library's logarithm lands on [ceil(log2 n)], the
    constructor's length is the exact one. *)
Lemma filter_length_exact (log2f : Float32.float -> Float32.float) n :
  1 <= n <= 2 ^ 62 ->
  Float32.ceilf (log2f (Float32.of_Z n)) = Float32.of_Z (Z.log2_up n) ->
  FilterLength.filter_length_ log2f n = filter_length n.
Proof.
  intros Hn Hlog.
  assert (He : 0 <= Z.log2_up n <= 62).
  { split; [apply Z.log2_up_nonneg|].
    rewrite <- (Z.log2_up_pow2 62) by lia. apply Z.log2_up_le_mono. lia. }
  rewrite (filter_length_of_exponent log2f n (Z.log2_up n) He Hlog).
  unfold filter_length. destruct (Z.leb_spec n 0); [lia|reflexivity].
Qed.


End RampFilter.


(** ** Idealised conversions *)

Section IdealFacts.
Import Ideal.
Local Open Scope R_scope.

Lemma sin_atan_bounds x : 0 < x -> 0 < sin (atan x) < 1.
Proof.
  intros Hx. rewrite sin_atan.
  assert (Hs : x < sqrt (1 + x²)).
  { rewrite <- (sqrt_Rsqr x) at 1 by lra.
    apply sqrt_lt_1_alt. pose proof (Rle_0_sqr x). lra. }
  assert (Hpos : 0 < sqrt (1 + x²)) by lra.
  split.
  - apply Rdiv_lt_0_compat; assumption.
  - apply (Rmult_lt_reg_r (sqrt (1 + x²))); [assumption|].
    unfold Rdiv. rewrite Rmult_assoc, Rinv_l by lra. lra.
Qed.

Lemma truncate_IZR z : truncate (IZR z) = z.
Proof.
  unfold truncate. destruct (Rle_dec 0 (IZR z)).
  - apply ZfloorZ.
  - unfold Zceil. rewrite <- opp_IZR, ZfloorZ. lia.
Qed.

Lemma to_uint32_IZR z : is_u32 z -> to_uint32 (IZR z) = z.
Proof. intros H. unfold to_uint32. rewrite truncate_IZR. now apply wrap32_small. Qed.

(** The cast of a non-negative [float] is a non-negative integer that does
    not exceed it. *)
Lemma to_size_t_below x : 0 <= x -> (0 <= to_size_t x)%Z /\ IZR (to_size_t x) <= x.
Proof.
  intros Hx. unfold to_size_t, truncate. destruct (Rle_dec 0 x); [|contradiction].
  assert (H0 : (0 <= Zfloor x)%Z) by (apply Zfloor_lub; simpl; lra).
  pose proof (Zfloor_bound x) as [Hb _].
  pose proof (wrap64_range (Zfloor x)) as Hr. unfold is_u64 in Hr.
  split; [lia|].
  apply Rle_trans with (IZR (Zfloor x)); [|exact Hb].
  apply IZR_le. unfold wrap64. apply Z.mod_le; lia.
Qed.

(** The cone widens towards the detector: the upper edge of a slab is
    projected from the far side of the volume when it lies below the
    axis, the lower edge from the near side, and the other way round above
    the axis; the projected edges keep their order. *)
Lemma virtual_rows_ordered (top bottom S D rmax : R) :
  0 <= S -> 0 <= rmax < D -> top <= bottom ->
  top * S / (D + (if Rlt_dec top 0 then - rmax else rmax))
  <= bottom * S / (D + (if Rlt_dec bottom 0 then rmax else - rmax)).
Proof.
  intros HS Hr Hle.
  set (u := S / (D - rmax)). set (v := S / (D + rmax)).
  assert (Hv : 0 <= v).
  { unfold v. apply Rmult_le_pos; [lra|]. apply Rlt_le, Rinv_0_lt_compat. lra. }
  assert (Huv : v <= u).
  { unfold u, v, Rdiv. apply Rmult_le_compat_l; [lra|].
    apply Rinv_le_contravar; lra. }
  assert (E1 : forall t, t * S / (D + - rmax) = t * u)
    by (intros t; unfold u, Rdiv, Rminus; ring).
  assert (E2 : forall t, t * S / (D + rmax) = t * v)
    by (intros t; unfold v, Rdiv; ring).
  destruct (Rlt_dec top 0), (Rlt_dec bottom 0); rewrite ?E1, ?E2; nra.
Qed.

Lemma row_of_coordinate_bounds (y lo d_v n : R) :
  0 < d_v -> 1 <= n -> lo <= y <= lo + n * d_v - d_v ->
  0 <= (y + (d_v / 2 - lo)) / d_v - 1 / 2 <= n - 1.
Proof.
  intros Hd Hn Hy.
  replace ((y + (d_v / 2 - lo)) / d_v - 1 / 2) with ((y - lo) / d_v)
    by (field; lra).
  split.
  - apply Rmult_le_pos; [lra|]. apply Rlt_le, Rinv_0_lt_compat, Hd.
  - apply (Rmult_le_reg_r d_v); [exact Hd|].
    unfold Rdiv. rewrite Rmult_assoc, Rinv_l by lra. lra.
Qed.

End IdealFacts.

(** ** Detector rows of a sub-volume *)

Section SubprojectionBorders.
Import Ideal SchedulerGeometry.
Local Open Scope R_scope.

Variable geo : Geometry.
Hypothesis rows_positive : (1 <= det_pixels_row geo)%Z.
Hypothesis pixel_width_positive : 0 < det_pixel_size_horiz geo.
Hypothesis source_off_axis : dist_src geo <> 0.

(** The volume computed from a proper detector: positive voxels, and an
    in-plane radius [r_max] that stays short of the source. *)
Lemma volume_inside_source_orbit :
  let vol_geo := calculate_volume_geo geo in
  0 < voxel_size_x vol_geo /\
  voxel_size_z vol_geo = voxel_size_x vol_geo /\
  (0 <= dim_x vol_geo)%Z /\ (0 <= dim_z vol_geo)%Z /\
  IZR (dim_x vol_geo) * voxel_size_x vol_geo / 2 < Rabs (dist_src geo) /\
  0 < dist_sd_ geo.
Proof.
  cbv zeta. unfold calculate_volume_geo.
  cbn [voxel_size_x voxel_size_z dim_x dim_z].
  set (N_h := IZR (det_pixels_row geo)).
  set (d_h := det_pixel_size_horiz geo) in *.
  set (a := N_h * d_h / 2 + Rabs (det_offset_horiz geo * d_h)).
  assert (HN : 1 <= N_h) by (unfold N_h; now apply IZR_le).
  assert (Ha : 0 < a).
  { unfold a. pose proof (Rabs_pos (det_offset_horiz geo * d_h)). nra. }
  assert (Hsrc : 0 < Rabs (dist_src geo)) by now apply Rabs_pos_lt.
  assert (Hsd : 0 < dist_sd_ geo).
  { unfold dist_sd_. pose proof (Rabs_pos (dist_det geo)). lra. }
  assert (Hx : 0 < a / dist_sd_ geo) by now apply Rdiv_lt_0_compat.
  destruct (sin_atan_bounds _ Hx) as [Hs0 Hs1].
  set (r := Rabs (dist_src geo) * sin (atan (a / dist_sd_ geo))).
  assert (Hr : 0 < r < Rabs (dist_src geo)) by (unfold r; nra).
  assert (Hq : 0 < a / d_h) by now apply Rdiv_lt_0_compat.
  set (vs := r / (a / d_h)).
  assert (Hvs : 0 < vs) by (unfold vs; apply Rdiv_lt_0_compat; lra).
  assert (H2r : 0 <= 2 * r / vs) by (apply Rlt_le, Rdiv_lt_0_compat; lra).
  destruct (to_size_t_below _ H2r) as [Hd0 Hd1].
  split; [exact Hvs|]. split; [reflexivity|]. split; [exact Hd0|].
  split; [apply wrap64_range|]. split; [|exact Hsd].
  assert (Hle : IZR (to_size_t (2 * r / vs)) * vs <= 2 * r).
  { apply Rle_trans with (2 * r / vs * vs); [nra|].
    unfold Rdiv. rewrite Rmult_assoc, Rinv_l by lra. lra. }
  lra.
Qed.

Hypothesis columns_positive : (1 <= det_pixels_column geo < 2 ^ 32)%Z.
Hypothesis pixel_height_positive : 0 < det_pixel_size_vert geo.

(** The rows of one sub-volume. *)
Lemma subprojection_border_bounds (volume_count_ n : Z) :
  is_u32 volume_count_ -> (0 <= n < volume_count_)%Z ->
  let vol_geo := calculate_volume_geo geo in
  let rows := subprojection_border geo vol_geo
                (calculate_volume_height_mm vol_geo) volume_count_ n in
  (0 <= fst rows <= snd rows)%Z /\
  (snd rows <= det_pixels_column geo - 1)%Z.
Proof.
  intros HN Hn vol_geo rows.
  destruct volume_inside_source_orbit
    as (Hvs & Hvz & Hdx & Hdz & Hrmax & Hsd).
  fold vol_geo in Hvs, Hvz, Hdx, Hdz, Hrmax.
  unfold rows, subprojection_border, calculate_volume_height_mm.
  rewrite Hvz.
  set (H := IZR (dim_z vol_geo) * voxel_size_x vol_geo).
  set (d_v := det_pixel_size_vert geo) in *.
  set (delta_v := det_offset_vert geo * d_v).
  set (N_v := IZR (det_pixels_column geo)).
  set (N := IZR volume_count_).
  set (r_max := IZR (dim_x vol_geo) * voxel_size_x vol_geo / 2) in *.
  assert (HH : 0 <= H).
  { unfold H. apply Rmult_le_pos; [now apply IZR_le|lra]. }
  assert (Hr0 : 0 <= r_max).
  { unfold r_max. apply Rmult_le_pos; [|lra].
    apply Rmult_le_pos; [now apply IZR_le|lra]. }
  assert (HNpos : 0 < N) by (unfold N; apply IZR_lt; lia).
  assert (HNv : 1 <= N_v) by (unfold N_v; apply IZR_le; lia).
  unfold is_u32 in HN. rewrite (wrap32_small (n + 1)) by (unfold is_u32; lia).
  set (top := - (H / 2) + IZR n / N * H).
  set (bottom := - (H / 2) + IZR (n + 1) / N * H).
  assert (Htb : top <= bottom).
  { unfold top, bottom. rewrite plus_IZR.
    assert (0 <= / N) by (apply Rlt_le, Rinv_0_lt_compat, HNpos).
    unfold Rdiv. nra. }
  pose proof (virtual_rows_ordered top bottom (dist_sd_ geo)
                (Rabs (dist_src geo)) r_max (Rlt_le _ _ Hsd)
                (conj Hr0 Hrmax) Htb) as Hvirt.
  set (tv := top * dist_sd_ geo
             / (Rabs (dist_src geo) + (if Rlt_dec top 0 then - r_max else r_max))) in *.
  set (bv := bottom * dist_sd_ geo
             / (Rabs (dist_src geo) + (if Rlt_dec bottom 0 then r_max else - r_max))) in *.
  set (tpr := 0 - N_v * d_v / 2 - delta_v + d_v / 2).
  set (bpr := tpr + N_v * d_v - d_v).
  assert (Hreal : tpr <= bpr) by (unfold bpr; nra).
  set (top_proj := if Rgt_dec tv bpr then bpr
                   else if Rlt_dec tv tpr then tpr else tv).
  set (bottom_proj := if Rlt_dec bv tpr then tpr
                      else if Rgt_dec bv bpr then bpr else bv).
  assert (Htp : tpr <= top_proj <= bpr).
  { unfold top_proj. destruct (Rgt_dec tv bpr), (Rlt_dec tv tpr); lra. }
  assert (Hbp : tpr <= bottom_proj <= bpr).
  { unfold bottom_proj. destruct (Rlt_dec bv tpr), (Rgt_dec bv bpr); lra. }
  assert (Hproj : top_proj <= bottom_proj).
  { unfold top_proj, bottom_proj.
    destruct (Rgt_dec tv bpr), (Rlt_dec tv tpr), (Rlt_dec bv tpr),
      (Rgt_dec bv bpr); lra. }
  assert (Hshift : forall y, (y + N_v * d_v / 2 + delta_v) / d_v - 1 / 2
                             = (y + (d_v / 2 - tpr)) / d_v - 1 / 2).
  { intros y. unfold tpr. f_equal. f_equal. lra. }
  rewrite !Hshift.
  set (X := (top_proj + (d_v / 2 - tpr)) / d_v - 1 / 2).
  set (Y := (bottom_proj + (d_v / 2 - tpr)) / d_v - 1 / 2).
  assert (HX : 0 <= X <= N_v - 1).
  { apply row_of_coordinate_bounds; [assumption|assumption|exact Htp]. }
  assert (HY : 0 <= Y <= N_v - 1).
  { apply row_of_coordinate_bounds; [assumption|assumption|exact Hbp]. }
  assert (HXY : X <= Y).
  { unfold X, Y, Rdiv.
    assert (0 <= / d_v) by (apply Rlt_le, Rinv_0_lt_compat; assumption). nra. }
  (* the integer rows *)
  assert (Hfl : (0 <= Zfloor X <= det_pixels_column geo - 1)%Z).
  { split; [apply Zfloor_lub; simpl; lra|].
    apply le_IZR. rewrite minus_IZR. pose proof (Zfloor_bound X). fold N_v. simpl. lra. }
  assert (Hce : (0 <= Zceil Y <= det_pixels_column geo - 1)%Z).
  { pose proof (Zceil_bound Y) as [Hc1 Hc2]. split.
    - apply le_IZR. apply Rnot_lt_le. intros Hneg.
      assert (IZR (Zceil Y) <= -1) by (apply IZR_le; apply lt_IZR in Hneg; lia).
      lra.
    - apply Z.lt_succ_r. apply lt_IZR. unfold Z.succ.
      rewrite plus_IZR, minus_IZR. fold N_v. simpl. lra. }
  assert (Hfc : (Zfloor X <= Zceil Y)%Z).
  { apply le_IZR. pose proof (Zfloor_bound X). pose proof (Zceil_bound Y). lra. }
  unfold floor, ceil.
  destruct (Rlt_dec (IZR (Zfloor X)) 0) as [Hneg|_].
  { apply lt_IZR in Hneg. lia. }
  destruct (Rge_dec (IZR (Zceil Y)) N_v) as [Hbig|_].
  { apply Rge_le in Hbig. unfold N_v in Hbig. apply le_IZR in Hbig. lia. }
  cbn [fst snd]. rewrite !to_uint32_IZR by (unfold is_u32; lia). lia.
Qed.

End SubprojectionBorders.

(** ** Kernel launches *)

Section LaunchFacts.
Context {T K V : Type}.
Variable eqb : K -> K -> bool.
Hypothesis eqb_spec : forall a b, eqb a b = true <-> a = b.

(** A kernel whose thread [th], when its guard holds, rewrites the cell
    [cell th] from the old content of that cell. *)
Variable guard : T -> bool.
Variable cell : T -> K.
Variable f : T -> V -> V.
Variable thread : (K -> V) -> T -> (K -> V).
Hypothesis thread_body : forall mem th,
  thread mem th =
  if guard th then Launch.write eqb mem (cell th) (f th (mem (cell th))) else mem.
Hypothesis cell_injective : forall a b, cell a = cell b -> a = b.

Lemma write_same (mem : K -> V) k v : Launch.write eqb mem k v k = v.
Proof.
  unfold Launch.write. destruct (eqb k k) eqn:E; [reflexivity|].
  assert (eqb k k = true) by now apply eqb_spec. congruence.
Qed.

Lemma write_other (mem : K -> V) k v k' : k <> k' -> Launch.write eqb mem k v k' = mem k'.
Proof.
  intros Hne. unfold Launch.write. destruct (eqb k k') eqn:E; [|reflexivity].
  apply eqb_spec in E. contradiction.
Qed.

(** Cells that belong to no guarded thread of the grid keep their content. *)
Lemma run_untouched (grid : list T) : forall mem k,
  (forall th, In th grid -> guard th = true -> cell th <> k) ->
  Launch.run thread grid mem k = mem k.
Proof.
  unfold Launch.run. induction grid as [|a grid IH]; intros mem k Hk; simpl.
  - reflexivity.
  - rewrite IH by (intros th Hth; apply Hk; now right).
    rewrite thread_body. destruct (guard a) eqn:Ea; [|reflexivity].
    apply write_other. apply Hk; [now left|assumption].
Qed.

(** With every thread in the grid once, the cell of a guarded thread holds
    the new value computed from its old content. *)
Lemma run_thread (grid : list T) : forall mem th,
  NoDup grid -> In th grid -> guard th = true ->
  Launch.run thread grid mem (cell th) = f th (mem (cell th)).
Proof.
  unfold Launch.run. induction grid as [|a grid IH]; intros mem th Hnd Hin Hg.
  - destruct Hin.
  - apply NoDup_cons_iff in Hnd. destruct Hnd as [Hnotin Hnd].
    simpl. destruct Hin as [->|Hin].
    + pose proof (run_untouched grid (thread mem th) (cell th)) as Hu.
      unfold Launch.run in Hu. rewrite Hu.
      * rewrite thread_body, Hg. apply write_same.
      * intros th' Hth' _ Heq. apply cell_injective in Heq. now subst.
    + rewrite IH by assumption. f_equal.
      rewrite thread_body. destruct (guard a); [|reflexivity].
      apply write_other. intros Heq. apply cell_injective in Heq. now subst.
Qed.

End LaunchFacts.

Section Grids.

Lemma NoDup_map_injective {A B} (g : A -> B) (l : list A) :
  (forall x y, g x = g y -> x = y) -> NoDup l -> NoDup (map g l).
Proof.
  intros Hinj. induction 1 as [|x l Hx Hnd IH]; simpl; constructor.
  - rewrite in_map_iff. intros (y & Heq & Hy). apply Hinj in Heq. now subst.
  - exact IH.
Qed.

Lemma NoDup_range n : NoDup (range n).
Proof.
  unfold range. apply NoDup_map_injective; [|apply seq_NoDup].
  intros a b. apply Nat2Z.inj.
Qed.

Lemma NoDup_list_prod {A B} (l1 : list A) (l2 : list B) :
  NoDup l1 -> NoDup l2 -> NoDup (list_prod l1 l2).
Proof.
  intros H1 H2. induction H1 as [|a l1 Ha H1 IH]; simpl; [constructor|].
  apply NoDup_app.
  - apply NoDup_map_injective; [|assumption].
    intros x y Hxy. now injection Hxy.
  - assumption.
  - intros [x y] Hin1 Hin2. apply in_map_iff in Hin1.
    destruct Hin1 as (y' & Heq & _). injection Heq as <- <-.
    apply in_prod_iff in Hin2. tauto.
Qed.

Lemma NoDup_grid2 gx gy : NoDup (Launch.grid2 gx gy).
Proof. apply NoDup_list_prod; apply NoDup_range. Qed.

Lemma in_grid2 gx gy x y :
  In (x, y) (Launch.grid2 gx gy) <-> 0 <= x < gx /\ 0 <= y < gy.
Proof. unfold Launch.grid2. now rewrite in_prod_iff, !in_range. Qed.

Lemma eqb2_spec a b : Launch.eqb2 a b = true <-> a = b.
Proof.
  unfold Launch.eqb2. destruct a as [a1 a2], b as [b1 b2]. simpl.
  rewrite andb_true_iff, !Z.eqb_eq. split.
  - intros [-> ->]. reflexivity.
  - intros H. injection H as -> ->. auto.
Qed.

End Grids.

(** ** The weighting stage *)

Section WeightingStage.
Import Ideal Geometry Weighting.
Local Open Scope R_scope.

Variable round_up : Z -> Z.
Hypothesis round_up_covers : forall n, (n <= round_up n)%Z.

(** One launch of the kernel on a buffer. *)
Lemma weighting_kernel_launch n_row n_col h_min v_min d_sd l_px_row l_px_col
    (buffer : image) (s t : Z) :
  (0 <= s)%Z -> (0 <= t)%Z ->
  Launch.run (weighting_kernel n_row n_col h_min v_min d_sd l_px_row l_px_col)
    (Launch.grid2 (round_up n_row) (round_up n_col)) buffer (t, s)
  = if (s <? n_row)%Z && (t <? n_col)%Z
    then buffer (t, s)
         * (d_sd / sqrt (d_sd ^ 2
                         + (l_px_row / 2 + IZR s * l_px_row + h_min) ^ 2
                         + (l_px_col / 2 + IZR t * l_px_col + v_min) ^ 2))
    else buffer (t, s).
Proof.
  intros Hs Ht.
  set (guard := fun th : Z * Z => (fst th <? n_row)%Z && (snd th <? n_col)%Z).
  set (cell := fun th : Z * Z => (snd th, fst th)).
  set (f := fun (th : Z * Z) (val : R) =>
              val * (d_sd * rsqrtf (powf2 d_sd
                      + powf2 (l_px_row / 2 + IZR (fst th) * l_px_row + h_min)
                      + powf2 (l_px_col / 2 + IZR (snd th) * l_px_col + v_min)))).
  assert (Hbody : forall mem th,
            weighting_kernel n_row n_col h_min v_min d_sd l_px_row l_px_col mem th
            = if guard th
              then Launch.write Launch.eqb2 mem (cell th) (f th (mem (cell th)))
              else mem) by reflexivity.
  assert (Hinj : forall a b : Z * Z, cell a = cell b -> a = b).
  { intros [a1 a2] [b1 b2] H. unfold cell in H. simpl in H. congruence. }
  destruct ((s <? n_row)%Z && (t <? n_col)%Z) eqn:Hg.
  - apply andb_true_iff in Hg. destruct Hg as [Hsn Htn].
    apply Z.ltb_lt in Hsn, Htn.
    rewrite (run_thread Launch.eqb2 eqb2_spec guard cell f _ Hbody Hinj
               _ buffer (s, t)).
    + reflexivity.
    + apply NoDup_grid2.
    + apply in_grid2. pose proof (round_up_covers n_row).
      pose proof (round_up_covers n_col). lia.
    + unfold guard. simpl. apply andb_true_iff. now rewrite !Z.ltb_lt.
  - apply (run_untouched Launch.eqb2 eqb2_spec guard cell f _ Hbody).
    intros [s' t'] _ Hg' Heq. unfold cell in Heq. simpl in Heq.
    injection Heq as -> ->. unfold guard in Hg'. simpl in Hg'. congruence.
Qed.

(** The stage forwards the weighted projections in order and then the
    end-of-stream marker. *)
Lemma run_until_sentinel (st : stage) (ps : list projection) q rest :
  Forall (fun p => valid p = true) ps -> valid q = false ->
  run round_up st (ps ++ q :: rest) = map (weight round_up st) ps ++ [sentinel].
Proof.
  intros Hps Hq. induction Hps as [|p ps Hp _ IH]; simpl.
  - now rewrite Hq.
  - now rewrite Hp, IH.
Qed.

End WeightingStage.

(** C2.  The stage, set up by [assign_task] for a detector geometry, turns
    the projections that arrive before the end-of-stream marker into their
    weighted versions, in order.  In every projection of the detector's
    size, pixel [(s, t)] with [s < n_row] and [t < n_col] is multiplied by
    [d_sd / sqrt (d_sd^2 + h_s^2 + v_t^2)] and every other pixel keeps its
    value.  [float] arithmetic is taken as exact. *)
Theorem weighting_stage_weights_every_pixel (round_up : Z -> Z)
    (det_geo : Geometry.detector_geometry)
    (ps : list Weighting.projection) (q : Weighting.projection)
    (rest : list Weighting.projection) :
  (forall n, n <= round_up n) ->
  Forall (fun p => Weighting.valid p = true /\
                   Weighting.width p = Geometry.n_row det_geo /\
                   Weighting.height p = Geometry.n_col det_geo) ps ->
  Weighting.valid q = false ->
  let st := Weighting.assign_task det_geo in
  Weighting.run round_up st (ps ++ q :: rest)
  = map (Weighting.weight round_up st) ps ++ [Weighting.sentinel] /\
  forall p, In p ps -> forall s t, 0 <= s -> 0 <= t ->
    Weighting.ptr (Weighting.weight round_up st p) (t, s)
    = if (s <? Geometry.n_row det_geo) && (t <? Geometry.n_col det_geo)
      then (Weighting.ptr p (t, s) * Weighting.cosine_weight det_geo s t)%R
      else Weighting.ptr p (t, s).
Proof.
  intros Hround Hps Hq st. split.
  - apply run_until_sentinel; [|exact Hq].
    eapply Forall_impl; [|exact Hps]. intros p Hp. apply Hp.
  - intros p Hp s t Hs Ht.
    rewrite Forall_forall in Hps. destruct (Hps p Hp) as (_ & Hw & Hh).
    unfold Weighting.weight. cbn [Weighting.ptr].
    rewrite (weighting_kernel_launch round_up Hround) by assumption.
    rewrite Hw, Hh. reflexivity.
Qed.

Lemma weighting_stage_weights_every_pixel_witness :
  let det_geo := Geometry.s1_geometry in
  let p := {| Weighting.ptr := fun _ => 1%R; Weighting.width := 32;
              Weighting.height := 32; Weighting.valid := true |} in
  let st := Weighting.assign_task det_geo in
  Weighting.run (fun n => n) st ([p] ++ Weighting.sentinel :: [])
  = map (Weighting.weight (fun n => n) st) [p] ++ [Weighting.sentinel] /\
  forall p0, In p0 [p] -> forall s t, 0 <= s -> 0 <= t ->
    Weighting.ptr (Weighting.weight (fun n => n) st p0) (t, s)
    = if (s <? Geometry.n_row det_geo) && (t <? Geometry.n_col det_geo)
      then (Weighting.ptr p0 (t, s) * Weighting.cosine_weight det_geo s t)%R
      else Weighting.ptr p0 (t, s).
Proof.
  intros det_geo p st.
  apply (weighting_stage_weights_every_pixel (fun n => n) det_geo [p]
           Weighting.sentinel []).
  - intros n. lia.
  - constructor; [|constructor]. simpl. repeat split; reflexivity.
  - reflexivity.
Defined.

(** The first implementation, [CUDAWeighting], runs the same kernel; its
    constructor lets the detector offset enter [h_min] and [v_min] with
    the opposite sign, so the two agree when the offsets are mirrored. *)
Lemma CUDAWeighting_offset_mirrored (geo : SchedulerGeometry.Geometry)
    (det_geo : Geometry.detector_geometry) :
  SchedulerGeometry.det_pixels_row geo = Geometry.n_row det_geo ->
  SchedulerGeometry.det_pixels_column geo = Geometry.n_col det_geo ->
  SchedulerGeometry.det_pixel_size_horiz geo = Geometry.l_px_row det_geo ->
  SchedulerGeometry.det_pixel_size_vert geo = Geometry.l_px_col det_geo ->
  SchedulerGeometry.det_offset_horiz geo = (- Geometry.delta_s det_geo)%R ->
  SchedulerGeometry.det_offset_vert geo = (- Geometry.delta_t det_geo)%R ->
  CUDAWeighting.h_min_ geo = Weighting.h_min_ (Weighting.assign_task det_geo) /\
  CUDAWeighting.v_min_ geo = Weighting.v_min_ (Weighting.assign_task det_geo).
Proof.
  intros Hr Hc Hh Hv Hos Hot.
  unfold CUDAWeighting.h_min_, CUDAWeighting.v_min_, Weighting.assign_task.
  cbn [Weighting.h_min_ Weighting.v_min_].
  rewrite Hr, Hc, Hh, Hv, Hos, Hot. split; ring.
Qed.



(** ** Scenario S1: the smallest plan *)

Section SmallestPlan.
Import Ideal Roi Geometry.
Local Open Scope R_scope.

(** The radius of the reconstructed cylinder for S1 is [8 / sqrt 1.0064],
    a little less than 8 mm. *)
Lemma s1_radius :
  let r := 100 * sin (atan (16 / 200)) in
  0 < r /\ 32 <= 256 / r < 33.
Proof.
  cbv zeta. rewrite sin_atan.
  set (q := sqrt (1 + (16 / 200)²)).
  assert (Hq1 : 1 <= q).
  { unfold q. rewrite <- sqrt_1 at 1. apply sqrt_le_1_alt.
    pose proof (Rle_0_sqr (16 / 200)). lra. }
  assert (Hq2 : q < 33 / 32).
  { unfold q. rewrite <- (sqrt_Rsqr (33 / 32)) by lra.
    apply sqrt_lt_1_alt. unfold Rsqr. lra. }
  assert (Hr : 100 * (16 / 200 / q) = 8 / q) by (field; lra).
  rewrite Hr.
  assert (Hinv : 256 / (8 / q) = 32 * q) by (field; lra).
  rewrite Hinv.
  split; [apply Rdiv_lt_0_compat; lra|lra].
Qed.

Lemma to_uint32_floor x z :
  (0 <= z < 2 ^ 32)%Z -> IZR z <= x < IZR z + 1 -> to_uint32 x = z.
Proof.
  intros Hz Hx. unfold to_uint32, truncate.
  assert (0 <= IZR z) by (apply IZR_le; lia).
  destruct (Rle_dec 0 x); [|lra].
  rewrite (Zfloor_eq z x Hx). now apply wrap32_small.
Qed.

(** The volume of scenario S1 is 32 voxels wide, deep and high. *)
Lemma s1_volume_dimensions :
  let vol_geo := make_volume_geometry s1_geometry in
  dim_x vol_geo = 32%Z /\ dim_y vol_geo = 32%Z /\ dim_z vol_geo = 32%Z.
Proof.
  cbv zeta. unfold make_volume_geometry, s1_geometry.
  cbn [dim_x dim_y dim_z n_row n_col l_px_row l_px_col delta_s delta_t d_so d_od].
  rewrite Rmult_0_l, Rabs_R0, (Rabs_right 100) by lra.
  replace (32 * 1 / 2 + 0) with 16 by lra.
  replace (100 + 100) with 200 by lra.
  destruct s1_radius as (Hr & Hz). cbv zeta in Hr, Hz.
  set (r := 100 * sin (atan (16 / 200))) in *.
  assert (Hx : 2 * r / (r / (16 / 1)) = 32) by (field; lra).
  assert (Hzz : 16 * (100 / 200) * (2 / (r / (16 / 1))) = 256 / r)
    by (field; lra).
  rewrite Hx, Hzz.
  assert (Hdx : to_uint32 32 = 32%Z).
  { apply to_uint32_floor; [lia|]. simpl. lra. }
  assert (Hdz : to_uint32 (256 / r) = 32%Z).
  { apply to_uint32_floor; [lia|]. simpl. lra. }
  rewrite Hdx, Hdz. repeat split; reflexivity.
Qed.

Lemma to_size_t_floor x z :
  (0 <= z < 2 ^ 64)%Z -> IZR z <= x < IZR z + 1 -> to_size_t x = z.
Proof.
  intros Hz Hx. unfold to_size_t, truncate.
  assert (0 <= IZR z) by (apply IZR_le; lia).
  destruct (Rle_dec 0 x); [|lra].
  rewrite (Zfloor_eq z x Hx). now apply wrap64_small.
Qed.

(** The scheduler's own [calculate_volume_geo] gives the same 32 voxels
    per axis for the S1 detector. *)
Lemma s1_volume_dimensions_scheduler :
  let geo := {| SchedulerGeometry.det_pixels_row := 32;
                SchedulerGeometry.det_pixels_column := 32;
                SchedulerGeometry.det_pixel_size_horiz := 1;
                SchedulerGeometry.det_pixel_size_vert := 1;
                SchedulerGeometry.det_offset_horiz := 0;
                SchedulerGeometry.det_offset_vert := 0;
                SchedulerGeometry.dist_src := 100;
                SchedulerGeometry.dist_det := 100 |} in
  let vol_geo := SchedulerGeometry.calculate_volume_geo geo in
  SchedulerGeometry.dim_x vol_geo = 32%Z /\
  SchedulerGeometry.dim_y vol_geo = 32%Z /\
  SchedulerGeometry.dim_z vol_geo = 32%Z.
Proof.
  cbv zeta.
  unfold SchedulerGeometry.calculate_volume_geo, SchedulerGeometry.dist_sd_.
  cbn [SchedulerGeometry.dim_x SchedulerGeometry.dim_y SchedulerGeometry.dim_z
       SchedulerGeometry.det_pixels_row SchedulerGeometry.det_pixels_column
       SchedulerGeometry.det_pixel_size_horiz
       SchedulerGeometry.det_pixel_size_vert
       SchedulerGeometry.det_offset_horiz SchedulerGeometry.det_offset_vert
       SchedulerGeometry.dist_src SchedulerGeometry.dist_det].
  rewrite Rmult_0_l, Rabs_R0, (Rabs_right 100) by lra.
  replace (32 * 1 / 2 + 0) with 16 by lra.
  replace (100 + 100) with 200 by lra.
  destruct s1_radius as (Hr & Hz). cbv zeta in Hr, Hz.
  set (r := 100 * sin (atan (16 / 200))) in *.
  assert (Hx : 2 * r / (r / (16 / 1)) = 32) by (field; lra).
  assert (Hzz : 16 * (100 / 200) * (2 / (r / (16 / 1))) = 256 / r)
    by (field; lra).
  rewrite Hx, Hzz.
  assert (Hdx : to_size_t 32 = 32%Z).
  { apply to_size_t_floor; [lia|]. simpl. lra. }
  assert (Hdz : to_size_t (256 / r) = 32%Z).
  { apply to_size_t_floor; [lia|]. simpl. lra. }
  rewrite Hdx, Hdz. repeat split; reflexivity.
Qed.

End SmallestPlan.

(** ** Bilinear interpolation on binary32 *)

Section Interpolation.
Import Float32 Backprojection.

(** A value that is NaN or a zero of either sign. *)
Lemma fmul_zero_r x s :
  is_nan (fmul x (S754_zero s)) || is_zero (fmul x (S754_zero s)) = true.
Proof. destruct x; reflexivity. Qed.

Lemma fmul_nan_or_zero_l x y :
  is_nan x || is_zero x = true ->
  is_nan (fmul x y) || is_zero (fmul x y) = true.
Proof. destruct x, y; try discriminate; reflexivity. Qed.

Lemma fmul_nan_or_zero_r x y :
  is_nan y || is_zero y = true ->
  is_nan (fmul x y) || is_zero (fmul x y) = true.
Proof. destruct x, y; try discriminate; reflexivity. Qed.

Lemma fadd_nan_or_zero x y :
  is_nan x || is_zero x = true -> is_nan y || is_zero y = true ->
  is_nan (fadd x y) || is_zero (fadd x y) = true.
Proof.
  destruct x as [sx|sx| |sx mx ex], y as [sy|sy| |sy my ey];
    try discriminate; try reflexivity.
  intros _ _. destruct sx, sy; reflexivity.
Qed.

(** Adding a NaN-or-zero value to [+0.0f] gives NaN or [+0.0f]. *)
Lemma fadd_zero_nan_or_zero y :
  is_nan y || is_zero y = true ->
  fadd zero y = zero \/ fadd zero y = S754_nan.
Proof.
  destruct y as [sy|sy| |sy my ey]; try discriminate; intros _.
  - left. destruct sy; reflexivity.
  - right. reflexivity.
Qed.

(** With all four corner values zero the interpolation is NaN or zero,
    whatever the weights. *)
Lemma weighted_sum_of_zeros a b c d tl bl tr br :
  is_zero tl = true -> is_zero bl = true -> is_zero tr = true ->
  is_zero br = true ->
  let val := fadd (fadd (fadd (fmul a tl) (fmul b bl)) (fmul c tr)) (fmul d br) in
  is_nan val || is_zero val = true.
Proof.
  intros Htl Hbl Htr Hbr val. unfold val.
  assert (Hz : forall w z, is_zero z = true ->
                           is_nan (fmul w z) || is_zero (fmul w z) = true).
  { intros w z Hzz. apply fmul_nan_or_zero_r. now rewrite Hzz, orb_true_r. }
  repeat apply fadd_nan_or_zero; now apply Hz.
Qed.

(** The bounds checks at work: a sample none of whose four corner pixels
    lies on the detector reads no pixel, and its value is NaN or zero. *)
Lemma interpolate_outside_detector h v (proj : projection) proj_width proj_height
    pixel_size_x pixel_size_y offset_x offset_y :
  footprint_inside h v proj_width proj_height
    pixel_size_x pixel_size_y offset_x offset_y = false ->
  let val := interpolate h v proj proj_width proj_height
               pixel_size_x pixel_size_y offset_x offset_y in
  is_nan val || is_zero val = true.
Proof.
  unfold footprint_inside, interpolate. cbv zeta.
  set (h_real := proj_real_coordinate h proj_width pixel_size_x offset_x).
  set (v_real := proj_real_coordinate v proj_height pixel_size_y offset_y).
  set (h0 := fleb zero (floorf h_real) && fltb (floorf h_real) (of_Z proj_width)).
  set (h1 := fleb zero (ceilf h_real) && fltb (ceilf h_real) (of_Z proj_width)).
  set (v0 := fleb zero (floorf v_real) && fltb (floorf v_real) (of_Z proj_height)).
  set (v1 := fleb zero (ceilf v_real) && fltb (ceilf v_real) (of_Z proj_height)).
  intros Hout.
  apply weighted_sum_of_zeros;
    destruct h0, h1, v0, v1; try discriminate Hout; reflexivity.
Qed.

(** An all-zero projection interpolates to NaN or zero everywhere. *)
Lemma interpolate_zero_projection h v proj_width proj_height
    pixel_size_x pixel_size_y offset_x offset_y :
  let val := interpolate h v (fun _ _ => zero) proj_width proj_height
               pixel_size_x pixel_size_y offset_x offset_y in
  is_nan val || is_zero val = true.
Proof.
  unfold interpolate. cbv zeta.
  apply weighted_sum_of_zeros;
    match goal with |- is_zero (if ?c then _ else _) = true => destruct c end;
    reflexivity.
Qed.

(** C4: what the code does.  On a 4 x 4 detector with unit pixels the sample
    [h = v = -2.5] has the detector coordinates [(-1, -1)]: its footprint is
    off the detector, no pixel is read, and the result is NaN, the weight
    [(h_real - floor h_real) / (ceil h_real - floor h_real)] being [0 / 0]. *)
Theorem interpolate_integral_sample_off_detector (proj : projection) :
  let h := dyadic (-5) (-1) in
  proj_real_coordinate h 4 one zero = of_Z (-1) /\
  footprint_inside h h 4 4 one one zero zero = false /\
  interpolate h h proj 4 4 one one zero zero = S754_nan.
Proof. repeat split; vm_compute; reflexivity. Qed.

(** The same weight spoils samples on the detector: the pixel centre
    [(1, 1)] of an all-ones projection interpolates to NaN. *)
Lemma interpolate_pixel_centre_nan :
  let h := dyadic (-1) (-1) in
  proj_real_coordinate h 4 one zero = one /\
  interpolate h h (fun _ _ => one) 4 4 one one zero zero = S754_nan.
Proof. split; vm_compute; reflexivity. Qed.

(** Between the pixel centres the interpolation does what it should. *)
Lemma interpolate_between_pixels :
  interpolate (dyadic 1 (-2)) (dyadic 1 (-2)) (fun _ _ => one) 4 4
    one one zero zero = one /\
  interpolate (dyadic (-9) (-2)) (dyadic (-9) (-2)) (fun _ _ => one) 4 4
    one one zero zero = dyadic 1 (-4) /\
  interpolate (dyadic (-15) (-2)) (dyadic (-15) (-2)) (fun _ _ => one) 4 4
    one one zero zero = zero.
Proof. repeat split; vm_compute; reflexivity. Qed.

End Interpolation.

(** ** Back-projection of an all-zero projection *)

Section ZeroProjection.
Import Float32 Backprojection.

Variable powf : float -> float -> float.

Lemma eqb3_spec a b : Launch.eqb3 a b = true <-> a = b.
Proof.
  unfold Launch.eqb3. destruct a as [a12 a3], b as [b12 b3]. simpl.
  rewrite andb_true_iff, eqb2_spec, Z.eqb_eq. split.
  - intros [-> ->]. reflexivity.
  - intros H. injection H as -> ->. auto.
Qed.

Lemma NoDup_grid3 gx gy gz : NoDup (Launch.grid3 gx gy gz).
Proof. apply NoDup_list_prod; [apply NoDup_grid2|apply NoDup_range]. Qed.

Lemma in_grid3 gx gy gz k l m :
  In (k, l, m) (Launch.grid3 gx gy gz)
  <-> 0 <= k < gx /\ 0 <= l < gy /\ 0 <= m < gz.
Proof.
  unfold Launch.grid3. rewrite in_prod_iff, in_grid2, in_range. tauto.
Qed.

(** The update of one voxel that holds [+0.0f]: with an all-zero projection
    the new value is [+0.0f] or NaN, whatever [powf] returns. *)
Lemma backproject_voxel_zero_projection (g : launch_geometry) k l m :
  let new := backproject_voxel powf g (fun _ _ => zero) zero k l m in
  new = zero \/ new = S754_nan.
Proof.
  cbv zeta. unfold backproject_voxel.
  apply fadd_zero_nan_or_zero.
  apply fmul_nan_or_zero_l, fmul_nan_or_zero_r.
  apply interpolate_zero_projection.
Qed.

(** The two launches on a fresh sub-volume, voxel by voxel. *)
Lemma backproject_one_voxel (round_up : Z -> Z) (g : launch_geometry)
    (garbage : volume) (proj : projection) k l m :
  (forall n, n <= round_up n) ->
  0 <= k < vol_w g -> 0 <= l < vol_h g -> 0 <= m < vol_d g ->
  backproject_one powf round_up g garbage proj (k, l, m)
  = backproject_voxel powf g proj zero k l m.
Proof.
  intros Hround Hk Hl Hm. unfold backproject_one. cbv zeta.
  set (grid := Launch.grid3 (round_up (vol_w g)) (round_up (vol_h g))
                 (round_up (vol_d g))).
  set (guard := fun th : Z * Z * Z =>
                  (fst (fst th) <? vol_w g) && (snd (fst th) <? vol_h g)
                  && (snd th <? vol_d g)).
  assert (Hin : In (k, l, m) grid).
  { apply in_grid3. pose proof (Hround (vol_w g)). pose proof (Hround (vol_h g)).
    pose proof (Hround (vol_d g)). lia. }
  assert (Hg : guard (k, l, m) = true).
  { unfold guard. simpl. rewrite !andb_true_iff, !Z.ltb_lt. lia. }
  rewrite (run_thread Launch.eqb3 eqb3_spec guard (fun th => th)
             (fun th old => backproject_voxel powf g proj old
                              (fst (fst th)) (snd (fst th)) (snd th))
             (backproject powf g proj) (fun _ _ => eq_refl) (fun _ _ H => H)
             grid _ (k, l, m) (NoDup_grid3 _ _ _) Hin Hg).
  cbv beta. cbn [fst snd].
  pose proof (run_thread Launch.eqb3 eqb3_spec guard (fun th => th)
             (fun _ _ => zero)
             (init_volume (vol_w g) (vol_h g) (vol_d g)) (fun _ _ => eq_refl)
             (fun _ _ H => H)
             grid garbage (k, l, m) (NoDup_grid3 _ _ _) Hin Hg) as Hinit.
  cbv beta in Hinit.
  apply (f_equal (fun r => backproject_voxel powf g proj r k l m)).
  exact Hinit.
Qed.

End ZeroProjection.

(** ** Scenario S1 in binary32 *)

Section ZeroVolumeFacts.
Import Float32 FloatClass Backprojection ZeroVolume.

Lemma float_eqb_eq x y : float_eqb x y = true -> x = y.
Proof.
  destruct x as [a|a| |a m e], y as [b|b| |b m' e']; simpl; try discriminate.
  - intros H. apply Bool.eqb_prop in H. now subst.
  - intros H. apply Bool.eqb_prop in H. now subst.
  - reflexivity.
  - rewrite !andb_true_iff. intros [[Hs Hm] He].
    apply Bool.eqb_prop in Hs. apply Pos.eqb_eq in Hm. apply Z.eqb_eq in He.
    now subst.
Qed.

Lemma fmul_finite_zero p :
  non_finite p = false -> is_zero (fmul p zero) = true.
Proof. destruct p; try discriminate; reflexivity. Qed.

Lemma fadd_zeros a b :
  is_zero a = true -> is_zero b = true -> is_zero (fadd a b) = true.
Proof.
  destruct a as [sa|sa| |sa ma ea], b as [sb|sb| |sb mb eb]; try discriminate.
  intros _ _. destruct sa, sb; reflexivity.
Qed.

Lemma weighted_zero_is_zero wh wv :
  products_finite wh wv = true -> is_zero (weighted_zero wh wv) = true.
Proof.
  unfold products_finite, weighted_zero. rewrite !andb_true_iff, !negb_true_iff.
  intros [[[H1 H2] H3] H4].
  repeat apply fadd_zeros; now apply fmul_finite_zero.
Qed.

(** With an all-zero projection [interpolate] is the weighted sum of four
    zeros. *)
Lemma interpolate_zero_weights h v proj_width proj_height
    pixel_size_x pixel_size_y offset_x offset_y :
  interpolate h v (fun _ _ => zero) proj_width proj_height
    pixel_size_x pixel_size_y offset_x offset_y
  = weighted_zero (axis_weights h proj_width pixel_size_x offset_x)
      (axis_weights v proj_height pixel_size_y offset_y).
Proof.
  unfold interpolate, weighted_zero, axis_weights. cbv beta zeta. cbn [fst snd].
  repeat match goal with
         | |- context [if ?c then zero else zero] =>
             replace (if c then zero else zero) with zero by (destruct c; reflexivity)
         end.
  reflexivity.
Qed.

Lemma voxel_update_zero det q :
  is_zero det = true -> non_finite q = false ->
  fadd zero (fmul (fmul half det) q) = zero.
Proof.
  destruct det as [s| | |]; try discriminate. intros _.
  destruct q as [sq|sq| |sq mq eq]; try discriminate; intros _;
    destruct s; try destruct sq; reflexivity.
Qed.

Lemma backproject_voxel_shape powf (g : launch_geometry) proj row_k k l m :
  backproject_voxel powf g proj row_k k l m
  = fadd row_k
      (fmul
         (fmul half
            (interpolate
               (fmul (t_of g k l)
                  (fdiv (dist_sd g) (fsub (s_of g k l) (dist_src g))))
               (fmul (vol_centered_coordinate m (vol_d g) (voxel_size_z g))
                  (fdiv (dist_sd g) (fsub (s_of g k l) (dist_src g))))
               proj (proj_w g) (proj_h g) (pixel_size_x g) (pixel_size_y g)
               (pixel_offset_x g) (pixel_offset_y g)))
         (powf (fdiv (dist_src g) (fsub (s_of g k l) (dist_src g))) two)).
Proof. reflexivity. Qed.

(** A volume that passes the check is left at [+0.0f] by an all-zero
    projection, for every [powf] that is finite on [-2, 2]. *)
Lemma checked_volume_stays_zero powf (g : launch_geometry) :
  volume_ok g = true ->
  (forall x, fleb (of_Z (-2)) x = true -> fleb x two = true ->
             non_finite (powf x two) = false) ->
  forall k l m, 0 <= k < vol_w g -> 0 <= l < vol_h g -> 0 <= m < vol_d g ->
  backproject_voxel powf g (fun _ _ => zero) zero k l m = zero.
Proof.
  intros Hok Hpow k l m Hk Hl Hm.
  unfold volume_ok in Hok. rewrite forallb_forall in Hok.
  specialize (Hok k ltac:(apply in_range; exact Hk)).
  unfold plane_ok in Hok. cbv zeta in Hok.
  apply andb_true_iff in Hok. destruct Hok as [Hok Hprod].
  apply andb_true_iff in Hok. destruct Hok as [Hs Hu].
  apply andb_true_iff in Hu. destruct Hu as [Hu1 Hu2].
  rewrite forallb_forall in Hs.
  pose proof (float_eqb_eq _ _ (Hs l ltac:(apply in_range; exact Hl))) as Hsl.
  rewrite forallb_forall in Hprod.
  rewrite backproject_voxel_shape, Hsl, interpolate_zero_weights.
  apply voxel_update_zero.
  - apply weighted_zero_is_zero.
    apply (Hprod (axis_weights
                    (fmul (t_of g k l)
                       (fdiv (dist_sd g) (fsub (s_of g k 0) (dist_src g))))
                    (proj_w g) (pixel_size_x g) (pixel_offset_x g),
                  axis_weights
                    (fmul (vol_centered_coordinate m (vol_d g) (voxel_size_z g))
                       (fdiv (dist_sd g) (fsub (s_of g k 0) (dist_src g))))
                    (proj_h g) (pixel_size_y g) (pixel_offset_y g))).
    apply in_prod.
    + apply in_map_iff. exists l. split; [reflexivity|now apply in_range].
    + apply in_map_iff. exists m. split; [reflexivity|now apply in_range].
  - now apply Hpow.
Qed.

(** The library enters the geometry of S1 through one value. *)
Lemma s1_geometry_library (atanf sinf : float -> float) sin_alpha :
  sinf (atanf (fdiv (of_Z 16) (of_Z 200))) = sin_alpha ->
  SchedulerFloat.calculate_volume_geo atanf sinf SchedulerFloat.s1_geometry
  = SchedulerFloat.calculate_volume_geo (fun x => x) (fun _ => sin_alpha)
      SchedulerFloat.s1_geometry /\
  GeometryFloat.make_volume_geometry atanf sinf GeometryFloat.s1_geometry
  = GeometryFloat.make_volume_geometry (fun x => x) (fun _ => sin_alpha)
      GeometryFloat.s1_geometry.
Proof.
  intros Hsin.
  unfold SchedulerFloat.calculate_volume_geo, GeometryFloat.make_volume_geometry.
  cbv beta zeta.
  repeat match goal with
         | |- context [atanf ?e] =>
             lazymatch e with
             | fdiv (of_Z 16) (of_Z 200) => fail
             | _ => change e with (fdiv (of_Z 16) (of_Z 200))
             end
         end.
  rewrite Hsin. split; reflexivity.
Qed.

(** The check of S1 for the values within two units in the last place of
    [sin(atan(16 / 200))]. *)
Lemma s1_checked :
  forallb (fun m => s1_ok (S754_finite false m (-27)))
    [10703220; 10703221; 10703222; 10703223; 10703224]%positive = true.
Proof. vm_compute. reflexivity. Qed.

End ZeroVolumeFacts.

(** C8 (as amended).  For the detector of scenario S1 the volume geometry
    is 32 x 32 x 32 voxels: by the formulae over exact numbers, and by
    [make_volume_geometry] and the scheduler's [calculate_volume_geo] in
    binary32 for every library whose [sin(atan(16 / 200))] is within two
    units in the last place of the true value.  Back-projecting one
    all-zero projection at the angle 0 onto the freshly created volume
    leaves exactly [+0.0f] in every voxel (binary32 arithmetic, [sin 0 = 0]
    and [cos 0 = 1] in the angle table, any [powf] that is finite on
    [-2, 2]). *)
Theorem smallest_plan_stays_zero
    (atanf sinf cosf : Float32.float -> Float32.float)
    (powf : Float32.float -> Float32.float -> Float32.float)
    (round_up : Z -> Z) (garbage : Backprojection.volume) (mantissa : positive) :
  (forall n, n <= round_up n) ->
  sinf (atanf (Float32.fdiv (Float32.of_Z 16) (Float32.of_Z 200)))
  = S754_finite false mantissa (-27) ->
  10703220 <= Zpos mantissa <= 10703224 ->
  sinf Float32.zero = Float32.zero ->
  cosf Float32.zero = Float32.one ->
  (forall x, Float32.fleb (Float32.of_Z (-2)) x = true ->
             Float32.fleb x Float32.two = true ->
             FloatClass.non_finite (powf x Float32.two) = false) ->
  let exact := Geometry.make_volume_geometry Geometry.s1_geometry in
  let paris :=
    GeometryFloat.make_volume_geometry atanf sinf GeometryFloat.s1_geometry in
  let vol_geo :=
    SchedulerFloat.calculate_volume_geo atanf sinf SchedulerFloat.s1_geometry in
  let g :=
    SchedulerFloat.launch_geometry_of SchedulerFloat.s1_geometry vol_geo
      (SchedulerFloat.dim_z vol_geo) 32 32
      (sinf Float32.zero) (cosf Float32.zero) in
  let out := Backprojection.backproject_one powf round_up g garbage
               (fun _ _ => Float32.zero) in
  (Roi.dim_x exact, Roi.dim_y exact, Roi.dim_z exact) = (32, 32, 32) /\
  (Roi.dim_x paris, Roi.dim_y paris, Roi.dim_z paris) = (32, 32, 32) /\
  (SchedulerFloat.dim_x vol_geo, SchedulerFloat.dim_y vol_geo,
   SchedulerFloat.dim_z vol_geo) = (32, 32, 32) /\
  forall k l m, 0 <= k < 32 -> 0 <= l < 32 -> 0 <= m < 32 ->
    out (k, l, m) = Float32.zero.
Proof.
  intros Hround Hsin Hm Hsin0 Hcos0 Hpow exact paris vol_geo g out.
  assert (Hin : In mantissa
                  [10703220; 10703221; 10703222; 10703223; 10703224]%positive).
  { assert (Hc : Zpos mantissa = 10703220 \/ Zpos mantissa = 10703221 \/
                 Zpos mantissa = 10703222 \/ Zpos mantissa = 10703223 \/
                 Zpos mantissa = 10703224) by lia.
    destruct Hc as [E|[E|[E|[E|E]]]]; injection E as ->; simpl; auto 6. }
  pose proof s1_checked as Hall. rewrite forallb_forall in Hall.
  specialize (Hall mantissa Hin). unfold ZeroVolume.s1_ok in Hall.
  cbv zeta in Hall.
  destruct (s1_geometry_library atanf sinf _ Hsin) as [Hsched Hparis].
  fold vol_geo in Hsched. fold paris in Hparis.
  rewrite <- Hsched, <- Hparis in Hall.
  rewrite !andb_true_iff, !Z.eqb_eq in Hall.
  destruct Hall as [[[[[[Hpx Hpy] Hpz] Hx] Hy] Hz] Hok].
  split; [|split; [|split]].
  - destruct s1_volume_dimensions as (Ex & Ey & Ez). fold exact in Ex, Ey, Ez.
    now rewrite Ex, Ey, Ez.
  - now rewrite Hpx, Hpy, Hpz.
  - now rewrite Hx, Hy, Hz.
  - intros k l m Hk Hl Hm'. unfold out.
    assert (Hg : g = SchedulerFloat.launch_geometry_of SchedulerFloat.s1_geometry
                       vol_geo (SchedulerFloat.dim_z vol_geo) 32 32
                       Float32.zero Float32.one)
      by (unfold g; now rewrite Hsin0, Hcos0).
    rewrite <- Hg in Hok.
    assert (Hw : Backprojection.vol_w g = 32) by (rewrite Hg; exact Hx).
    assert (Hh : Backprojection.vol_h g = 32) by (rewrite Hg; exact Hy).
    assert (Hd : Backprojection.vol_d g = 32) by (rewrite Hg; exact Hz).
    rewrite backproject_one_voxel by (assumption || lia).
    apply (checked_volume_stays_zero powf g Hok Hpow); lia.
Qed.

(** C8 as stated fails: the formulae give 32 voxels per axis for S1, twice
    the 16 the scenario expects. *)
Lemma s1_volume_is_not_16_cubed :
  let vol_geo := Geometry.make_volume_geometry Geometry.s1_geometry in
  (Roi.dim_x vol_geo, Roi.dim_y vol_geo, Roi.dim_z vol_geo) = (32, 32, 32) /\
  Z.abs (Roi.dim_x vol_geo - 16) = 16 /\
  Z.abs (Roi.dim_y vol_geo - 16) = 16 /\
  Z.abs (Roi.dim_z vol_geo - 16) = 16.
Proof.
  cbv zeta. destruct s1_volume_dimensions as (-> & -> & ->).
  repeat split; reflexivity.
Qed.

Lemma smallest_plan_stays_zero_witness :
  let atanf := fun x : Float32.float => x in
  let sinf := fun x : Float32.float =>
                if Float32.is_zero x then Float32.zero
                else S754_finite false 10703222 (-27) in
  let cosf := fun _ : Float32.float => Float32.one in
  let powf := fun _ _ : Float32.float => Float32.one in
  let round_up := fun n => 16 * ((n + 15) / 16) in
  let garbage : Backprojection.volume := fun _ => Float32.one in
  let exact := Geometry.make_volume_geometry Geometry.s1_geometry in
  let paris :=
    GeometryFloat.make_volume_geometry atanf sinf GeometryFloat.s1_geometry in
  let vol_geo :=
    SchedulerFloat.calculate_volume_geo atanf sinf SchedulerFloat.s1_geometry in
  let g :=
    SchedulerFloat.launch_geometry_of SchedulerFloat.s1_geometry vol_geo
      (SchedulerFloat.dim_z vol_geo) 32 32
      (sinf Float32.zero) (cosf Float32.zero) in
  let out := Backprojection.backproject_one powf round_up g garbage
               (fun _ _ => Float32.zero) in
  (Roi.dim_x exact, Roi.dim_y exact, Roi.dim_z exact) = (32, 32, 32) /\
  (Roi.dim_x paris, Roi.dim_y paris, Roi.dim_z paris) = (32, 32, 32) /\
  (SchedulerFloat.dim_x vol_geo, SchedulerFloat.dim_y vol_geo,
   SchedulerFloat.dim_z vol_geo) = (32, 32, 32) /\
  forall k l m, 0 <= k < 32 -> 0 <= l < 32 -> 0 <= m < 32 ->
    out (k, l, m) = Float32.zero.
Proof.
  intros atanf sinf cosf powf round_up garbage.
  apply (smallest_plan_stays_zero atanf sinf cosf powf round_up garbage
           10703222%positive).
  - intros n. unfold round_up. Z.div_mod_to_equations. lia.
  - vm_compute. reflexivity.
  - lia.
  - reflexivity.
  - reflexivity.
  - intros x _ _. reflexivity.
Defined.

(** In that small volume the first voxel is indeed left at [+0.0f]. *)
Lemma zero_projection_example :
  let g := {| Backprojection.vol_w := 2; Backprojection.vol_h := 2;
              Backprojection.vol_d := 2;
              Backprojection.voxel_size_x := Float32.half;
              Backprojection.voxel_size_y := Float32.half;
              Backprojection.voxel_size_z := Float32.half;
              Backprojection.proj_w := 32; Backprojection.proj_h := 32;
              Backprojection.pixel_size_x := Float32.one;
              Backprojection.pixel_size_y := Float32.one;
              Backprojection.pixel_offset_x := Float32.zero;
              Backprojection.pixel_offset_y := Float32.zero;
              Backprojection.angle_sin := Float32.zero;
              Backprojection.angle_cos := Float32.one;
              Backprojection.dist_src := Float32.of_Z 100;
              Backprojection.dist_sd := Float32.of_Z 200 |} in
  Backprojection.backproject_one (fun x _ => Float32.fmul x x)
    (fun n => n) g (fun _ => Float32.one) (fun _ _ => Float32.zero) (0, 0, 0)
  = Float32.zero.
Proof. vm_compute. reflexivity. Qed.

(** * Part III: further properties of the code *)

(** ** The scheduler and device memory *)

Section DeviceMemory.
Import Scheduler.

Lemma device_loop_no_memory fuel : forall mems st i mem,
  0 <= volume_bytes_ st -> In mem mems -> mem <= 0 ->
  device_loop fuel st i mems = None.
Proof.
  induction mems as [|m mems IH]; intros st i mem Hvb Hin Hmem.
  - destruct Hin.
  - cbn [device_loop]. unfold device_step.
    destruct (calcVolumeSizePerDev fuel (volume_bytes_ st) 1 m)
      as [[sz cnt]|] eqn:Hcalc; [|reflexivity].
    destruct Hin as [->|Hin].
    + rewrite calcVolumeSizePerDev_no_memory in Hcalc by assumption.
      discriminate.
    + apply (IH _ _ mem); assumption.
Qed.

(** A device that reports no global memory keeps the constructor in the
    halving recursion: no amount of fuel yields a plan, wherever the
    device stands in the list. *)
Theorem no_plan_without_device_memory (fuel : nat) (dim_x dim_y dim_z : Z)
    (mems : list Z) :
  In 0 mems -> schedule fuel dim_x dim_y dim_z mems = None.
Proof.
  intros Hin. unfold schedule.
  assert (Hnone : calculate_volumes_per_device fuel
                    (calculate_volume_bytes dim_x dim_y dim_z) mems = None).
  { unfold calculate_volumes_per_device.
    destruct (Z.of_nat (length mems) =? 0) eqn:E; [reflexivity|].
    apply Z.eqb_neq in E.
    apply (device_loop_no_memory fuel mems _ 0 0); [|exact Hin|lia].
    cbn [volume_bytes_]. apply Z.div_pos; [|lia].
    pose proof (wrap64_range (wrap64 (wrap64 (dim_x * dim_y) * dim_z) * sizeof_T)) as Hr.
    unfold is_u64 in Hr. unfold calculate_volume_bytes. lia. }
  now rewrite Hnone.
Qed.

Lemma no_plan_without_device_memory_witness :
  schedule 1000 512 512 512 [2 ^ 30; 0] = None.
Proof.
  apply (no_plan_without_device_memory 1000 512 512 512 [2 ^ 30; 0]).
  simpl. right. left. reflexivity.
Defined.

(** More memory never means more chunks: for the same initial chunk a
    device with at least as much memory ends with a final chunk at least as
    large, and, while the 32-bit counter does not wrap, with a chunk count
    that divides the other one. *)
Theorem more_memory_fewer_chunks (fuel : nat) (chunk mem1 mem2 sz1 c1 sz2 c2 : Z) :
  0 <= chunk -> mem1 <= mem2 ->
  calcVolumeSizePerDev fuel chunk 1 mem1 = Some (sz1, c1) ->
  calcVolumeSizePerDev fuel chunk 1 mem2 = Some (sz2, c2) ->
  sz1 <= sz2 /\ (chunk < 2 ^ 31 * mem1 -> c2 <= c1 /\ (c2 | c1)).
Proof.
  intros Hc Hmem H1 H2.
  assert (Hm1 : 0 < mem1).
  { destruct (Z_lt_le_dec 0 mem1) as [|Hle]; [assumption|].
    rewrite calcVolumeSizePerDev_no_memory in H1 by assumption. discriminate. }
  assert (Hu : is_u32 1) by (unfold is_u32; lia).
  destruct (calcVolumeSizePerDev_inv _ _ _ _ _ Hu H1) as (k1 & Hk1 & E1 & Hlt1 & Hge1).
  destruct (calcVolumeSizePerDev_inv _ _ _ _ _ Hu H2) as (k2 & Hk2 & E2 & Hlt2 & Hge2).
  rewrite Z.mul_1_l in E1, E2.
  injection E1 as -> ->. injection E2 as -> ->.
  assert (Hk : k2 <= k1).
  { destruct (Z_le_gt_dec k2 k1) as [|Hgt]; [assumption|].
    pose proof (Hge2 k1 ltac:(lia)). lia. }
  assert (Hpow : 0 < 2 ^ k2 <= 2 ^ k1).
  { split; [apply Z.pow_pos_nonneg; lia|apply Z.pow_le_mono_r; lia]. }
  split; [apply Z.div_le_compat_l; assumption|].
  intros Hsmall. rewrite ?Z.mul_1_l.
  rewrite (halvings_bounded chunk mem1 k1) by assumption.
  rewrite (halvings_bounded chunk mem2 k2) by (try assumption; nia).
  split; [lia|]. exists (2 ^ (k1 - k2)).
  rewrite <- Z.pow_add_r by lia. f_equal. lia.
Qed.

Lemma more_memory_fewer_chunks_witness :
  512 <= 1024 /\ (4096 < 2 ^ 31 * 1000 -> 4 <= 8 /\ (4 | 8)).
Proof.
  apply (more_memory_fewer_chunks enough 4096 1000 2000 512 8 1024 4).
  - lia.
  - lia.
  - vm_compute. reflexivity.
  - vm_compute. reflexivity.
Defined.

End DeviceMemory.

(** ** Offsets of arbitrary plans *)

Section PlanOffsets.
Import Scheduler Feldkamp.

(** The table of offsets after the loop over the devices [l], key by key. *)
Lemma offsets_fold_lookup dim_z N vpd (l : list Z) : forall offs offs',
  fold_left (offsets_of_device dim_z N vpd) l (Some offs) = Some offs' ->
  forall i c,
    Assoc.lookup pair_eqb offs' (i, c) =
    match Assoc.lookup Z.eqb vpd i with
    | Some cnt =>
        if existsb (Z.eqb i) l && ((0 <=? c) && (c <? cnt))
        then Some (chunk_offset i cnt (dim_z / N) c)
        else Assoc.lookup pair_eqb offs (i, c)
    | None => Assoc.lookup pair_eqb offs (i, c)
    end.
Proof.
  induction l as [|a l IH]; intros offs offs' H i c; cbn [fold_left] in H.
  - injection H as <-. simpl. now destruct (Assoc.lookup Z.eqb vpd i).
  - destruct (offsets_of_device dim_z N vpd (Some offs) a) as [offs1|] eqn:E1;
      [|now rewrite offsets_fold_none in H].
    rewrite (IH _ _ H i c). cbn [existsb].
    assert (Hstep : Assoc.lookup pair_eqb offs1 (i, c) =
              match Assoc.lookup Z.eqb vpd i with
              | Some cnt =>
                  if (i =? a) && ((0 <=? c) && (c <? cnt))
                  then Some (chunk_offset i cnt (dim_z / N) c)
                  else Assoc.lookup pair_eqb offs (i, c)
              | None => Assoc.lookup pair_eqb offs (i, c)
              end).
    { unfold offsets_of_device in E1.
      destruct (Z.eqb_spec i a) as [->|Hne].
      - destruct (Assoc.lookup Z.eqb vpd a) as [cnt|]; [|now injection E1 as <-].
        destruct (N =? 0); [discriminate|]. injection E1 as <-.
        now rewrite chunk_loop_lookup, Z.eqb_refl, existsb_range.
      - assert (Hsame : Assoc.lookup pair_eqb offs1 (i, c)
                        = Assoc.lookup pair_eqb offs (i, c)).
        { destruct (Assoc.lookup Z.eqb vpd a) as [cnt|]; [|now injection E1 as <-].
          destruct (N =? 0); [discriminate|]. injection E1 as <-.
          rewrite chunk_loop_lookup.
          destruct (Z.eqb_spec a i); [congruence|reflexivity]. }
        rewrite Hsame. now destruct (Assoc.lookup Z.eqb vpd i). }
    rewrite Hstep. destruct (Assoc.lookup Z.eqb vpd i) as [cnt|]; [|reflexivity].
    destruct (i =? a), (existsb (Z.eqb i) l), ((0 <=? c) && (c <? cnt));
      reflexivity.
Qed.

(** [get_volume_offset] on a finished plan: every chunk of every device
    yields the offset [i * count_i * (dim_z / N) + c * (dim_z / N)] written
    for it, and every device or chunk the plan does not hold yields 0. *)
Theorem plan_offset_lookup (fuel : nat) (dim_x dim_y dim_z : Z) (mems : list Z)
    (p : plan) (i c : Z) :
  schedule fuel dim_x dim_y dim_z mems = Some p ->
  let count := get_volume_num (volumes_per_device_ (chunks_ p)) i in
  get_volume_offset (offset_per_volume_ p) i c =
  if (0 <=? i) && (i <? devices_ p) && ((0 <=? c) && (c <? count))
  then chunk_offset i count (dim_z / volume_count_ (chunks_ p)) c
  else 0.
Proof.
  unfold schedule. cbv zeta. intros H.
  destruct (calculate_volumes_per_device fuel
              (calculate_volume_bytes dim_x dim_y dim_z) mems)
    as [st|] eqn:Est; [|discriminate].
  destruct (calculate_subvolume_offsets (Z.of_nat (length mems)) dim_z
              (volume_count_ st) (volumes_per_device_ st)) as [offs|] eqn:Eoffs;
    [|discriminate].
  injection H as <-. cbn [devices_ chunks_ dim_z_ offset_per_volume_].
  set (D := Z.of_nat (length mems)) in *.
  destruct (calculate_volumes_per_device_inv _ _ _ _ Est)
    as (HD & counts & HF & Hvpd & _). fold D in HD, HF, Hvpd.
  assert (Hlen : Z.of_nat (length counts) = D)
    by (unfold D; now rewrite (Forall2_length HF)).
  unfold calculate_subvolume_offsets in Eoffs.
  unfold get_volume_offset, get_volume_num.
  rewrite (offsets_fold_lookup _ _ _ _ _ _ Eoffs i c), existsb_range.
  assert (Hlook : Assoc.lookup Z.eqb (volumes_per_device_ st) i
                  = if (0 <=? i) && (i <? D)
                    then nth_error counts (Z.to_nat i) else None).
  { rewrite Hvpd, <- Hlen.
    pose proof (lookup_numbered counts 0 i) as HL.
    rewrite map_ext with (g := fun x => x) in HL by reflexivity.
    rewrite map_id in HL. rewrite HL, Z.sub_0_r. reflexivity. }
  rewrite Hlook. simpl Assoc.lookup.
  destruct ((0 <=? i) && (i <? D)) eqn:Ei; [|reflexivity].
  destruct (nth_error counts (Z.to_nat i)) as [cnt|] eqn:En.
  - destruct ((0 <=? c) && (c <? cnt)); reflexivity.
  - apply nth_error_None in En. apply andb_true_iff in Ei.
    rewrite Z.leb_le, Z.ltb_lt in Ei. lia.
Qed.

Lemma plan_offset_lookup_witness :
  let p := {| dim_z_ := 512; devices_ := 2;
              chunks_ := {| volume_bytes_ := 2 ^ 28; volume_count_ := 3;
                            volumes_per_device_ := [(0, 1); (1, 2)] |};
              offset_per_volume_ := [((0, 0), 0); ((1, 0), 340); ((1, 1), 510)] |} in
  let count := get_volume_num (volumes_per_device_ (chunks_ p)) 1 in
  get_volume_offset (offset_per_volume_ p) 1 1 =
  if (0 <=? 1) && (1 <? devices_ p) && ((0 <=? 1) && (1 <? count))
  then chunk_offset 1 count (512 / volume_count_ (chunks_ p)) 1
  else 0.
Proof.
  apply (plan_offset_lookup enough 512 512 512 [2 ^ 29; 2 ^ 28]).
  vm_compute. reflexivity.
Defined.

(** A plan with the same chunk count on every device leaves exactly the
    last [dim_z mod N] slices outside all sub-volumes: the extents sum to
    [dim_z - dim_z mod N] and the bands cover the slices below that bound
    and no others. *)
Theorem uniform_plan_loses_the_remainder fuel dx dy dz mems p c :
  schedule fuel dx dy dz mems = Some p ->
  is_u64 dz ->
  (forall d, 0 <= d < devices_ p ->
     get_volume_num (volumes_per_device_ (chunks_ p)) d = c) ->
  devices_ p * c < 2 ^ 32 ->
  let N := volume_count_ (chunks_ p) in
  sumZ (map snd (sub_volumes p)) = dz - dz mod N /\
  forall z, 0 <= z < dz - dz mod N <->
            exists n, 0 <= n < N /\
                      in_band (nth (Z.to_nat n) (sub_volumes p) (0, 0)) z.
Proof.
  intros Hs Hdz Huni HN32 N.
  destruct (uniform_plan _ _ _ _ _ _ _ Hs Hdz Huni HN32)
    as (HD & Hc & _ & HvcN & Hsv).
  unfold N. rewrite HvcN, Hsv. clear N.
  set (N := devices_ p * c) in *. set (e := dz / N).
  assert (HNpos : 0 < N) by (unfold N; nia).
  assert (HNe : N * e = dz - dz mod N).
  { unfold e. pose proof (Z.div_mod dz N ltac:(lia)). lia. }
  assert (He0 : 0 <= e) by (unfold e, is_u64 in *; apply Z.div_pos; lia).
  assert (Hband : forall n, 0 <= n < N ->
            nth (Z.to_nat n) (map (fun n0 => (n0 * e, e)) (range N)) (0, 0)
            = (n * e, e)).
  { intros n Hn. now rewrite nth_map_range. }
  split; [rewrite sumZ_bands, range_length; lia|].
  intros z. split.
  - intros Hz. assert (Hepos : 0 < e) by nia.
    exists (z / e). assert (Hq : 0 <= z / e < N).
    { split; [apply Z.div_pos; lia|]. apply Z.div_lt_upper_bound; lia. }
    split; [exact Hq|]. rewrite Hband by exact Hq. unfold in_band. simpl.
    pose proof (Z.mul_div_le z e Hepos).
    pose proof (Z.mul_succ_div_gt z e Hepos). lia.
  - intros (n & Hn & Hb). rewrite (Hband n Hn) in Hb.
    unfold in_band in Hb. simpl in Hb. nia.
Qed.

Lemma uniform_plan_loses_the_remainder_witness :
  let p := {| dim_z_ := 513; devices_ := 1;
              chunks_ := {| volume_bytes_ := 537919488; volume_count_ := 2;
                            volumes_per_device_ := [(0, 2)] |};
              offset_per_volume_ := [((0, 0), 0); ((0, 1), 256)] |} in
  sumZ (map snd (sub_volumes p)) = 513 - 513 mod 2 /\
  forall z, 0 <= z < 513 - 513 mod 2 <->
            exists n, 0 <= n < 2 /\
                      in_band (nth (Z.to_nat n) (sub_volumes p) (0, 0)) z.
Proof.
  intros p.
  apply (uniform_plan_loses_the_remainder enough 512 512 513 [2 ^ 29] p 2).
  - vm_compute. reflexivity.
  - unfold is_u64. lia.
  - intros d Hd. simpl in Hd. replace d with 0 by lia. reflexivity.
  - simpl. lia.
Defined.

End PlanOffsets.

(** ** Region of interest, applied twice *)

Section RoiTwice.
Import Roi.
Context {F : Type}.

(** Applying the same region of interest to the result of [apply_roi]
    changes nothing: an accepted region is accepted again with the same
    dimensions, a rejected one is rejected again. *)
Theorem apply_roi_idempotent (vol_geo : volume_geometry F) (x1 x2 y1 y2 z1 z2 : Z) :
  let once := fst (apply_roi vol_geo x1 x2 y1 y2 z1 z2) in
  fst (apply_roi once x1 x2 y1 y2 z1 z2) = once.
Proof.
  cbv zeta. unfold apply_roi.
  destruct (check_coords x1 x2 && check_coords y1 y2 && check_coords z1 z2);
    [|reflexivity].
  destruct (check_dims (updated_dim x1 x2) (dim_x vol_geo)
            && check_dims (updated_dim y1 y2) (dim_y vol_geo)
            && check_dims (updated_dim z1 z2) (dim_z vol_geo)) eqn:Ed;
    cbn [fst]; [|now rewrite Ed].
  cbn [dim_x dim_y dim_z l_vx_x l_vx_y l_vx_z].
  unfold check_dims. rewrite !Z.leb_refl. reflexivity.
Qed.

End RoiTwice.

(** ** Detector rows of neighbouring sub-volumes *)

Section NeighbouringRows.
Import Ideal SchedulerGeometry.
Local Open Scope R_scope.

Variable geo : Geometry.
Hypothesis rows_positive : (1 <= det_pixels_row geo)%Z.
Hypothesis pixel_width_positive : 0 < det_pixel_size_horiz geo.
Hypothesis source_off_axis : dist_src geo <> 0.
Hypothesis columns_positive : (1 <= det_pixels_column geo < 2 ^ 32)%Z.
Hypothesis pixel_height_positive : 0 < det_pixel_size_vert geo.

Variable volume_count_ : Z.
Hypothesis count_u32 : is_u32 volume_count_.

Let vol_geo := calculate_volume_geo geo.
Let height := calculate_volume_height_mm vol_geo.
Let d_v := det_pixel_size_vert geo.
Let delta_v := det_offset_vert geo * d_v.
Let N_v := IZR (det_pixels_column geo).
Let r_max := IZR (dim_x vol_geo) * voxel_size_x vol_geo / 2.
Let tpr := 0 - N_v * d_v / 2 - delta_v + d_v / 2.
Let bpr := tpr + N_v * d_v - d_v.

(** The edge of a slab at height [y] mm, seen from the far and from the
    near side of the volume, and the detector coordinate as a row. *)
Let edge (k : Z) : R := - (height / 2) + IZR k / IZR volume_count_ * height.
Let virt_top (y : R) : R :=
  y * dist_sd_ geo / (Rabs (dist_src geo) + (if Rlt_dec y 0 then - r_max else r_max)).
Let virt_bottom (y : R) : R :=
  y * dist_sd_ geo / (Rabs (dist_src geo) + (if Rlt_dec y 0 then r_max else - r_max)).
Let clamp_top (y : R) : R :=
  if Rgt_dec y bpr then bpr else if Rlt_dec y tpr then tpr else y.
Let clamp_bottom (y : R) : R :=
  if Rlt_dec y tpr then tpr else if Rgt_dec y bpr then bpr else y.
Let row (y : R) : R := (y + N_v * d_v / 2 + delta_v) / d_v - 1 / 2.

Lemma row_in_detector y : tpr <= y <= bpr -> 0 <= row y <= N_v - 1.
Proof.
  intros Hy. unfold row.
  replace ((y + N_v * d_v / 2 + delta_v) / d_v - 1 / 2)
    with ((y + (d_v / 2 - tpr)) / d_v - 1 / 2)
    by (unfold tpr; f_equal; f_equal; lra).
  apply row_of_coordinate_bounds.
  - exact pixel_height_positive.
  - unfold N_v. apply IZR_le. lia.
  - exact Hy.
Qed.

Lemma row_monotone x y : x <= y -> row x <= row y.
Proof.
  intros Hxy. unfold row, Rdiv.
  assert (0 <= / d_v) by (apply Rlt_le, Rinv_0_lt_compat, pixel_height_positive).
  nra.
Qed.

Lemma real_band_ordered : tpr <= bpr.
Proof.
  unfold bpr. assert (1 <= N_v) by (unfold N_v; apply IZR_le; lia).
  assert (0 < d_v) by exact pixel_height_positive. nra.
Qed.

(** The pair stored for sub-volume [n], in closed form. *)
Lemma subprojection_border_rows n :
  (0 <= n < volume_count_)%Z ->
  subprojection_border geo vol_geo height volume_count_ n
  = (Zfloor (row (clamp_top (virt_top (edge n)))),
     Zceil (row (clamp_bottom (virt_bottom (edge (n + 1)))))).
Proof.
  intros Hn. pose proof real_band_ordered as Hreal.
  unfold subprojection_border.
  unfold is_u32 in count_u32.
  rewrite (wrap32_small (n + 1)) by (unfold is_u32; lia).
  fold d_v. fold delta_v. fold N_v. fold r_max. fold tpr. fold bpr.
  fold (edge n). fold (edge (n + 1)).
  fold (virt_top (edge n)). fold (virt_bottom (edge (n + 1))).
  fold (clamp_top (virt_top (edge n))).
  fold (clamp_bottom (virt_bottom (edge (n + 1)))).
  fold (row (clamp_top (virt_top (edge n)))).
  fold (row (clamp_bottom (virt_bottom (edge (n + 1))))).
  set (X := row (clamp_top (virt_top (edge n)))).
  set (Y := row (clamp_bottom (virt_bottom (edge (n + 1))))).
  assert (HX : 0 <= X <= N_v - 1).
  { apply row_in_detector. unfold clamp_top.
    destruct (Rgt_dec (virt_top (edge n)) bpr), (Rlt_dec (virt_top (edge n)) tpr); lra. }
  assert (HY : 0 <= Y <= N_v - 1).
  { apply row_in_detector. unfold clamp_bottom.
    destruct (Rlt_dec (virt_bottom (edge (n + 1))) tpr),
      (Rgt_dec (virt_bottom (edge (n + 1))) bpr); lra. }
  assert (Hfl : (0 <= Zfloor X <= det_pixels_column geo - 1)%Z).
  { split; [apply Zfloor_lub; simpl; lra|].
    apply le_IZR. rewrite minus_IZR. pose proof (Zfloor_bound X). fold N_v. simpl. lra. }
  assert (Hce : (0 <= Zceil Y <= det_pixels_column geo - 1)%Z).
  { pose proof (Zceil_bound Y) as [Hc1 Hc2]. split.
    - apply le_IZR. apply Rnot_lt_le. intros Hneg.
      assert (IZR (Zceil Y) <= -1) by (apply IZR_le; apply lt_IZR in Hneg; lia).
      lra.
    - apply Z.lt_succ_r. apply lt_IZR. unfold Z.succ.
      rewrite plus_IZR, minus_IZR. fold N_v. simpl. lra. }
  unfold floor, ceil.
  destruct (Rlt_dec (IZR (Zfloor X)) 0) as [Hneg|_].
  { apply lt_IZR in Hneg. lia. }
  destruct (Rge_dec (IZR (Zceil Y)) N_v) as [Hbig|_].
  { apply Rge_le in Hbig. unfold N_v in Hbig. apply le_IZR in Hbig. lia. }
  rewrite !to_uint32_IZR by (unfold is_u32; lia). reflexivity.
Qed.

Lemma clamps_ordered x y : x <= y -> clamp_top x <= clamp_bottom y.
Proof.
  intros Hxy. pose proof real_band_ordered. unfold clamp_top, clamp_bottom.
  destruct (Rgt_dec x bpr), (Rlt_dec x tpr), (Rlt_dec y tpr), (Rgt_dec y bpr); lra.
Qed.

Lemma clamp_top_monotone x y : x <= y -> clamp_top x <= clamp_top y.
Proof.
  intros Hxy. pose proof real_band_ordered. unfold clamp_top.
  destruct (Rgt_dec x bpr), (Rlt_dec x tpr), (Rgt_dec y bpr), (Rlt_dec y tpr); lra.
Qed.

Lemma clamp_bottom_monotone x y : x <= y -> clamp_bottom x <= clamp_bottom y.
Proof.
  intros Hxy. pose proof real_band_ordered. unfold clamp_bottom.
  destruct (Rlt_dec x tpr), (Rgt_dec x bpr), (Rlt_dec y tpr), (Rgt_dec y bpr); lra.
Qed.

(** The two magnifications: [u] from the near side of the volume, [v] from
    the far side. *)
Lemma magnifications :
  exists u v, 0 <= v <= u /\
    (forall y, virt_top y = y * (if Rlt_dec y 0 then u else v)) /\
    (forall y, virt_bottom y = y * (if Rlt_dec y 0 then v else u)).
Proof.
  destruct (volume_inside_source_orbit geo rows_positive pixel_width_positive
              source_off_axis) as (Hvs & _ & Hdx & _ & Hrmax & Hsd).
  fold vol_geo in Hvs, Hdx, Hrmax. fold r_max in Hrmax.
  assert (Hr0 : 0 <= r_max).
  { unfold r_max. apply Rmult_le_pos; [|lra].
    apply Rmult_le_pos; [now apply IZR_le|lra]. }
  exists (dist_sd_ geo / (Rabs (dist_src geo) - r_max)),
         (dist_sd_ geo / (Rabs (dist_src geo) + r_max)).
  split; [split|split].
  - apply Rmult_le_pos; [lra|]. apply Rlt_le, Rinv_0_lt_compat. lra.
  - unfold Rdiv. apply Rmult_le_compat_l; [lra|].
    apply Rinv_le_contravar; lra.
  - intros y. unfold virt_top. destruct (Rlt_dec y 0); unfold Rdiv, Rminus; ring.
  - intros y. unfold virt_bottom. destruct (Rlt_dec y 0); unfold Rdiv, Rminus; ring.
Qed.

Lemma edges_ordered n : (0 <= n)%Z -> (0 < volume_count_)%Z -> edge n <= edge (n + 1).
Proof.
  intros Hn HN.
  destruct (volume_inside_source_orbit geo rows_positive pixel_width_positive
              source_off_axis) as (Hvs & Hvz & _ & Hdz & _).
  fold vol_geo in Hvs, Hvz, Hdz.
  assert (HH : 0 <= height).
  { unfold height, calculate_volume_height_mm. fold vol_geo. rewrite Hvz.
    apply Rmult_le_pos; [now apply IZR_le|lra]. }
  assert (0 < IZR volume_count_) by (apply IZR_lt; lia).
  assert (0 <= / IZR volume_count_) by (apply Rlt_le, Rinv_0_lt_compat; assumption).
  unfold edge. rewrite plus_IZR. unfold Rdiv. nra.
Qed.

Lemma floor_below_ceil x y : x <= y -> (Zfloor x <= Zceil y)%Z.
Proof.
  intros Hxy. apply le_IZR.
  pose proof (Zfloor_bound x). pose proof (Zceil_bound y). lra.
Qed.

(** Neighbouring sub-volumes: the first row of the upper one is not below
    the last row of the lower one, and both bounds move down the detector
    together. *)
Lemma neighbouring_borders n :
  (0 <= n)%Z -> (n + 1 < volume_count_)%Z ->
  let lower := subprojection_border geo vol_geo height volume_count_ n in
  let upper := subprojection_border geo vol_geo height volume_count_ (n + 1) in
  (fst upper <= snd lower)%Z /\ (fst lower <= fst upper)%Z /\
  (snd lower <= snd upper)%Z.
Proof.
  intros Hn HN. cbv zeta.
  rewrite !subprojection_border_rows by lia. cbn [fst snd].
  destruct magnifications as (u & v & Huv & Htop & Hbot).
  pose proof (edges_ordered n Hn ltac:(lia)) as He1.
  pose proof (edges_ordered (n + 1) ltac:(lia) ltac:(lia)) as He2.
  set (e0 := edge n) in *. set (e1 := edge (n + 1)) in *.
  set (e2 := edge (n + 1 + 1)) in *.
  split; [|split].
  - apply floor_below_ceil, row_monotone, clamps_ordered.
    rewrite Htop, Hbot. destruct (Rlt_dec e1 0); nra.
  - apply Zfloor_le, row_monotone, clamp_top_monotone.
    rewrite !Htop. destruct (Rlt_dec e0 0), (Rlt_dec e1 0); nra.
  - apply Zceil_le, row_monotone, clamp_bottom_monotone.
    rewrite !Hbot. destruct (Rlt_dec e1 0), (Rlt_dec e2 0); nra.
Qed.

End NeighbouringRows.



(** ** Weighting: the factor and the first implementation *)

Section WeightingFactor.
Local Open Scope R_scope.

Lemma cosine_in_unit_interval d a b :
  0 < d -> 0 < d / sqrt (d ^ 2 + a ^ 2 + b ^ 2) <= 1.
Proof.
  intros Hd.
  assert (Hq : d ^ 2 <= d ^ 2 + a ^ 2 + b ^ 2).
  { pose proof (pow2_ge_0 a). pose proof (pow2_ge_0 b). lra. }
  assert (Hs : d <= sqrt (d ^ 2 + a ^ 2 + b ^ 2)).
  { rewrite <- (sqrt_pow2 d) at 1 by lra. now apply sqrt_le_1_alt. }
  assert (Hpos : 0 < sqrt (d ^ 2 + a ^ 2 + b ^ 2)) by lra.
  split.
  - now apply Rdiv_lt_0_compat.
  - apply (Rmult_le_reg_r (sqrt (d ^ 2 + a ^ 2 + b ^ 2))); [exact Hpos|].
    unfold Rdiv. rewrite Rmult_assoc, Rinv_l by lra. lra.
Qed.

End WeightingFactor.



(** [CUDAWeighting::processor] and the stage's [weight] produce the same
    pixels from the same image when the two geometries describe the same
    detector with the offsets mirrored and the distances not negative.
    [float] arithmetic is taken as exact. *)
Theorem first_weighting_agrees_with_stage (round_up : Z -> Z)
    (geo : SchedulerGeometry.Geometry) (det_geo : Geometry.detector_geometry)
    (img : CUDAWeightingStage.Image) (dev : Z) (c : Z * Z) :
  SchedulerGeometry.det_pixels_row geo = Geometry.n_row det_geo ->
  SchedulerGeometry.det_pixels_column geo = Geometry.n_col det_geo ->
  SchedulerGeometry.det_pixel_size_horiz geo = Geometry.l_px_row det_geo ->
  SchedulerGeometry.det_pixel_size_vert geo = Geometry.l_px_col det_geo ->
  SchedulerGeometry.det_offset_horiz geo = (- Geometry.delta_s det_geo)%R ->
  SchedulerGeometry.det_offset_vert geo = (- Geometry.delta_t det_geo)%R ->
  SchedulerGeometry.dist_src geo = Geometry.d_so det_geo ->
  SchedulerGeometry.dist_det geo = Geometry.d_od det_geo ->
  (0 <= Geometry.d_so det_geo)%R -> (0 <= Geometry.d_od det_geo)%R ->
  CUDAWeightingStage.data (CUDAWeightingStage.processor round_up geo img dev) c
  = Weighting.ptr
      (Weighting.weight round_up (Weighting.assign_task det_geo)
         {| Weighting.ptr := CUDAWeightingStage.data img;
            Weighting.width := CUDAWeightingStage.width img;
            Weighting.height := CUDAWeightingStage.height img;
            Weighting.valid := CUDAWeightingStage.valid img |}) c.
Proof.
  intros Hr Hc Hh Hv Hos Hot Hso Hod Hso0 Hod0.
  destruct (CUDAWeighting_offset_mirrored geo det_geo Hr Hc Hh Hv Hos Hot)
    as [Hhm Hvm].
  unfold CUDAWeightingStage.processor, Weighting.weight.
  cbn [CUDAWeightingStage.data Weighting.ptr Weighting.width Weighting.height].
  rewrite Hhm, Hvm, Hh, Hv.
  assert (Hd : CUDAWeighting.d_dist_ geo
               = Weighting.d_sd_ (Weighting.assign_task det_geo)).
  { unfold CUDAWeighting.d_dist_, Weighting.assign_task. cbn [Weighting.d_sd_].
    rewrite Hso, Hod, !Rabs_right by lra. ring. }
  rewrite Hd. reflexivity.
Qed.

Lemma first_weighting_agrees_with_stage_witness :
  let geo := {| SchedulerGeometry.det_pixels_row := 32;
                SchedulerGeometry.det_pixels_column := 32;
                SchedulerGeometry.det_pixel_size_horiz := 1;
                SchedulerGeometry.det_pixel_size_vert := 1;
                SchedulerGeometry.det_offset_horiz := (- 0)%R;
                SchedulerGeometry.det_offset_vert := (- 0)%R;
                SchedulerGeometry.dist_src := 100;
                SchedulerGeometry.dist_det := 100 |} in
  let img := {| CUDAWeightingStage.data := fun _ => 1%R;
                CUDAWeightingStage.width := 32; CUDAWeightingStage.height := 32;
                CUDAWeightingStage.device := 0;
                CUDAWeightingStage.valid := true |} in
  CUDAWeightingStage.data (CUDAWeightingStage.processor (fun n => n) geo img 1) (3, 5)
  = Weighting.ptr
      (Weighting.weight (fun n => n) (Weighting.assign_task Geometry.s1_geometry)
         {| Weighting.ptr := CUDAWeightingStage.data img;
            Weighting.width := CUDAWeightingStage.width img;
            Weighting.height := CUDAWeightingStage.height img;
            Weighting.valid := CUDAWeightingStage.valid img |}) (3, 5).
Proof.
  intros geo img.
  apply (first_weighting_agrees_with_stage (fun n => n) geo Geometry.s1_geometry
           img 1 (3, 5)); simpl; try reflexivity; lra.
Defined.

(** ** The kernels around the FFT *)

Section FilterKernelFacts.
Import Ideal FilterKernels.
Local Open Scope R_scope.

Variable round_up : Z -> Z.
Hypothesis round_up_covers : forall n, (n <= round_up n)%Z.

Lemma cell_swap_injective (a b : Z * Z) : (snd a, fst a) = (snd b, fst b) -> a = b.
Proof. destruct a, b. simpl. congruence. Qed.

Lemma pad_cells filter_length_ width height (img converted : image) x y :
  (0 <= x)%Z -> (0 <= y)%Z ->
  pad round_up filter_length_ width height img converted (y, x)
  = if (x <? filter_length_)%Z && (y <? height)%Z
    then (if (x <? width)%Z then img (y, x) else 0)
    else converted (y, x).
Proof.
  intros Hx Hy. unfold pad.
  set (guard := fun th : Z * Z =>
                  (fst th <? filter_length_)%Z && (snd th <? height)%Z).
  set (cell := fun th : Z * Z => (snd th, fst th)).
  set (f := fun (th : Z * Z) (_ : R) =>
              if (fst th <? width)%Z then img (snd th, fst th) else 0).
  assert (Hbody : forall mem th,
            convertProjection img width height filter_length_ mem th
            = if guard th
              then Launch.write Launch.eqb2 mem (cell th) (f th (mem (cell th)))
              else mem) by reflexivity.
  destruct ((x <? filter_length_)%Z && (y <? height)%Z) eqn:Hg.
  - apply andb_true_iff in Hg. destruct Hg as [Hxl Hyh].
    apply Z.ltb_lt in Hxl, Hyh.
    rewrite (run_thread Launch.eqb2 eqb2_spec guard cell f _ Hbody
               cell_swap_injective _ converted (x, y)).
    + reflexivity.
    + apply NoDup_grid2.
    + apply in_grid2. pose proof (round_up_covers filter_length_).
      pose proof (round_up_covers height). lia.
    + unfold guard. simpl. apply andb_true_iff. now rewrite !Z.ltb_lt.
  - apply (run_untouched Launch.eqb2 eqb2_spec guard cell f _ Hbody).
    intros [x' y'] _ Hg' Heq. unfold cell in Heq. simpl in Heq.
    injection Heq as -> ->. unfold guard in Hg'. simpl in Hg'. congruence.
Qed.

Lemma crop_cells filter_length_ width height (converted img : image) x y :
  (0 <= x)%Z -> (0 <= y)%Z ->
  crop round_up filter_length_ width height converted img (y, x)
  = if (x <? width)%Z && (y <? height)%Z && (x <? round_up filter_length_)%Z
    then converted (y, x) / IZR filter_length_
    else img (y, x).
Proof.
  intros Hx Hy. unfold crop.
  set (guard := fun th : Z * Z => (fst th <? width)%Z && (snd th <? height)%Z).
  set (cell := fun th : Z * Z => (snd th, fst th)).
  set (f := fun (th : Z * Z) (_ : R) =>
              converted (snd th, fst th) / IZR filter_length_).
  assert (Hbody : forall mem th,
            convertFiltered converted width height filter_length_ mem th
            = if guard th
              then Launch.write Launch.eqb2 mem (cell th) (f th (mem (cell th)))
              else mem) by reflexivity.
  destruct ((x <? width)%Z && (y <? height)%Z && (x <? round_up filter_length_)%Z)
    eqn:Hg.
  - apply andb_true_iff in Hg. destruct Hg as [Hg Hxr].
    apply andb_true_iff in Hg. destruct Hg as [Hxw Hyh].
    apply Z.ltb_lt in Hxw, Hyh, Hxr.
    rewrite (run_thread Launch.eqb2 eqb2_spec guard cell f _ Hbody
               cell_swap_injective _ img (x, y)).
    + reflexivity.
    + apply NoDup_grid2.
    + apply in_grid2. pose proof (round_up_covers height). lia.
    + unfold guard. simpl. apply andb_true_iff. now rewrite !Z.ltb_lt.
  - apply (run_untouched Launch.eqb2 eqb2_spec guard cell f _ Hbody).
    intros [x' y'] Hin Hg' Heq. unfold cell in Heq. simpl in Heq.
    injection Heq as -> ->. unfold guard in Hg'. simpl in Hg'.
    apply in_grid2 in Hin. destruct Hin as [[_ Hin] _].
    apply Z.ltb_lt in Hin. rewrite Hg', Hin in Hg. discriminate.
Qed.

Lemma make_K_cells n tau (filter : Z -> complex) x :
  (0 <= x < n)%Z ->
  make_K round_up n tau filter x
  = (tau * sqrt ((fst (filter x)) ^ 2 + (snd (filter x)) ^ 2),
     tau * sqrt ((fst (filter x)) ^ 2 + (snd (filter x)) ^ 2)).
Proof.
  intros Hx. unfold make_K.
  set (guard := fun th : Z => (th <? n)%Z).
  set (f := fun (th : Z) (v : complex) =>
              (tau * Rabs (sqrt (powf2 (fst v) + powf2 (snd v))),
               tau * Rabs (sqrt (powf2 (fst v) + powf2 (snd v))))).
  assert (Hbody : forall mem th,
            createK n tau mem th
            = if guard th
              then Launch.write Z.eqb mem ((fun t => t) th) (f th (mem ((fun t => t) th)))
              else mem) by reflexivity.
  rewrite (run_thread Z.eqb Z.eqb_eq guard (fun t => t) f _ Hbody
             (fun a b H => H) _ filter x).
  - unfold f, powf2. now rewrite Rabs_right by (apply Rle_ge, sqrt_pos).
  - apply NoDup_range.
  - apply in_range. pose proof (round_up_covers n). lia.
  - unfold guard. apply Z.ltb_lt. lia.
Qed.

Lemma multiply_cells n height (filter : Z -> complex)
    (transformed : Z * Z -> complex) x y :
  (0 <= x)%Z -> (0 <= y)%Z ->
  multiply round_up n height filter transformed (y, x)
  = if (x <? n)%Z && (y <? height)%Z
    then (fst (transformed (y, x)) * fst (filter x),
          snd (transformed (y, x)) * snd (filter x))
    else transformed (y, x).
Proof.
  intros Hx Hy. unfold multiply.
  set (guard := fun th : Z * Z => (fst th <? n)%Z && (snd th <? height)%Z).
  set (cell := fun th : Z * Z => (snd th, fst th)).
  set (f := fun (th : Z * Z) (v : complex) =>
              (fst v * fst (filter (fst th)), snd v * snd (filter (fst th)))).
  assert (Hbody : forall mem th,
            applyFilter filter n height mem th
            = if guard th
              then Launch.write Launch.eqb2 mem (cell th) (f th (mem (cell th)))
              else mem) by reflexivity.
  destruct ((x <? n)%Z && (y <? height)%Z) eqn:Hg.
  - apply andb_true_iff in Hg. destruct Hg as [Hxl Hyh].
    apply Z.ltb_lt in Hxl, Hyh.
    rewrite (run_thread Launch.eqb2 eqb2_spec guard cell f _ Hbody
               cell_swap_injective _ transformed (x, y)).
    + reflexivity.
    + apply NoDup_grid2.
    + apply in_grid2. pose proof (round_up_covers n).
      pose proof (round_up_covers height). lia.
    + unfold guard. simpl. apply andb_true_iff. now rewrite !Z.ltb_lt.
  - apply (run_untouched Launch.eqb2 eqb2_spec guard cell f _ Hbody).
    intros [x' y'] _ Hg' Heq. unfold cell in Heq. simpl in Heq.
    injection Heq as -> ->. unfold guard in Hg'. simpl in Hg'. congruence.
Qed.

End FilterKernelFacts.

(** [convertProjection], launched by [processor], fills the first
    [filter_length_] columns of every row of the new buffer: with the
    projection's pixel where the projection has that column, with zero
    otherwise.  Columns of the projection from [filter_length_] on are not
    copied; cells outside the [filter_length_] x [height] window keep what
    the allocation left there. *)
Theorem convertProjection_zero_pads (round_up : Z -> Z)
    (filter_length_ width height : Z) (img converted : FilterKernels.image)
    (x y : Z) :
  (forall n, n <= round_up n) -> 0 <= x -> 0 <= y ->
  FilterKernels.pad round_up filter_length_ width height img converted (y, x)
  = if (x <? filter_length_) && (y <? height)
    then (if x <? width then img (y, x) else 0%R)
    else converted (y, x).
Proof. intros Hround Hx Hy. now apply pad_cells. Qed.

Lemma convertProjection_zero_pads_witness :
  let img : FilterKernels.image := fun c => IZR (fst c + snd c) in
  let converted : FilterKernels.image := fun _ => 7%R in
  FilterKernels.pad (fun n => 16 * ((n + 15) / 16)) 8 5 3 img converted (2, 6)
  = if (6 <? 8) && (2 <? 3)
    then (if 6 <? 5 then img (2, 6) else 0%R)
    else converted (2, 6).
Proof.
  intros img converted.
  apply (convertProjection_zero_pads (fun n => 16 * ((n + 15) / 16)) 8 5 3
           img converted 6 2).
  - intros n. Z.div_mod_to_equations. lia.
  - lia.
  - lia.
Defined.

(** [convertFiltered], launched by [processor] on a grid that covers
    [filter_length_] columns, replaces pixel [(y, x)] of the projection by
    the buffer's value divided by [filter_length_] when [x < width],
    [y < height] and the grid reaches column [x]; a column of a wide
    projection that the grid does not reach keeps its unfiltered value.
    [float] arithmetic is taken as exact. *)
Theorem convertFiltered_normalizes (round_up : Z -> Z)
    (filter_length_ width height : Z) (converted img : FilterKernels.image)
    (x y : Z) :
  (forall n, n <= round_up n) -> 0 <= x -> 0 <= y ->
  FilterKernels.crop round_up filter_length_ width height converted img (y, x)
  = if (x <? width) && (y <? height) && (x <? round_up filter_length_)
    then (converted (y, x) / IZR filter_length_)%R
    else img (y, x).
Proof. intros Hround Hx Hy. now apply crop_cells. Qed.

Lemma convertFiltered_normalizes_witness :
  let img : FilterKernels.image := fun c => IZR (fst c + snd c) in
  let converted : FilterKernels.image := fun _ => 7%R in
  FilterKernels.crop (fun n => 16 * ((n + 15) / 16)) 8 40 3 converted img (2, 20)
  = if (20 <? 40) && (2 <? 3) && (20 <? (fun n => 16 * ((n + 15) / 16)) 8)
    then Rdiv (converted (2, 20)) (IZR 8)
    else img (2, 20).
Proof.
  intros img converted.
  apply (convertFiltered_normalizes (fun n => 16 * ((n + 15) / 16)) 8 40 3
           converted img 20 2).
  - intros n. Z.div_mod_to_equations. lia.
  - lia.
  - lia.
Defined.

(** [createK] followed by [applyFilter], as [processor] launches them:
    both components of every transformed sample are multiplied by the same
    real number, [tau] times the modulus of the filter's transform at that
    frequency; the phase of the filter's transform is dropped.  [float]
    arithmetic is taken as exact. *)
Theorem createK_applyFilter_scale_by_modulus (round_up : Z -> Z)
    (n height : Z) (tau : R) (filter : Z -> FilterKernels.complex)
    (transformed : Z * Z -> FilterKernels.complex) (x y : Z) :
  (forall n, n <= round_up n) -> 0 <= x < n -> 0 <= y < height ->
  let k := (tau * sqrt ((fst (filter x)) ^ 2 + (snd (filter x)) ^ 2))%R in
  FilterKernels.multiply round_up n height
    (FilterKernels.make_K round_up n tau filter) transformed (y, x)
  = ((fst (transformed (y, x)) * k)%R, (snd (transformed (y, x)) * k)%R).
Proof.
  intros Hround Hx Hy k.
  rewrite (multiply_cells round_up Hround) by lia.
  assert (Hg : (x <? n) && (y <? height) = true).
  { apply andb_true_iff. rewrite !Z.ltb_lt. lia. }
  rewrite Hg, (make_K_cells round_up Hround) by exact Hx. reflexivity.
Qed.

Lemma createK_applyFilter_scale_by_modulus_witness :
  let filter : Z -> FilterKernels.complex := fun _ => (3%R, 4%R) in
  let transformed : Z * Z -> FilterKernels.complex := fun _ => (1%R, 2%R) in
  let k := (2 * sqrt ((fst (filter 1%Z)) ^ 2 + (snd (filter 1%Z)) ^ 2))%R in
  FilterKernels.multiply (fun n => n) 3 2
    (FilterKernels.make_K (fun n => n) 3 2 filter) transformed (1, 1)
  = (Rmult (fst (transformed (1, 1))) k, Rmult (snd (transformed (1, 1))) k).
Proof.
  intros filter transformed.
  apply (createK_applyFilter_scale_by_modulus (fun n => n) 3 2 2 filter
           transformed 1 1).
  - intros n. lia.
  - lia.
  - lia.
Defined.

(** ** Interpolation at integral detector coordinates *)

Section IntegralCoordinates.
Import Float32 FloatClass Backprojection.

Lemma fsub_diag x : is_zero (fsub x x) || is_nan (fsub x x) = true.
Proof.
  destruct x as [s|s| |s m e].
  - destruct s; reflexivity.
  - destruct s; reflexivity.
  - reflexivity.
  - unfold fsub, SFsub. cbv zeta. rewrite Z.sub_diag. reflexivity.
Qed.

Lemma fdiv_by_zero x d :
  is_zero d || is_nan d = true -> non_finite (fdiv x d) = true.
Proof. destruct x, d; try discriminate; reflexivity. Qed.

Lemma fsub_one_non_finite w : non_finite w = true -> non_finite (fsub one w) = true.
Proof. destruct w; try discriminate; reflexivity. Qed.

Lemma fmul_non_finite_l x y : non_finite x = true -> non_finite (fmul x y) = true.
Proof. destruct x, y; try discriminate; reflexivity. Qed.

Lemma fmul_non_finite_r x y : non_finite y = true -> non_finite (fmul x y) = true.
Proof. destruct x, y; try discriminate; reflexivity. Qed.

Lemma fadd_non_finite_l x y : non_finite x = true -> non_finite (fadd x y) = true.
Proof.
  destruct x as [sx|sx| |sx mx ex], y as [sy|sy| |sy my ey];
    try discriminate; try reflexivity.
  intros _. destruct sx, sy; reflexivity.
Qed.

Lemma fadd_non_finite_r x y : non_finite y = true -> non_finite (fadd x y) = true.
Proof.
  destruct x as [sx|sx| |sx mx ex], y as [sy|sy| |sy my ey];
    try discriminate; try reflexivity.
  intros _. destruct sx, sy; reflexivity.
Qed.

(** The weight of an integral coordinate is a division by zero. *)
Lemma integral_weight x :
  floorf x = ceilf x ->
  non_finite (fdiv (fsub x (floorf x)) (fsub (ceilf x) (floorf x))) = true.
Proof. intros <-. apply fdiv_by_zero, fsub_diag. Qed.

Lemma interpolate_integral h v (proj : projection) proj_width proj_height
    pixel_size_x pixel_size_y offset_x offset_y :
  let h_real := proj_real_coordinate h proj_width pixel_size_x offset_x in
  let v_real := proj_real_coordinate v proj_height pixel_size_y offset_y in
  floorf h_real = ceilf h_real \/ floorf v_real = ceilf v_real ->
  non_finite (interpolate h v proj proj_width proj_height
                pixel_size_x pixel_size_y offset_x offset_y) = true.
Proof.
  intros h_real v_real Hint. unfold interpolate. cbv zeta.
  fold h_real v_real.
  set (w_h0 := fdiv (fsub h_real (floorf h_real))
                 (fsub (ceilf h_real) (floorf h_real))).
  set (w_v0 := fdiv (fsub v_real (floorf v_real))
                 (fsub (ceilf v_real) (floorf v_real))).
  do 3 apply fadd_non_finite_l. apply fmul_non_finite_l.
  destruct Hint as [Hh|Hv].
  - apply fmul_non_finite_l, fsub_one_non_finite, integral_weight, Hh.
  - apply fmul_non_finite_r, fsub_one_non_finite, integral_weight, Hv.
Qed.

End IntegralCoordinates.

(** A sample whose detector column or row coordinate has no fractional
    part (its floor and ceiling coincide) interpolates to NaN or an
    infinity, whatever the projection holds: the weight
    [(x - floor x) / (ceil x - floor x)] is a division by zero
    (binary32 arithmetic). *)
Theorem interpolate_integral_coordinate_not_finite
    (h v : Float32.float) (proj : Backprojection.projection)
    (proj_width proj_height : Z)
    (pixel_size_x pixel_size_y offset_x offset_y : Float32.float) :
  let h_real :=
    Backprojection.proj_real_coordinate h proj_width pixel_size_x offset_x in
  let v_real :=
    Backprojection.proj_real_coordinate v proj_height pixel_size_y offset_y in
  Float32.floorf h_real = Float32.ceilf h_real \/
  Float32.floorf v_real = Float32.ceilf v_real ->
  FloatClass.non_finite
    (Backprojection.interpolate h v proj proj_width proj_height
       pixel_size_x pixel_size_y offset_x offset_y) = true.
Proof. exact (interpolate_integral h v proj proj_width proj_height
                pixel_size_x pixel_size_y offset_x offset_y). Qed.

Lemma interpolate_integral_coordinate_not_finite_witness :
  let h := Float32.dyadic (-1) (-1) in
  let v := Float32.dyadic 1 (-2) in
  let h_real := Backprojection.proj_real_coordinate h 4 Float32.one Float32.zero in
  let v_real := Backprojection.proj_real_coordinate v 4 Float32.one Float32.zero in
  (Float32.floorf h_real = Float32.ceilf h_real \/
   Float32.floorf v_real = Float32.ceilf v_real) /\
  FloatClass.non_finite
    (Backprojection.interpolate h v (fun _ _ => Float32.one) 4 4
       Float32.one Float32.one Float32.zero Float32.zero) = true.
Proof.
  intros h v h_real v_real.
  assert (Hint : Float32.floorf h_real = Float32.ceilf h_real \/
                 Float32.floorf v_real = Float32.ceilf v_real).
  { left. vm_compute. reflexivity. }
  split; [exact Hint|].
  exact (interpolate_integral_coordinate_not_finite h v (fun _ _ => Float32.one)
           4 4 Float32.one Float32.one Float32.zero Float32.zero Hint).
Defined.

Section VoxelUpdates.
Import Float32 FloatClass Backprojection.

Variable powf : float -> float -> float.

Let guard (g : launch_geometry) (th : Z * Z * Z) : bool :=
  (fst (fst th) <? vol_w g) && (snd (fst th) <? vol_h g) && (snd th <? vol_d g).

(** One launch of [backproject], cell by cell. *)
Lemma backproject_launch (g : launch_geometry) (proj : projection)
    (gx gy gz : Z) (vol : volume) (k l m : Z) :
  Launch.run (backproject powf g proj) (Launch.grid3 gx gy gz) vol (k, l, m)
  = if guard g (k, l, m)
       && ((0 <=? k) && (k <? gx) && ((0 <=? l) && (l <? gy))
           && ((0 <=? m) && (m <? gz)))
    then backproject_voxel powf g proj (vol (k, l, m)) k l m
    else vol (k, l, m).
Proof.
  destruct (guard g (k, l, m)
            && ((0 <=? k) && (k <? gx) && ((0 <=? l) && (l <? gy))
                && ((0 <=? m) && (m <? gz)))) eqn:Hc.
  - apply andb_true_iff in Hc. destruct Hc as [Hg Hin].
    rewrite !andb_true_iff, !Z.leb_le, !Z.ltb_lt in Hin.
    apply (run_thread Launch.eqb3 eqb3_spec (guard g) (fun th => th)
             (fun th old => backproject_voxel powf g proj old
                              (fst (fst th)) (snd (fst th)) (snd th))
             (backproject powf g proj) (fun _ _ => eq_refl) (fun _ _ H => H)
             _ vol (k, l, m) (NoDup_grid3 _ _ _)); [|exact Hg].
    apply in_grid3. lia.
  - apply (run_untouched Launch.eqb3 eqb3_spec (guard g) (fun th => th)
             (fun th old => backproject_voxel powf g proj old
                              (fst (fst th)) (snd (fst th)) (snd th))
             (backproject powf g proj) (fun _ _ => eq_refl)).
    intros th Hin Hg ->. apply in_grid3 in Hin. rewrite Hg in Hc.
    rewrite andb_true_l in Hc.
    assert (Ht : (0 <=? k) && (k <? gx) && ((0 <=? l) && (l <? gy))
                 && ((0 <=? m) && (m <? gz)) = true).
    { rewrite !andb_true_iff, !Z.leb_le, !Z.ltb_lt. lia. }
    congruence.
Qed.

Lemma init_volume_launch (width height depth gx gy gz : Z) (vol : volume)
    (k l m : Z) :
  (k <? width) && (l <? height) && (m <? depth) = false ->
  Launch.run (init_volume width height depth) (Launch.grid3 gx gy gz) vol (k, l, m)
  = vol (k, l, m).
Proof.
  intros Hg.
  apply (run_untouched Launch.eqb3 eqb3_spec
           (fun th => (fst (fst th) <? width) && (snd (fst th) <? height)
                      && (snd th <? depth))
           (fun th => th) (fun _ _ => zero)
           (init_volume width height depth) (fun _ _ => eq_refl)).
  intros th _ Hth ->. simpl in Hth. congruence.
Qed.

Lemma backproject_voxel_non_finite (g : launch_geometry) (proj : projection)
    (row_k : float) (k l m : Z) :
  non_finite row_k = true ->
  non_finite (backproject_voxel powf g proj row_k k l m) = true.
Proof. intros H. unfold backproject_voxel. now apply fadd_non_finite_l. Qed.

End VoxelUpdates.

(** A voxel that holds NaN or an infinity holds NaN or an infinity after
    every further launch of [backproject], whatever the projection, the
    angle and [powf]: the kernel only adds to the voxel. *)
Theorem non_finite_voxel_stays_non_finite
    (powf : Float32.float -> Float32.float -> Float32.float)
    (g : Backprojection.launch_geometry) (proj : Backprojection.projection)
    (gx gy gz : Z) (vol : Backprojection.volume) (c : Z * Z * Z) :
  FloatClass.non_finite (vol c) = true ->
  FloatClass.non_finite
    (Launch.run (Backprojection.backproject powf g proj)
       (Launch.grid3 gx gy gz) vol c) = true.
Proof.
  destruct c as [[k l] m]. intros H.
  rewrite backproject_launch.
  match goal with |- context [if ?b then _ else _] => destruct b end.
  - now apply backproject_voxel_non_finite.
  - exact H.
Qed.

Lemma non_finite_voxel_stays_non_finite_witness :
  let g := {| Backprojection.vol_w := 2; Backprojection.vol_h := 2;
              Backprojection.vol_d := 2;
              Backprojection.voxel_size_x := Float32.half;
              Backprojection.voxel_size_y := Float32.half;
              Backprojection.voxel_size_z := Float32.half;
              Backprojection.proj_w := 32; Backprojection.proj_h := 32;
              Backprojection.pixel_size_x := Float32.one;
              Backprojection.pixel_size_y := Float32.one;
              Backprojection.pixel_offset_x := Float32.zero;
              Backprojection.pixel_offset_y := Float32.zero;
              Backprojection.angle_sin := Float32.zero;
              Backprojection.angle_cos := Float32.one;
              Backprojection.dist_src := Float32.of_Z 100;
              Backprojection.dist_sd := Float32.of_Z 200 |} in
  FloatClass.non_finite
    (Launch.run
       (Backprojection.backproject (fun x _ => Float32.fmul x x) g
          (fun _ _ => Float32.one))
       (Launch.grid3 2 2 2) (fun _ => S754_nan) (1, 0, 1)) = true.
Proof.
  intros g.
  apply (non_finite_voxel_stays_non_finite (fun x _ => Float32.fmul x x) g
           (fun _ _ => Float32.one) 2 2 2 (fun _ => S754_nan) (1, 0, 1)).
  reflexivity.
Defined.

(** ** The kernels in pitched memory *)

Section GuardedLaunch.
Context {T K V : Type}.
Variable eqb : K -> K -> bool.
Hypothesis eqb_spec : forall a b, eqb a b = true <-> a = b.
Variable guard : T -> bool.
Variable cell : T -> K.
Variable f : T -> V -> V.
Variable thread : (K -> V) -> T -> (K -> V).
Hypothesis thread_body : forall mem th,
  thread mem th =
  if guard th then Launch.write eqb mem (cell th) (f th (mem (cell th))) else mem.

(** As [run_thread], for a kernel whose guarded threads of the grid have
    cells of their own. *)
Lemma run_guarded_thread (grid : list T) : forall mem th,
  (forall a b, In a grid -> In b grid -> guard a = true -> guard b = true ->
               cell a = cell b -> a = b) ->
  NoDup grid -> In th grid -> guard th = true ->
  Launch.run thread grid mem (cell th) = f th (mem (cell th)).
Proof.
  unfold Launch.run. induction grid as [|a grid IH]; intros mem th Hinj Hnd Hin Hg.
  - destruct Hin.
  - apply NoDup_cons_iff in Hnd. destruct Hnd as [Hnotin Hnd].
    simpl. destruct Hin as [->|Hin].
    + pose proof (run_untouched eqb eqb_spec guard cell f thread thread_body
                    grid (thread mem th) (cell th)) as Hu.
      unfold Launch.run in Hu. rewrite Hu.
      * rewrite thread_body, Hg. apply (write_same eqb eqb_spec).
      * intros th' Hth' Hg' Heq. apply Hnotin.
        rewrite <- (Hinj th' th); auto; [now right|now left].
    + rewrite IH; try assumption.
      * f_equal. rewrite thread_body. destruct (guard a) eqn:Ea; [|reflexivity].
        apply (write_other eqb eqb_spec). intros Heq. apply Hnotin.
        rewrite (Hinj a th); auto; [now left|now right].
      * intros x y Hx Hy. apply Hinj; now right.
Qed.

End GuardedLaunch.

Section PitchedFacts.
Import Float32 Backprojection.

Variable powf : float -> float -> float.
Variable round_up : Z -> Z.
Hypothesis round_up_covers : forall n, n <= round_up n.
Variable g : launch_geometry.
Variable vol_pitch : Z.
Hypothesis row_fits : 0 <= 4 * vol_w g <= vol_pitch.
Hypothesis allocation_fits : vol_pitch * vol_h g * vol_d g < 2 ^ 64.

Let guard (th : Z * Z * Z) : bool :=
  (fst (fst th) <? vol_w g) && (snd (fst th) <? vol_h g) && (snd th <? vol_d g).

Let address (k l m : Z) : Z := m * (vol_pitch * vol_h g) + l * vol_pitch + 4 * k.

Let grid := Launch.grid3 (round_up (vol_w g)) (round_up (vol_h g))
              (round_up (vol_d g)).

Lemma guarded_thread_in_volume k l m :
  In (k, l, m) grid -> guard (k, l, m) = true ->
  0 <= k < vol_w g /\ 0 <= l < vol_h g /\ 0 <= m < vol_d g.
Proof.
  intros Hin Hg. apply in_grid3 in Hin. unfold guard in Hg. simpl in Hg.
  rewrite !andb_true_iff, !Z.ltb_lt in Hg. lia.
Qed.

Lemma offset_in_volume k l m :
  0 <= k < vol_w g -> 0 <= l < vol_h g -> 0 <= m < vol_d g ->
  Pitched.offset vol_pitch (vol_h g) (k, l, m) = address k l m /\
  0 <= address k l m /\ address k l m + 4 <= vol_pitch * vol_h g * vol_d g.
Proof.
  intros Hk Hl Hm. unfold Pitched.offset, address. cbn [fst snd].
  assert (Hp : 0 <= vol_pitch) by lia.
  assert (Hph : 0 <= vol_pitch * vol_h g) by nia.
  assert (Hslice : vol_pitch * vol_h g <= vol_pitch * vol_h g * vol_d g) by nia.
  rewrite (wrap64_small (vol_pitch * vol_h g)) by (unfold is_u64; lia).
  rewrite (wrap64_small (m * (vol_pitch * vol_h g))) by (unfold is_u64; nia).
  rewrite (wrap64_small (l * vol_pitch)) by (unfold is_u64; nia).
  split; [reflexivity|]. split; nia.
Qed.

Lemma address_injective k l m k' l' m' :
  0 <= k < vol_w g -> 0 <= l < vol_h g -> 0 <= m < vol_d g ->
  0 <= k' < vol_w g -> 0 <= l' < vol_h g -> 0 <= m' < vol_d g ->
  address k l m = address k' l' m' -> (k, l, m) = (k', l', m').
Proof.
  unfold address. intros Hk Hl Hm Hk' Hl' Hm' Heq.
  assert (Hr : 0 <= l * vol_pitch + 4 * k < vol_pitch * vol_h g) by nia.
  assert (Hr' : 0 <= l' * vol_pitch + 4 * k' < vol_pitch * vol_h g) by nia.
  assert (Hmm : m = m').
  { remember (vol_pitch * vol_h g) as S eqn:ES.
    remember (l * vol_pitch + 4 * k) as r eqn:Er.
    remember (l' * vol_pitch + 4 * k') as r' eqn:Er'.
    assert (Heq' : m * S + r = m' * S + r') by lia.
    clear - Hr Hr' Heq'. nia. }
  subst m'.
  assert (Hll : l = l').
  { assert (Hc : 0 <= 4 * k < vol_pitch) by lia.
    assert (Hc' : 0 <= 4 * k' < vol_pitch) by lia.
    assert (Heq' : l * vol_pitch + 4 * k = l' * vol_pitch + 4 * k') by lia.
    remember (4 * k) as c eqn:Ec. remember (4 * k') as c' eqn:Ec'.
    clear - Hc Hc' Heq'. nia. }
  subst l'.
  assert (Hkk : k = k') by lia. now subst k'.
Qed.

Lemma offset_injective_on_grid a b :
  In a grid -> In b grid -> guard a = true -> guard b = true ->
  Pitched.offset vol_pitch (vol_h g) a = Pitched.offset vol_pitch (vol_h g) b ->
  a = b.
Proof.
  destruct a as [[k l] m], b as [[k' l'] m']. intros Ha Hb Hga Hgb Heq.
  destruct (guarded_thread_in_volume k l m Ha Hga) as (Hk & Hl & Hm).
  destruct (guarded_thread_in_volume k' l' m' Hb Hgb) as (Hk' & Hl' & Hm').
  destruct (offset_in_volume k l m Hk Hl Hm) as [E _].
  destruct (offset_in_volume k' l' m' Hk' Hl' Hm') as [E' _].
  rewrite E, E' in Heq. now apply address_injective.
Qed.

Lemma pitched_voxel (garbage : Pitched.memory) (proj : projection) k l m :
  0 <= k < vol_w g -> 0 <= l < vol_h g -> 0 <= m < vol_d g ->
  Pitched.backproject_one powf round_up g vol_pitch garbage proj (address k l m)
  = backproject_voxel powf g proj zero k l m.
Proof.
  intros Hk Hl Hm. unfold Pitched.backproject_one. cbv zeta. fold grid.
  destruct (offset_in_volume k l m Hk Hl Hm) as [E _]. rewrite <- E.
  assert (Hin : In (k, l, m) grid).
  { apply in_grid3. pose proof (round_up_covers (vol_w g)).
    pose proof (round_up_covers (vol_h g)). pose proof (round_up_covers (vol_d g)).
    lia. }
  assert (Hg : guard (k, l, m) = true).
  { unfold guard. simpl. rewrite !andb_true_iff, !Z.ltb_lt. lia. }
  rewrite (run_guarded_thread Z.eqb Z.eqb_eq guard
             (Pitched.offset vol_pitch (vol_h g))
             (fun th old => backproject_voxel powf g proj old
                              (fst (fst th)) (snd (fst th)) (snd th))
             (Pitched.backproject powf g vol_pitch proj) (fun _ _ => eq_refl)
             grid _ (k, l, m) offset_injective_on_grid (NoDup_grid3 _ _ _) Hin Hg).
  cbv beta. cbn [fst snd].
  pose proof (run_guarded_thread Z.eqb Z.eqb_eq guard
             (Pitched.offset vol_pitch (vol_h g)) (fun _ _ => zero)
             (Pitched.init_volume (vol_w g) (vol_h g) (vol_d g) vol_pitch)
             (fun _ _ => eq_refl)
             grid garbage (k, l, m) offset_injective_on_grid (NoDup_grid3 _ _ _)
             Hin Hg) as Hinit.
  cbv beta in Hinit.
  apply (f_equal (fun r => backproject_voxel powf g proj r k l m)).
  exact Hinit.
Qed.

Lemma pitched_untouched (garbage : Pitched.memory) (proj : projection) a :
  (forall k l m, 0 <= k < vol_w g -> 0 <= l < vol_h g -> 0 <= m < vol_d g ->
                 a <> address k l m) ->
  Pitched.backproject_one powf round_up g vol_pitch garbage proj a = garbage a.
Proof.
  intros Ha. unfold Pitched.backproject_one. cbv zeta. fold grid.
  assert (Hcell : forall th, In th grid -> guard th = true ->
                    Pitched.offset vol_pitch (vol_h g) th <> a).
  { intros [[k l] m] Hin Hg.
    destruct (guarded_thread_in_volume k l m Hin Hg) as (Hk & Hl & Hm).
    destruct (offset_in_volume k l m Hk Hl Hm) as [E _]. rewrite E.
    intros Heq. apply (Ha k l m Hk Hl Hm). now symmetry. }
  rewrite (run_untouched Z.eqb Z.eqb_eq guard
             (Pitched.offset vol_pitch (vol_h g))
             (fun th old => backproject_voxel powf g proj old
                              (fst (fst th)) (snd (fst th)) (snd th))
             (Pitched.backproject powf g vol_pitch proj) (fun _ _ => eq_refl)
             grid _ a Hcell).
  apply (run_untouched Z.eqb Z.eqb_eq guard
           (Pitched.offset vol_pitch (vol_h g)) (fun _ _ => zero)
           (Pitched.init_volume (vol_w g) (vol_h g) (vol_d g) vol_pitch)
           (fun _ _ => eq_refl) grid garbage a Hcell).
Qed.

End PitchedFacts.

(** In pitched memory, with rows of at least [4 * vol_w] bytes in an
    allocation that fits the address space, the voxels of a sub-volume
    have addresses of their own inside the allocation; after the two
    launches of [create_volumes] and [processor] the cell of voxel
    [(k, l, m)] holds what the kernels compute for that voxel, and every
    other cell, inside the allocation (the row padding) or outside it,
    keeps its content, however far the launch grid is rounded up. *)
Theorem pitched_launches_write_only_voxels
    (powf : Float32.float -> Float32.float -> Float32.float)
    (round_up : Z -> Z) (g : Backprojection.launch_geometry) (vol_pitch : Z)
    (garbage : Pitched.memory) (cells : Backprojection.volume)
    (proj : Backprojection.projection) :
  (forall n, n <= round_up n) ->
  0 <= 4 * Backprojection.vol_w g <= vol_pitch ->
  vol_pitch * Backprojection.vol_h g * Backprojection.vol_d g < 2 ^ 64 ->
  let address k l m :=
    m * (vol_pitch * Backprojection.vol_h g) + l * vol_pitch + 4 * k in
  let inside k l m :=
    0 <= k < Backprojection.vol_w g /\ 0 <= l < Backprojection.vol_h g /\
    0 <= m < Backprojection.vol_d g in
  let out := Pitched.backproject_one powf round_up g vol_pitch garbage proj in
  (forall k l m, inside k l m ->
     0 <= address k l m /\
     address k l m + 4
     <= vol_pitch * Backprojection.vol_h g * Backprojection.vol_d g /\
     (forall k' l' m', inside k' l' m' -> address k l m = address k' l' m' ->
        (k, l, m) = (k', l', m')) /\
     out (address k l m)
     = Backprojection.backproject_one powf round_up g cells proj (k, l, m)) /\
  (forall a, (forall k l m, inside k l m -> a <> address k l m) ->
     out a = garbage a) /\
  (forall a, a < 0 \/
             vol_pitch * Backprojection.vol_h g * Backprojection.vol_d g <= a ->
     out a = garbage a).
Proof.
  intros Hround Hrow Hfit address inside out.
  assert (Hunt : forall a,
            (forall k l m, inside k l m -> a <> address k l m) ->
            out a = garbage a).
  { intros a Ha.
    apply (pitched_untouched powf round_up g vol_pitch Hrow Hfit garbage proj a).
    intros k l m Hk Hl Hm. apply Ha. unfold inside. auto. }
  split; [|split].
  - intros k l m (Hk & Hl & Hm).
    destruct (offset_in_volume g vol_pitch Hrow Hfit k l m Hk Hl Hm)
      as (_ & Hlo & Hhi).
    split; [exact Hlo|]. split; [exact Hhi|]. split.
    + intros k' l' m' (Hk' & Hl' & Hm') Heq.
      now apply (address_injective g vol_pitch Hrow).
    + unfold out, address.
      rewrite (pitched_voxel powf round_up Hround g vol_pitch Hrow Hfit
                 garbage proj k l m Hk Hl Hm).
      symmetry. now apply backproject_one_voxel.
  - exact Hunt.
  - intros a Ha. apply Hunt. intros k l m (Hk & Hl & Hm) Heq.
    destruct (offset_in_volume g vol_pitch Hrow Hfit k l m Hk Hl Hm)
      as (_ & Hlo & Hhi).
    fold (address k l m) in Hlo, Hhi. lia.
Qed.

Lemma pitched_launches_write_only_voxels_witness :
  let g := {| Backprojection.vol_w := 2; Backprojection.vol_h := 2;
              Backprojection.vol_d := 2;
              Backprojection.voxel_size_x := Float32.half;
              Backprojection.voxel_size_y := Float32.half;
              Backprojection.voxel_size_z := Float32.half;
              Backprojection.proj_w := 32; Backprojection.proj_h := 32;
              Backprojection.pixel_size_x := Float32.one;
              Backprojection.pixel_size_y := Float32.one;
              Backprojection.pixel_offset_x := Float32.zero;
              Backprojection.pixel_offset_y := Float32.zero;
              Backprojection.angle_sin := Float32.zero;
              Backprojection.angle_cos := Float32.one;
              Backprojection.dist_src := Float32.of_Z 100;
              Backprojection.dist_sd := Float32.of_Z 200 |} in
  let powf := fun x (_ : Float32.float) => Float32.fmul x x in
  let round_up := fun n => 16 * ((n + 15) / 16) in
  let garbage : Pitched.memory := fun _ => Float32.one in
  let cells : Backprojection.volume := fun _ => Float32.two in
  let proj : Backprojection.projection := fun _ _ => Float32.one in
  let address k l m := m * (512 * 2) + l * 512 + 4 * k in
  let inside k l m := 0 <= k < 2 /\ 0 <= l < 2 /\ 0 <= m < 2 in
  let out := Pitched.backproject_one powf round_up g 512 garbage proj in
  (forall k l m, inside k l m ->
     0 <= address k l m /\
     address k l m + 4 <= 512 * 2 * 2 /\
     (forall k' l' m', inside k' l' m' -> address k l m = address k' l' m' ->
        (k, l, m) = (k', l', m')) /\
     out (address k l m)
     = Backprojection.backproject_one powf round_up g cells proj (k, l, m)) /\
  (forall a, (forall k l m, inside k l m -> a <> address k l m) ->
     out a = garbage a) /\
  (forall a, a < 0 \/ 512 * 2 * 2 <= a -> out a = garbage a).
Proof.
  intros g powf round_up garbage cells proj.
  apply (pitched_launches_write_only_voxels powf round_up g 512 garbage cells proj).
  - intros n. unfold round_up. Z.div_mod_to_equations. lia.
  - simpl. lia.
  - simpl. lia.
Defined.

(** ** Merging the sub-volumes *)

Section MergeFacts.
Import Scheduler Feldkamp Merge.
Context {A : Type}.

Variable p : plan.
Variable content : Z -> Z -> Z -> A.
Hypothesis devices_positive : 0 < devices_ p.
Hypothesis dim_z_size_t : is_u64 (dim_z_ p).

Let S := dim_z_ p / devices_ p.
Let count (i : Z) := get_volume_num (volumes_per_device_ (chunks_ p)) i.

Lemma volume_map_chunks i :
  volume_map_ p content i
  = map (fun c => {| depth := S / count i; slices := content i c |})
      (range (count i)).
Proof.
  unfold volume_map_, create_volumes. cbv zeta. fold S (count i).
  rewrite <- (map_id (range (count i))) at 1.
  rewrite combine_map_same, map_map. reflexivity.
Qed.

Lemma device_band_bounds i :
  0 <= i < devices_ p -> 0 <= S /\ 0 <= i * S /\ (i + 1) * S <= dim_z_ p.
Proof.
  intros Hi. unfold S. destruct dim_z_size_t as [H0 _].
  pose proof (Z.div_pos (dim_z_ p) (devices_ p) H0 devices_positive) as HS.
  pose proof (Z.mul_div_le (dim_z_ p) (devices_ p) devices_positive) as Hle.
  split; [exact HS|]. split; [nia|]. nia.
Qed.

(** Copies to one and the same window: the last one stays. *)
Lemma copies_to_one_window (first_row d : Z) (vs : list (@sub_volume A)) :
  forall out z,
  Forall (fun v => depth v = d) vs ->
  fold_left (fun o v => copy_slices o first_row v) vs out z
  = match rev vs with
    | [] => out z
    | v :: _ =>
        if (first_row <=? z) && (z <? first_row + d)
        then slices v (z - first_row) else out z
    end.
Proof.
  induction vs as [|v vs IH] using rev_ind; intros out z Hd.
  - reflexivity.
  - rewrite fold_left_app, rev_app_distr. simpl.
    apply Forall_app in Hd. destruct Hd as [Hvs Hv].
    apply Forall_inv in Hv. unfold copy_slices at 1. rewrite Hv.
    destruct ((first_row <=? z) && (z <? first_row + d)) eqn:E; [reflexivity|].
    rewrite IH by exact Hvs. destruct (rev vs); [reflexivity|].
    now rewrite E.
Qed.

Lemma merge_device_window (out : Z -> A) i z :
  0 <= i < devices_ p ->
  merge_device p content out i z
  = if (1 <=? count i) && ((i * S <=? z) && (z <? i * S + S / count i))
    then content i (count i - 1) (z - i * S) else out z.
Proof.
  intros Hi. destruct (device_band_bounds i Hi) as (HS & Hlo & Hhi).
  unfold merge_device. cbv zeta. fold S (count i).
  rewrite Z.mul_0_l.
  assert (Hoff : wrap64 (wrap64 (i * S) + wrap64 0) = i * S).
  { assert (Hu : is_u64 (i * S)).
    { unfold is_u64 in *. nia. }
    rewrite (wrap64_small (i * S)) by exact Hu.
    rewrite (wrap64_small 0) by (unfold is_u64; lia).
    rewrite Z.add_0_r. now apply wrap64_small. }
  rewrite Hoff, volume_map_chunks.
  rewrite (copies_to_one_window (i * S) (S / count i)).
  2:{ apply Forall_forall. intros v Hv. apply in_map_iff in Hv.
      destruct Hv as (c & <- & _). reflexivity. }
  destruct (1 <=? count i) eqn:Hn.
  - apply Z.leb_le in Hn.
    replace (count i) with ((count i - 1) + 1) at 1 by lia.
    rewrite range_succ by lia. rewrite map_app, rev_app_distr. simpl.
    reflexivity.
  - apply Z.leb_gt in Hn. rewrite range_nonpos by lia. reflexivity.
Qed.

Variable garbage : Z -> A.

Lemma chunk_depth_bound i : 0 <= S -> 1 <= count i -> S / count i <= S.
Proof. intros HS Hn. apply Z.div_le_upper_bound; nia. Qed.

Lemma merge_prefix k :
  0 <= k -> k <= devices_ p ->
  forall i z, 0 <= i < devices_ p -> i * S <= z < (i + 1) * S ->
  fold_left (merge_device p content) (range k) garbage z
  = if (i <? k) && ((1 <=? count i) && (z <? i * S + S / count i))
    then content i (count i - 1) (z - i * S) else garbage z.
Proof.
  intros Hk. pattern k. apply natlike_ind; [| |exact Hk]; clear k Hk.
  - intros _ i z Hi Hz. simpl.
    replace (i <? 0) with false by (symmetry; apply Z.ltb_ge; lia).
    reflexivity.
  - intros k Hk IH Hk1 i z Hi Hz. unfold Z.succ.
    rewrite range_succ, fold_left_app by exact Hk. simpl.
    rewrite merge_device_window by lia.
    rewrite (IH ltac:(lia) i z Hi Hz).
    destruct (device_band_bounds i Hi) as (HS & _ & _).
    destruct (Z.lt_trichotomy i k) as [Hlt|[Heq|Hgt]].
    + replace (k * S <=? z) with false by (symmetry; apply Z.leb_gt; nia).
      rewrite andb_false_l, andb_false_r.
      replace (i <? k) with true by (symmetry; apply Z.ltb_lt; lia).
      replace (i <? k + 1) with true by (symmetry; apply Z.ltb_lt; lia).
      reflexivity.
    + subst i.
      replace (k <? k) with false by (symmetry; apply Z.ltb_ge; lia).
      replace (k <? k + 1) with true by (symmetry; apply Z.ltb_lt; lia).
      replace (k * S <=? z) with true by (symmetry; apply Z.leb_le; lia).
      rewrite !andb_true_l, andb_false_l. reflexivity.
    + replace (i <? k) with false by (symmetry; apply Z.ltb_ge; lia).
      replace (i <? k + 1) with false by (symmetry; apply Z.ltb_ge; lia).
      rewrite !andb_false_l.
      destruct (1 <=? count k) eqn:Hn; [|reflexivity].
      apply Z.leb_le in Hn. pose proof (chunk_depth_bound k HS Hn).
      replace (z <? k * S + S / count k) with false
        by (symmetry; apply Z.ltb_ge; nia).
      now rewrite !andb_false_r.
Qed.

Lemma merge_outside k :
  0 <= k -> k <= devices_ p ->
  forall z, z < 0 \/ devices_ p * S <= z ->
  fold_left (merge_device p content) (range k) garbage z = garbage z.
Proof.
  intros Hk. pattern k. apply natlike_ind; [| |exact Hk]; clear k Hk.
  - intros _ z _. reflexivity.
  - intros k Hk IH Hk1 z Hz. unfold Z.succ.
    rewrite range_succ, fold_left_app by exact Hk. simpl.
    rewrite merge_device_window by lia.
    rewrite (IH ltac:(lia) z Hz).
    destruct (device_band_bounds k ltac:(lia)) as (HS & Hlo & _).
    destruct (1 <=? count k) eqn:Hn; [|reflexivity].
    apply Z.leb_le in Hn. pose proof (chunk_depth_bound k HS Hn).
    destruct (k * S <=? z) eqn:E1; [|reflexivity].
    apply Z.leb_le in E1.
    replace (z <? k * S + S / count k) with false
      by (symmetry; apply Z.ltb_ge; nia).
    reflexivity.
Qed.

End MergeFacts.

(** [merge_volumes] on the sub-volumes [create_volumes] allocated: of the
    band of [dim_z / devices] slices that belongs to device [i], the first
    [(dim_z / devices) / n] slices receive the device's last chunk
    [n - 1], every chunk being copied to the start of the band; the other
    slices of the band, and every slice outside the bands, keep the
    content of the fresh host volume. *)
Theorem merge_volumes_keeps_last_chunk {A : Type} (p : Scheduler.plan)
    (content : Z -> Z -> Z -> A) (garbage : Z -> A) :
  0 < Scheduler.devices_ p ->
  is_u64 (Scheduler.dim_z_ p) ->
  let S := Scheduler.dim_z_ p / Scheduler.devices_ p in
  let count i :=
    Scheduler.get_volume_num
      (Scheduler.volumes_per_device_ (Scheduler.chunks_ p)) i in
  (forall i z, 0 <= i < Scheduler.devices_ p -> i * S <= z < (i + 1) * S ->
     Merge.merge_volumes p content garbage z
     = if (1 <=? count i) && (z <? i * S + S / count i)
       then content i (count i - 1) (z - i * S) else garbage z) /\
  (forall z, z < 0 \/ Scheduler.devices_ p * S <= z ->
     Merge.merge_volumes p content garbage z = garbage z).
Proof.
  intros Hd Hz S count. unfold Merge.merge_volumes. split.
  - intros i z Hi Hband.
    rewrite (merge_prefix p content Hd Hz garbage (Scheduler.devices_ p))
      with (i := i) by (assumption || lia).
    replace (i <? Scheduler.devices_ p) with true
      by (symmetry; apply Z.ltb_lt; lia).
    reflexivity.
  - intros z Hout.
    apply (merge_outside p content Hd Hz garbage); [lia|lia|exact Hout].
Qed.

Lemma merge_volumes_keeps_last_chunk_witness :
  let p := {| Scheduler.dim_z_ := 512; Scheduler.devices_ := 2;
              Scheduler.chunks_ :=
                {| Scheduler.volume_bytes_ := 2 ^ 28;
                   Scheduler.volume_count_ := 6;
                   Scheduler.volumes_per_device_ := [(0, 2); (1, 4)] |};
              Scheduler.offset_per_volume_ := [] |} in
  let content := fun i c z : Z => 1000 * i + 100 * c + z in
  let garbage := fun _ : Z => -1 in
  (forall i z, 0 <= i < 2 -> i * 256 <= z < (i + 1) * 256 ->
     Merge.merge_volumes p content garbage z
     = if (1 <=? Scheduler.get_volume_num [(0, 2); (1, 4)] i)
          && (z <? i * 256 + 256 / Scheduler.get_volume_num [(0, 2); (1, 4)] i)
       then content i (Scheduler.get_volume_num [(0, 2); (1, 4)] i - 1)
              (z - i * 256)
       else garbage z) /\
  (forall z, z < 0 \/ 2 * 256 <= z ->
     Merge.merge_volumes p content garbage z = garbage z).
Proof.
  intros p content garbage.
  apply (merge_volumes_keeps_last_chunk p content garbage).
  - simpl. lia.
  - unfold is_u64. simpl. lia.
Defined.

(** ** Distribution of the sub-projections *)

Section DistributionFacts.
Import Scheduler Distribution.

Variable devices : Z.
Variable vpd : dev_map.
Variable subproj_dims_ : list (Z * Z).

Let count (i : Z) := get_volume_num vpd i.
Let first (k : Z) := sumZ (map count (range k)).

Hypothesis counts_unsigned : forall i, 0 <= i < devices -> 0 <= count i.
Hypothesis counts_fit : first devices <= Z.of_nat (length subproj_dims_).

Lemma sumZ_app l1 l2 : sumZ (l1 ++ l2) = sumZ l1 + sumZ l2.
Proof. induction l1 as [|x l1 IH]; simpl; [reflexivity|]. unfold sumZ in *. simpl. lia. Qed.

Lemma first_succ k : 0 <= k -> first (k + 1) = first k + count k.
Proof.
  intros Hk. unfold first. rewrite range_succ, map_app, sumZ_app by exact Hk.
  simpl. lia.
Qed.

Lemma first_monotone k :
  0 <= k -> k <= devices ->
  0 <= first k /\ first k <= first devices.
Proof.
  intros Hk Hkd.
  assert (Hnn : forall j, 0 <= j -> j <= devices -> 0 <= first j).
  { intros j Hj. pattern j. apply natlike_ind; [| |exact Hj]; clear j Hj.
    - intros _. unfold first. simpl. lia.
    - intros j Hj IH Hjd. unfold Z.succ. rewrite first_succ by exact Hj.
      pose proof (counts_unsigned j ltac:(lia)). lia. }
  split; [now apply Hnn|].
  assert (Hmono : forall d, 0 <= d -> k + d <= devices -> first k <= first (k + d)).
  { intros d Hd. pattern d. apply natlike_ind; [| |exact Hd]; clear d Hd.
    - intros _. rewrite Z.add_0_r. lia.
    - intros d Hd IH Hle. unfold Z.succ. rewrite Z.add_assoc.
      rewrite first_succ by lia.
      pose proof (counts_unsigned (k + d) ltac:(lia)). lia. }
  pose proof (Hmono (devices - k) ltac:(lia) ltac:(lia)) as H.
  replace (k + (devices - k)) with devices in H by lia. exact H.
Qed.

Lemma lookup_indexed {V} (g : Z -> V) k d :
  0 <= k ->
  Assoc.lookup Z.eqb (map (fun i => (i, g i)) (range k)) d
  = if (0 <=? d) && (d <? k) then Some (g d) else None.
Proof.
  intros Hk. pattern k. apply natlike_ind; [| |exact Hk]; clear k Hk.
  - simpl. destruct (0 <=? d) eqn:E; [|reflexivity].
    apply Z.leb_le in E.
    replace (d <? 0) with false by (symmetry; apply Z.ltb_ge; lia).
    reflexivity.
  - intros k Hk IH. unfold Z.succ.
    rewrite range_succ, map_app, (lookup_app Z.eqb), IH by exact Hk.
    simpl. destruct (0 <=? d) eqn:E0; simpl.
    + apply Z.leb_le in E0. destruct (d <? k) eqn:E1.
      * apply Z.ltb_lt in E1.
        replace (d <? k + 1) with true by (symmetry; apply Z.ltb_lt; lia).
        reflexivity.
      * apply Z.ltb_ge in E1. destruct (Z.eqb_spec k d) as [->|Hne].
        -- replace (d <? d + 1) with true by (symmetry; apply Z.ltb_lt; lia).
           reflexivity.
        -- replace (d <? k + 1) with false by (symmetry; apply Z.ltb_ge; lia).
           reflexivity.
    + apply Z.leb_gt in E0. destruct (Z.eqb_spec k d) as [->|Hne]; [lia|].
      reflexivity.
Qed.

(** [subprojs_] after the loop over the first [k] devices. *)
Let slices_of (k : Z) : subproj_map :=
  map (fun i => (i, slice subproj_dims_ (first i) (count i))) (range k).

Lemma distribute_loop k :
  0 <= k -> k <= devices ->
  fold_left (distribute_step vpd subproj_dims_) (range k) (Some (0, []))
  = Some (first k, slices_of k).
Proof.
  intros Hk. pattern k. apply natlike_ind; [| |exact Hk]; clear k Hk.
  - intros _. reflexivity.
  - intros k Hk IH Hle. unfold Z.succ.
    rewrite range_succ, fold_left_app, IH by lia. simpl.
    fold (count k). rewrite <- first_succ by exact Hk.
    destruct (first_monotone (k + 1) ltac:(lia) ltac:(lia)) as [_ Hmax].
    replace (first (k + 1) <=? Z.of_nat (length subproj_dims_)) with true
      by (symmetry; apply Z.leb_le; lia).
    unfold Assoc.emplace, slices_of. rewrite lookup_indexed by exact Hk.
    replace (k <? k) with false by (symmetry; apply Z.ltb_ge; lia).
    rewrite andb_false_r, range_succ, map_app by exact Hk. reflexivity.
Qed.

Lemma slice_nth {V} (l : list V) pos n c d :
  0 <= pos -> 0 <= c ->
  nth (Z.to_nat c) (slice l pos n) d
  = if c <? n then nth (Z.to_nat (pos + c)) l d else d.
Proof.
  intros Hpos Hc. unfold slice. rewrite nth_firstn.
  destruct (c <? n) eqn:E.
  - apply Z.ltb_lt in E.
    replace (Nat.ltb (Z.to_nat c) (Z.to_nat n)) with true
      by (symmetry; apply Nat.ltb_lt; lia).
    rewrite nth_skipn. f_equal. lia.
  - apply Z.ltb_ge in E.
    replace (Nat.ltb (Z.to_nat c) (Z.to_nat n)) with false
      by (symmetry; apply Nat.ltb_ge; lia).
    reflexivity.
Qed.

Lemma slice_length {V} (l : list V) pos n :
  0 <= pos -> 0 <= n -> pos + n <= Z.of_nat (length l) ->
  length (slice l pos n) = Z.to_nat n.
Proof.
  intros Hpos Hn Hfit. unfold slice. rewrite length_firstn, length_skipn. lia.
Qed.

Lemma get_subproj_dims_slices i c :
  0 <= devices -> 0 <= c ->
  get_subproj_dims (slices_of devices) i c
  = if (0 <=? i) && (i <? devices) && (c <? count i)
    then nth (Z.to_nat (first i + c)) subproj_dims_ (0, 0)
    else (0, 0).
Proof.
  intros Hd Hc. unfold get_subproj_dims, slices_of.
  rewrite lookup_indexed by exact Hd.
  destruct ((0 <=? i) && (i <? devices)) eqn:Ei; [|reflexivity].
  apply andb_true_iff in Ei. destruct Ei as [Ei0 Ei1].
  apply Z.leb_le in Ei0. apply Z.ltb_lt in Ei1.
  destruct (first_monotone i ltac:(lia) ltac:(lia)) as [Hf _].
  rewrite slice_nth by assumption. reflexivity.
Qed.

Lemma map_nth_all {V} (v : list V) n d :
  length v = Z.to_nat n ->
  map (fun c => nth (Z.to_nat c) v d) (range n) = v.
Proof.
  intros Hlen. apply nth_ext with (d := d) (d' := d).
  - now rewrite length_map, range_length.
  - intros j Hj. rewrite length_map, range_length in Hj.
    rewrite <- (Nat2Z.id j) at 1.
    rewrite (nth_map_range (fun c => nth (Z.to_nat c) v d)) by lia.
    now rewrite Nat2Z.id.
Qed.

Lemma firstn_plus {V} (l : list V) a b :
  firstn (a + b) l = firstn a l ++ firstn b (skipn a l).
Proof.
  revert l. induction a as [|a IH]; intros l; [reflexivity|].
  destruct l as [|x l]; simpl.
  - now rewrite firstn_nil.
  - now rewrite IH.
Qed.

Lemma device_slices_concat k :
  0 <= k -> k <= devices ->
  flat_map (fun i => map (get_subproj_dims (slices_of devices) i)
                       (range (get_subproj_num vpd i)))
    (range k)
  = firstn (Z.to_nat (first k)) subproj_dims_.
Proof.
  intros Hk. pattern k. apply natlike_ind; [| |exact Hk]; clear k Hk.
  - intros _. reflexivity.
  - intros k Hk IH Hle. unfold Z.succ.
    rewrite range_succ, flat_map_app, IH by lia. simpl.
    rewrite app_nil_r, first_succ by exact Hk.
    destruct (first_monotone k ltac:(lia) ltac:(lia)) as [Hf _].
    destruct (first_monotone (k + 1) ltac:(lia) ltac:(lia)) as [_ Hmax].
    rewrite first_succ in Hmax by exact Hk.
    pose proof (counts_unsigned k ltac:(lia)) as Hc.
    rewrite Z2Nat.inj_add, firstn_plus by lia. f_equal.
    unfold get_subproj_num. fold (count k).
    transitivity (map (fun c => nth (Z.to_nat c)
                                  (slice subproj_dims_ (first k) (count k)) (0, 0))
                    (range (count k))).
    + apply map_ext. intros c. unfold get_subproj_dims, slices_of.
      rewrite lookup_indexed by lia.
      replace ((0 <=? k) && (k <? devices)) with true; [reflexivity|].
      symmetry. apply andb_true_iff. rewrite Z.leb_le, Z.ltb_lt. lia.
    + apply map_nth_all. apply slice_length; lia.
Qed.

(** The first row stored for sub-projection [c] of device [i]. *)
Let first_row (i c : Z) : Z :=
  fst (nth (Z.to_nat c) (slice subproj_dims_ (first i) (count i)) (0, 0)).

Lemma subproj_offset_loop i (vec : list (Z * Z)) (l : list Z) : forall offs,
  (forall c, In c l -> 0 <= c < Z.of_nat (length vec)) ->
  fold_left (subproj_offset_step i vec) l (Some offs)
  = Some (fold_left
            (fun o c => Assoc.assign pair_eqb o (i, c)
                          (fst (nth (Z.to_nat c) vec (0, 0))))
            l offs).
Proof.
  induction l as [|a l IH]; intros offs Hl; [reflexivity|].
  cbn [fold_left]. unfold subproj_offset_step at 2.
  destruct (nth_error vec (Z.to_nat a)) as [pr|] eqn:E.
  - rewrite (nth_error_nth _ _ (0, 0) E).
    apply IH. intros c Hc. apply Hl. now right.
  - apply nth_error_None in E. pose proof (Hl a ltac:(now left)). lia.
Qed.

Let offsets_of (l : list Z) (offs : offset_map) : offset_map :=
  fold_left
    (fun o i =>
       fold_left (fun o' c => Assoc.assign pair_eqb o' (i, c) (first_row i c))
         (range (count i)) o)
    l offs.

Lemma subproj_offsets_loop (l : list Z) : forall offs,
  0 <= devices ->
  (forall i, In i l -> 0 <= i < devices) ->
  fold_left (subproj_offsets_of_device vpd (slices_of devices)) l (Some offs)
  = Some (offsets_of l offs).
Proof.
  induction l as [|a l IH]; intros offs Hd Hl; [reflexivity|].
  pose proof (Hl a ltac:(now left)) as Ha.
  cbn [fold_left]. unfold subproj_offsets_of_device at 2. cbv zeta.
  unfold slices_of at 2. rewrite lookup_indexed by exact Hd.
  replace ((0 <=? a) && (a <? devices)) with true
    by (symmetry; apply andb_true_iff; rewrite Z.leb_le, Z.ltb_lt; lia).
  fold (count a).
  destruct (first_monotone a ltac:(lia) ltac:(lia)) as [Hf _].
  destruct (first_monotone (a + 1) ltac:(lia) ltac:(lia)) as [_ Hmax].
  rewrite first_succ in Hmax by lia.
  pose proof (counts_unsigned a Ha) as Hc.
  rewrite subproj_offset_loop.
  - unfold offsets_of. cbn [fold_left]. fold (offsets_of l).
    apply IH; [exact Hd|]. intros i Hi. apply Hl. now right.
  - intros c Hin. apply in_range in Hin.
    rewrite slice_length by lia. lia.
Qed.

Lemma offsets_of_lookup (l : list Z) : forall offs i c,
  Assoc.lookup pair_eqb (offsets_of l offs) (i, c)
  = if existsb (Z.eqb i) l && ((0 <=? c) && (c <? count i))
    then Some (first_row i c)
    else Assoc.lookup pair_eqb offs (i, c).
Proof.
  induction l as [|a l IH]; intros offs i c.
  - reflexivity.
  - unfold offsets_of. cbn [fold_left]. fold (offsets_of l).
    rewrite IH, chunk_loop_lookup, existsb_range. cbn [existsb].
    destruct (Z.eqb_spec i a) as [->|Hne].
    + rewrite Z.eqb_refl. cbn [orb andb].
      destruct (existsb (Z.eqb a) l); cbn [andb];
        destruct ((0 <=? c) && (c <? count a)); reflexivity.
    + replace (a =? i) with false by (symmetry; apply Z.eqb_neq; congruence).
      reflexivity.
Qed.

Lemma get_subproj_offset_slices i c :
  0 <= devices -> 0 <= c ->
  get_subproj_offset (offsets_of (range devices) []) i c
  = fst (get_subproj_dims (slices_of devices) i c).
Proof.
  intros Hd Hc. unfold get_subproj_offset.
  rewrite offsets_of_lookup, existsb_range, get_subproj_dims_slices by assumption.
  replace (0 <=? c) with true by (symmetry; apply Z.leb_le; lia).
  cbn [andb].
  destruct ((0 <=? i) && (i <? devices)) eqn:Ei; [|reflexivity].
  apply andb_true_iff in Ei. destruct Ei as [Ei0 Ei1].
  apply Z.leb_le in Ei0. apply Z.ltb_lt in Ei1.
  destruct (first_monotone i ltac:(lia) ltac:(lia)) as [Hf _].
  cbn [andb]. unfold first_row. rewrite slice_nth by assumption.
  destruct (c <? count i); reflexivity.
Qed.

End DistributionFacts.

(** [distribute_subprojections] hands the row ranges of [subproj_dims_] to
    the devices in plan order, [get_volume_num] of them to each: when the
    chunk counts add up to the number of row ranges, the ranges read back
    through [get_subproj_dims], device by device, are [subproj_dims_],
    none lost and none twice; range [c] of device [i] is the range number
    [count 0 + ... + count (i-1) + c], and an unknown device or index
    reads (0, 0). *)
Theorem subprojections_distributed_in_plan_order (devices : Z)
    (vpd : Scheduler.dev_map) (subproj_dims_ : list (Z * Z)) :
  0 <= devices ->
  (forall i, 0 <= i < devices -> 0 <= Scheduler.get_volume_num vpd i) ->
  sumZ (map (Scheduler.get_volume_num vpd) (range devices))
  = Z.of_nat (length subproj_dims_) ->
  exists subprojs_,
    Distribution.distribute_subprojections devices vpd subproj_dims_
    = Some subprojs_ /\
    flat_map
      (fun i => map (Distribution.get_subproj_dims subprojs_ i)
                  (range (Distribution.get_subproj_num vpd i)))
      (range devices)
    = subproj_dims_ /\
    forall i c, 0 <= c ->
      Distribution.get_subproj_dims subprojs_ i c
      = if (0 <=? i) && (i <? devices) && (c <? Scheduler.get_volume_num vpd i)
        then nth (Z.to_nat
                    (sumZ (map (Scheduler.get_volume_num vpd) (range i)) + c))
               subproj_dims_ (0, 0)
        else (0, 0).
Proof.
  intros Hd Hc Hsum.
  assert (Hfit : sumZ (map (Scheduler.get_volume_num vpd) (range devices))
                 <= Z.of_nat (length subproj_dims_)) by lia.
  exists (map (fun i => (i, Distribution.slice subproj_dims_
                             (sumZ (map (Scheduler.get_volume_num vpd) (range i)))
                             (Scheduler.get_volume_num vpd i)))
            (range devices)).
  split; [|split].
  - unfold Distribution.distribute_subprojections.
    rewrite (distribute_loop devices vpd subproj_dims_ Hc Hfit devices Hd)
      by lia.
    reflexivity.
  - etransitivity.
    + apply (device_slices_concat devices vpd subproj_dims_ Hc Hfit devices Hd).
      lia.
    + assert (Hn : forall n, n = Z.of_nat (length subproj_dims_) ->
                     firstn (Z.to_nat n) subproj_dims_ = subproj_dims_).
      { intros n ->. rewrite Nat2Z.id. apply firstn_all. }
      apply Hn. exact Hsum.
  - intros i c Hc0.
    apply (get_subproj_dims_slices devices vpd subproj_dims_ Hc i c Hd Hc0).
Qed.

Lemma subprojections_distributed_in_plan_order_witness :
  let vpd := [(0, 1); (1, 2)] in
  let subproj_dims_ := [(0, 3); (2, 5); (4, 7)] in
  exists subprojs_,
    Distribution.distribute_subprojections 2 vpd subproj_dims_ = Some subprojs_ /\
    flat_map
      (fun i => map (Distribution.get_subproj_dims subprojs_ i)
                  (range (Distribution.get_subproj_num vpd i)))
      (range 2)
    = subproj_dims_ /\
    forall i c, 0 <= c ->
      Distribution.get_subproj_dims subprojs_ i c
      = if (0 <=? i) && (i <? 2) && (c <? Scheduler.get_volume_num vpd i)
        then nth (Z.to_nat
                    (sumZ (map (Scheduler.get_volume_num vpd) (range i)) + c))
               subproj_dims_ (0, 0)
        else (0, 0).
Proof.
  intros vpd subproj_dims_.
  apply (subprojections_distributed_in_plan_order 2 vpd subproj_dims_).
  - lia.
  - intros i Hi. assert (Hcase : i = 0 \/ i = 1) by lia.
    destruct Hcase as [->| ->]; vm_compute; discriminate.
  - reflexivity.
Defined.

(** [calculate_subprojection_offsets] on the distributed row ranges: the
    offset [get_subproj_offset] returns for sub-projection [c] of device
    [i] is the first row of the range [get_subproj_dims] returns for it,
    and both read zero for an unknown device or index. *)
Theorem subprojection_offset_is_first_row (devices : Z)
    (vpd : Scheduler.dev_map) (subproj_dims_ : list (Z * Z)) :
  0 <= devices ->
  (forall i, 0 <= i < devices -> 0 <= Scheduler.get_volume_num vpd i) ->
  sumZ (map (Scheduler.get_volume_num vpd) (range devices))
  <= Z.of_nat (length subproj_dims_) ->
  exists subprojs_ offset_per_subproj_,
    Distribution.distribute_subprojections devices vpd subproj_dims_
    = Some subprojs_ /\
    Distribution.calculate_subprojection_offsets devices vpd subprojs_
    = Some offset_per_subproj_ /\
    forall i c, 0 <= c ->
      Distribution.get_subproj_offset offset_per_subproj_ i c
      = fst (Distribution.get_subproj_dims subprojs_ i c).
Proof.
  intros Hd Hc Hfit.
  exists (map (fun i => (i, Distribution.slice subproj_dims_
                             (sumZ (map (Scheduler.get_volume_num vpd) (range i)))
                             (Scheduler.get_volume_num vpd i)))
            (range devices)).
  eexists. split; [|split].
  - unfold Distribution.distribute_subprojections.
    rewrite (distribute_loop devices vpd subproj_dims_ Hc Hfit devices Hd)
      by lia.
    reflexivity.
  - unfold Distribution.calculate_subprojection_offsets.
    apply (subproj_offsets_loop devices vpd subproj_dims_ Hc Hfit
             (range devices) [] Hd).
    intros i Hi. now apply in_range.
  - intros i c Hc0.
    apply (get_subproj_offset_slices devices vpd subproj_dims_ Hc i c Hd Hc0).
Qed.

Lemma subprojection_offset_is_first_row_witness :
  let vpd := [(0, 1); (1, 2)] in
  let subproj_dims_ := [(0, 3); (2, 5); (4, 7)] in
  exists subprojs_ offset_per_subproj_,
    Distribution.distribute_subprojections 2 vpd subproj_dims_ = Some subprojs_ /\
    Distribution.calculate_subprojection_offsets 2 vpd subprojs_
    = Some offset_per_subproj_ /\
    forall i c, 0 <= c ->
      Distribution.get_subproj_offset offset_per_subproj_ i c
      = fst (Distribution.get_subproj_dims subprojs_ i c).
Proof.
  intros vpd subproj_dims_.
  apply (subprojection_offset_is_first_row 2 vpd subproj_dims_).
  - lia.
  - intros i Hi. assert (Hcase : i = 0 \/ i = 1) by lia.
    destruct Hcase as [->| ->]; vm_compute; discriminate.
  - vm_compute. discriminate.
Defined.

(** ** The two computations of the volume geometry *)

Section GeometryCopies.

Lemma wrap32_wrap64 x : wrap32 (wrap64 x) = wrap32 x.
Proof.
  unfold wrap32, wrap64. apply Z.mod_mod_divide.
  exists (2 ^ 32). reflexivity.
Qed.

End GeometryCopies.

(** The scheduler's [calculate_volume_geo] and [make_volume_geometry]
    compute the same volume from the same detector: equal voxel sizes, and
    dimensions that differ only by the integer type, [std::size_t] in the
    scheduler and [std::uint32_t] in the geometry code.  [float]
    arithmetic is taken as exact. *)
Theorem volume_geometry_copies_agree (geo : SchedulerGeometry.Geometry)
    (det_geo : Geometry.detector_geometry) :
  SchedulerGeometry.det_pixels_row geo = Geometry.n_row det_geo ->
  SchedulerGeometry.det_pixels_column geo = Geometry.n_col det_geo ->
  SchedulerGeometry.det_pixel_size_horiz geo = Geometry.l_px_row det_geo ->
  SchedulerGeometry.det_pixel_size_vert geo = Geometry.l_px_col det_geo ->
  SchedulerGeometry.det_offset_horiz geo = Geometry.delta_s det_geo ->
  SchedulerGeometry.det_offset_vert geo = Geometry.delta_t det_geo ->
  SchedulerGeometry.dist_src geo = Geometry.d_so det_geo ->
  SchedulerGeometry.dist_det geo = Geometry.d_od det_geo ->
  let sched := SchedulerGeometry.calculate_volume_geo geo in
  let vol := Geometry.make_volume_geometry det_geo in
  SchedulerGeometry.voxel_size_x sched = Roi.l_vx_x vol /\
  SchedulerGeometry.voxel_size_y sched = Roi.l_vx_y vol /\
  SchedulerGeometry.voxel_size_z sched = Roi.l_vx_z vol /\
  wrap32 (SchedulerGeometry.dim_x sched) = Roi.dim_x vol /\
  wrap32 (SchedulerGeometry.dim_y sched) = Roi.dim_y vol /\
  wrap32 (SchedulerGeometry.dim_z sched) = Roi.dim_z vol.
Proof.
  intros Hr Hc Hh Hv Hos Hot Hso Hod sched vol.
  unfold sched, vol, SchedulerGeometry.calculate_volume_geo,
    Geometry.make_volume_geometry, SchedulerGeometry.dist_sd_.
  cbn [SchedulerGeometry.voxel_size_x SchedulerGeometry.voxel_size_y
       SchedulerGeometry.voxel_size_z SchedulerGeometry.dim_x
       SchedulerGeometry.dim_y SchedulerGeometry.dim_z
       Roi.l_vx_x Roi.l_vx_y Roi.l_vx_z Roi.dim_x Roi.dim_y Roi.dim_z].
  rewrite Hr, Hc, Hh, Hv, Hos, Hot, Hso, Hod.
  unfold Ideal.to_size_t, Ideal.to_uint32. rewrite !wrap32_wrap64.
  split; [reflexivity|]. split; [reflexivity|]. split; [reflexivity|].
  split; [reflexivity|]. split; reflexivity.
Qed.

Lemma volume_geometry_copies_agree_witness :
  let geo := {| SchedulerGeometry.det_pixels_row := 32;
                SchedulerGeometry.det_pixels_column := 32;
                SchedulerGeometry.det_pixel_size_horiz := 1;
                SchedulerGeometry.det_pixel_size_vert := 1;
                SchedulerGeometry.det_offset_horiz := 0;
                SchedulerGeometry.det_offset_vert := 0;
                SchedulerGeometry.dist_src := 100;
                SchedulerGeometry.dist_det := 100 |} in
  let sched := SchedulerGeometry.calculate_volume_geo geo in
  let vol := Geometry.make_volume_geometry Geometry.s1_geometry in
  SchedulerGeometry.voxel_size_x sched = Roi.l_vx_x vol /\
  SchedulerGeometry.voxel_size_y sched = Roi.l_vx_y vol /\
  SchedulerGeometry.voxel_size_z sched = Roi.l_vx_z vol /\
  wrap32 (SchedulerGeometry.dim_x sched) = Roi.dim_x vol /\
  wrap32 (SchedulerGeometry.dim_y sched) = Roi.dim_y vol /\
  wrap32 (SchedulerGeometry.dim_z sched) = Roi.dim_z vol.
Proof.
  intros geo.
  apply (volume_geometry_copies_agree geo Geometry.s1_geometry); reflexivity.
Defined.

(** ** Samples off the detector *)

(** A sample none of whose four corner pixels lies on the detector reads
    no pixel: its interpolated value is the same for every projection, and
    it is NaN or a zero (binary32 arithmetic). *)
Theorem off_detector_sample_reads_no_pixel
    (h v : Float32.float) (proj proj' : Backprojection.projection)
    (proj_width proj_height : Z)
    (pixel_size_x pixel_size_y offset_x offset_y : Float32.float) :
  Backprojection.footprint_inside h v proj_width proj_height
    pixel_size_x pixel_size_y offset_x offset_y = false ->
  Backprojection.interpolate h v proj proj_width proj_height
    pixel_size_x pixel_size_y offset_x offset_y
  = Backprojection.interpolate h v proj' proj_width proj_height
      pixel_size_x pixel_size_y offset_x offset_y /\
  (let val := Backprojection.interpolate h v proj proj_width proj_height
                pixel_size_x pixel_size_y offset_x offset_y in
   Float32.is_nan val || Float32.is_zero val = true).
Proof.
  intros Hout. split.
  - revert Hout.
    unfold Backprojection.footprint_inside, Backprojection.interpolate.
    cbv zeta.
    set (h_real := Backprojection.proj_real_coordinate h proj_width
                     pixel_size_x offset_x).
    set (v_real := Backprojection.proj_real_coordinate v proj_height
                     pixel_size_y offset_y).
    set (h0 := Float32.fleb Float32.zero (Float32.floorf h_real)
               && Float32.fltb (Float32.floorf h_real) (Float32.of_Z proj_width)).
    set (h1 := Float32.fleb Float32.zero (Float32.ceilf h_real)
               && Float32.fltb (Float32.ceilf h_real) (Float32.of_Z proj_width)).
    set (v0 := Float32.fleb Float32.zero (Float32.floorf v_real)
               && Float32.fltb (Float32.floorf v_real) (Float32.of_Z proj_height)).
    set (v1 := Float32.fleb Float32.zero (Float32.ceilf v_real)
               && Float32.fltb (Float32.ceilf v_real) (Float32.of_Z proj_height)).
    intros Hout.
    destruct h0, h1, v0, v1; try discriminate Hout; reflexivity.
  - now apply interpolate_outside_detector.
Qed.

Lemma off_detector_sample_reads_no_pixel_witness :
  let h := Float32.dyadic (-15) (-2) in
  Backprojection.footprint_inside h h 4 4 Float32.one Float32.one
    Float32.zero Float32.zero = false /\
  Backprojection.interpolate h h (fun _ _ => Float32.one) 4 4
    Float32.one Float32.one Float32.zero Float32.zero
  = Backprojection.interpolate h h (fun _ _ => Float32.two) 4 4
      Float32.one Float32.one Float32.zero Float32.zero /\
  (let val := Backprojection.interpolate h h (fun _ _ => Float32.one) 4 4
                Float32.one Float32.one Float32.zero Float32.zero in
   Float32.is_nan val || Float32.is_zero val = true).
Proof.
  intros h.
  assert (Hout : Backprojection.footprint_inside h h 4 4 Float32.one Float32.one
                   Float32.zero Float32.zero = false).
  { vm_compute. reflexivity. }
  split; [exact Hout|].
  exact (off_detector_sample_reads_no_pixel h h (fun _ _ => Float32.one)
           (fun _ _ => Float32.two) 4 4
           Float32.one Float32.one Float32.zero Float32.zero Hout).
Defined.

(** ** The filter length *)

(** [filter_length_] in terms of what the library delivers: when the
    ceiling of [std::log2(float(n))] is the integer [c], the length is
    [2 ^ (c + 1)], a power of two; it is at least twice the number of
    pixels per column exactly when [c] is not below [ceil(log2 n)], and
    below four times that number exactly when [c] is not above it. *)
Theorem filter_length_covers_twice_the_column
    (log2f : Float32.float -> Float32.float) (det_pixels_column c : Z) :
  1 <= det_pixels_column -> 0 <= c <= 62 ->
  Float32.ceilf (log2f (Float32.of_Z det_pixels_column)) = Float32.of_Z c ->
  let L := FilterLength.filter_length_ log2f det_pixels_column in
  L = 2 ^ (c + 1) /\
  (2 * det_pixels_column <= L <-> Z.log2_up det_pixels_column <= c) /\
  (L < 4 * det_pixels_column <-> c <= Z.log2_up det_pixels_column).
Proof.
  intros Hn Hc Hlog L. unfold L.
  rewrite (filter_length_of_exponent log2f det_pixels_column c Hc Hlog).
  assert (Hp : 0 < 2 ^ c) by (apply Z.pow_pos_nonneg; lia).
  split; [|split].
  - rewrite Z.pow_add_r, Z.pow_1_r by lia. lia.
  - rewrite <- (Z.log2_up_le_pow2 det_pixels_column c) by lia. lia.
  - destruct (Z.eq_dec c 0) as [->|Hc0].
    + pose proof (Z.log2_up_nonneg det_pixels_column). rewrite Z.pow_0_r. lia.
    + replace (2 ^ c) with (2 * 2 ^ (c - 1))
        by (rewrite <- Z.pow_succ_r by lia; f_equal; lia).
      pose proof (Z.log2_up_lt_pow2 det_pixels_column (c - 1) ltac:(lia)) as Hlt.
      split; intros H.
      * assert (c - 1 < Z.log2_up det_pixels_column) by (apply Hlt; lia). lia.
      * assert (2 ^ (c - 1) < det_pixels_column) by (apply Hlt; lia). lia.
Qed.

Lemma filter_length_covers_twice_the_column_witness :
  let log2f := fun _ : Float32.float => Float32.of_Z 21 in
  let L := FilterLength.filter_length_ log2f (2 ^ 21 + 1) in
  L = 2 ^ (21 + 1) /\
  (2 * (2 ^ 21 + 1) <= L <-> Z.log2_up (2 ^ 21 + 1) <= 21) /\
  (L < 4 * (2 ^ 21 + 1) <-> 21 <= Z.log2_up (2 ^ 21 + 1)).
Proof.
  intros log2f.
  apply (filter_length_covers_twice_the_column log2f (2 ^ 21 + 1) 21).
  - lia.
  - lia.
  - vm_compute. reflexivity.
Defined.

(** The rounding at work: for [2 ^ 21 + 1] pixels per column a library
    that returns [21.0f], the [float] next to the logarithm, makes the
    length [2 ^ 22], less than twice the number of pixels. *)
Lemma rounded_logarithm_halves_the_length :
  let L := FilterLength.filter_length_ (fun _ => Float32.of_Z 21) (2 ^ 21 + 1) in
  L = 2 ^ 22 /\ L < 2 * (2 ^ 21 + 1) /\ Filter.filter_length (2 ^ 21 + 1) = 2 ^ 23.
Proof. vm_compute. repeat split. Qed.

(** A library that is exact on the powers of two serves every detector
    whose number of pixels per column is one. *)
Lemma logarithm_of_power_of_two (log2f : Float32.float -> Float32.float) e :
  0 <= e <= 29 ->
  log2f (Float32.of_Z (2 ^ e)) = Float32.of_Z e ->
  Float32.ceilf (log2f (Float32.of_Z (2 ^ e))) = Float32.of_Z (Z.log2_up (2 ^ e)).
Proof.
  intros He Hlog. rewrite Hlog, Z.log2_up_pow2 by lia.
  assert (Hall : forallb
                   (fun e => match Float32.ceilf (Float32.of_Z e), Float32.of_Z e with
                             | S754_finite s m x, S754_finite s' m' x' =>
                                 Bool.eqb s s' && (Zpos m =? Zpos m') && (x =? x')
                             | S754_zero s, S754_zero s' => Bool.eqb s s'
                             | _, _ => false
                             end)
                   (range 30) = true) by (vm_compute; reflexivity).
  rewrite forallb_forall in Hall.
  specialize (Hall e ltac:(apply in_range; lia)).
  destruct (Float32.ceilf (Float32.of_Z e)) as [s| | |s m x],
    (Float32.of_Z e) as [s'| | |s' m' x']; try discriminate Hall.
  - apply Bool.eqb_prop in Hall. now subst.
  - rewrite !andb_true_iff in Hall. destruct Hall as [[Hs Hm] Hx].
    apply Bool.eqb_prop in Hs. apply Z.eqb_eq in Hm, Hx. congruence.
Qed.

(** The padding of [processor] keeps a whole projection when the detector
    is at most twice as wide as it is high and the library's logarithm
    does not fall below [ceil(log2 det_pixels_column)]: every pixel of a
    projection of at most [2 * det_pixels_column] columns is copied to the
    padded buffer. *)
Theorem padding_keeps_narrow_projections
    (log2f : Float32.float -> Float32.float) (round_up : Z -> Z)
    (det_pixels_column c width height : Z) (img converted : FilterKernels.image)
    (x y : Z) :
  (forall n, n <= round_up n) ->
  1 <= det_pixels_column ->
  Float32.ceilf (log2f (Float32.of_Z det_pixels_column)) = Float32.of_Z c ->
  Z.log2_up det_pixels_column <= c <= 62 ->
  width <= 2 * det_pixels_column ->
  0 <= x < width -> 0 <= y < height ->
  FilterKernels.pad round_up
    (FilterLength.filter_length_ log2f det_pixels_column)
    width height img converted (y, x)
  = img (y, x).
Proof.
  intros Hround Hn Hlog Hc Hw Hx Hy.
  rewrite (pad_cells round_up Hround) by lia.
  pose proof (Z.log2_up_nonneg det_pixels_column) as He.
  rewrite (filter_length_of_exponent log2f det_pixels_column c
             ltac:(lia) Hlog).
  assert (HL : det_pixels_column <= 2 ^ c)
    by (apply Z.log2_up_le_pow2; lia).
  replace (x <? 2 * 2 ^ c) with true by (symmetry; apply Z.ltb_lt; lia).
  replace (y <? height) with true by (symmetry; apply Z.ltb_lt; lia).
  replace (x <? width) with true by (symmetry; apply Z.ltb_lt; lia).
  reflexivity.
Qed.

Lemma padding_keeps_narrow_projections_witness :
  let log2f := fun _ : Float32.float => Float32.of_Z 2 in
  let img : FilterKernels.image := fun c => IZR (fst c + snd c) in
  let converted : FilterKernels.image := fun _ => 7%R in
  FilterKernels.pad (fun n => 16 * ((n + 15) / 16))
    (FilterLength.filter_length_ log2f 3) 5 3 img converted (2, 4)
  = img (2, 4).
Proof.
  intros log2f img converted.
  apply (padding_keeps_narrow_projections log2f (fun n => 16 * ((n + 15) / 16))
           3 2 5 3 img converted 4 2).
  - intros n. Z.div_mod_to_equations. lia.
  - lia.
  - vm_compute. reflexivity.
  - split; vm_compute; discriminate.
  - lia.
  - lia.
  - lia.
Defined.
